(** * pyautodiff: the symbolic tracer, the compiled-function cache and the
      gradient wrapper of [autodiff/symbolic.py]

    The development embeds the three classes of [symbolic.py]
    ([Symbolic], [Function], [Gradient]) as state-passing programs over an
    explicit store.  Python exceptions are values of an error type, and a
    raising computation keeps the mutations it made before the raise.  The
    collaborators that [symbolic.py] only calls (the instrumented execution
    context, the symbolic engine, the signature binder) are an interface
    ([Engine]) or are modelled from the specification. *)

From Stdlib Require Import ZArith.
From stdpp Require Import base list strings pretty gmap.

Set Default Proof Using "Type".
Local Open Scope string_scope.
Local Open Scope list_scope.

(** ** Python values and objects *)

(** The classes of run-time values that [check] tells apart: [type(i) is int]
    holds of [VInt] only (a [bool] or a [numpy.int_] is not a plain int), and
    [isinstance(i, (list, tuple, dict))] of the three containers. *)
#[warnings="-register-all"]
Inductive pyval :=
| VNone
| VInt (z : Z)
| VBool (b : bool)
| VFloat (bits : Z)
| VStr (s : string)
| VNpInt (z : Z)
| VNdarray (data : list Z)
| VList (items : list pyval)
| VTuple (items : list pyval)
| VDict (items : list (pyval * pyval)).

(** An object is a value at an identity; [oid] is what [id(obj)] returns. *)
Record obj := Obj { oid : nat; oval : pyval }.

(** A graph node of the symbolic engine (a theano variable), by identity. *)
Definition node := nat.

(** ** Ordered dictionaries

    [OrderedDict] as an association list in insertion order: assigning to a key
    that is present replaces the value in place, a new key goes to the end. *)
Section odict.
Context {K V : Type} `{EqDecision K}.

Definition odict := list (K * V).

Fixpoint od_get (k : K) (d : odict) : option V :=
  match d with
  | [] => None
  | (k', v) :: d' => if decide (k = k') then Some v else od_get k d'
  end.

Fixpoint od_set (k : K) (v : V) (d : odict) : odict :=
  match d with
  | [] => [(k, v)]
  | (k', v') :: d' =>
      if decide (k = k') then (k, v) :: d' else (k', v') :: od_set k v d'
  end.

(** [d.update(kvs)] and [OrderedDict(kvs)] *)
Definition od_update (d : odict) (kvs : list (K * V)) : odict :=
  fold_left (fun acc kv => od_set kv.1 kv.2 acc) kvs d.

Definition od_of_list (kvs : list (K * V)) : odict := od_update [] kvs.

Definition od_keys (d : odict) : list K := map fst d.
Definition od_values (d : odict) : list V := map snd d.
End odict.

Arguments odict : clear implicits.

(** ** Exceptions

    An exception is its class, the template of its message and the arguments
    given to [str.format]; the message is not rendered. *)
Inductive farg :=
| FObj (o : obj)
| FStr (s : string)
| FNat (n : nat)
| FNone.

Inductive exn := PyExc (cls : string) (template : string) (fargs : list farg).

Definition TypeError := PyExc "TypeError".
Definition KeyError := PyExc "KeyError".

(** The name handed to [format]: a parameter name, or [None] when
    [argspec.varargs] is [None]. *)
Definition fname (name : option string) : farg :=
  match name with Some n => FStr n | None => FNone end.

(** ** State and error monad

    [M S A] is a computation over a store [S] that returns an [A] or raises;
    the store it returns on a raise holds the mutations made so far. *)
Definition M (S A : Type) : Type := S -> (exn + A) * S.

Definition ret {S A} (a : A) : M S A := fun s => (inr a, s).
Definition raise {S A} (e : exn) : M S A := fun s => (inl e, s).
Definition bind {S A B} (m : M S A) (k : A -> M S B) : M S B :=
  fun s => match m s with
           | (inr a, s') => k a s'
           | (inl e, s') => (inl e, s')
           end.
Definition get {S} : M S S := fun s => (inr s, s).
Definition gets {S A} (f : S -> A) : M S A := fun s => (inr (f s), s).
Definition modify {S} (f : S -> S) : M S unit := fun s => (inr tt, f s).

Declare Scope py_scope.
Delimit Scope py_scope with py.
Notation "x <- c1 ;; c2" := (bind c1 (fun x => c2))
  (at level 100, c1 at next level, right associativity) : py_scope.
Notation "c1 ;; c2" := (bind c1 (fun _ => c2))
  (at level 100, right associativity) : py_scope.
Local Open Scope py_scope.

(** [for x in xs: f(x)], collecting the results (a generator expression
    consumed by [tuple] or [OrderedDict]): left to right, stops at the first
    raise. *)
Fixpoint mapM {S A B} (f : A -> M S B) (xs : list A) : M S (list B) :=
  match xs with
  | [] => ret []
  | x :: xs' => y <- f x ;; ys <- mapM f xs' ;; ret (y :: ys)
  end.

(** [for x in xs: f(x)] for its effects. *)
Fixpoint forM_ {S A} (f : A -> M S unit) (xs : list A) : M S unit :=
  match xs with
  | [] => ret tt
  | x :: xs' => f x ;; forM_ f xs'
  end.

(** A loop that threads a local value (a dictionary being built). *)
Fixpoint foldM {S A B} (f : B -> A -> M S B) (b : B) (xs : list A) : M S B :=
  match xs with
  | [] => ret b
  | x :: xs' => b' <- f b x ;; foldM f b' xs'
  end.

(** [enumerate(xs)] from [i]. *)
Fixpoint enumerate_from {A} (i : nat) (xs : list A) : list (nat * A) :=
  match xs with
  | [] => []
  | x :: xs' => (i, x) :: enumerate_from (S i) xs'
  end.
Definition enumerate {A} (xs : list A) : list (nat * A) := enumerate_from 0 xs.

(** ** Functions and their signature *)

(** What [getargspec(pyfn)] reads off a function: the declared positional
    names, the name of the variadic parameter and of the keyword bag, and the
    default values of the last positional names. *)
Record pyfunction := PyFn {
  func_args : list string;
  func_varargs : option string;
  func_keywords : option string;
  func_defaults : list obj
}.

(** A value bound to a parameter name by the signature binder: one object,
    the variadic tuple, or the keyword bag. *)
Inductive bound :=
| BVal (o : obj)
| BTuple (items : list obj)
| BBag (items : odict string obj).

(** What a function returns: a tuple (an object of its own, holding its
    items) or any other single object. *)
Inductive pyresult :=
| RSingle (o : obj)
| RTuple (tid : nat) (items : list obj).

(** An entry of [s_args]: a node, or the tuple of nodes of the variadic
    parameter. *)
Inductive sarg :=
| SVar (v : node)
| SNodes (vs : list node).

(** The inputs and outputs handed to [theano.function]. *)
Inductive tinput :=
| Param (v : node) (default : option obj) (name : string)
| In_ (v : node)
| InList (vs : list node).

Inductive toutputs :=
| OSingle (v : node)
| OMany (vs : list node).

(** What a compiled artifact returns: one value for a single output, a list
    of values for a list of outputs. *)
Inductive fnresult :=
| FSingle (v : pyval)
| FList (vs : list pyval).

(** ** The collaborators

    [symbolic.py] calls, and does not define, the instrumented execution
    context ([Context().call], read back through [c.svars]), theano's
    [function], [grad] and variable constructor, and the compiled artifacts.
    They act on a state of their own and may raise. *)
Class Engine := {
  estate : Type;
  artifact : Type;
  (** [c = Context(); c.call(fn, args, kwargs)], then [c.svars] *)
  ctx_call : pyfunction -> list obj -> odict string obj ->
             estate -> (exn + (pyresult * list (nat * node))) * estate;
  (** [v.type(name=...)]: a new variable of the type of [v] *)
  new_input : node -> string -> estate -> node * estate;
  (** [theano.function(inputs, outputs, givens, on_unused_input='ignore')];
      the gradient builder passes no [givens] *)
  theano_function : list tinput -> toutputs -> odict node node ->
                    estate -> (exn + artifact) * estate;
  (** [tt.grad(cost, wrt)] *)
  tt_grad : node -> list node -> estate -> (exn + list node) * estate;
  (** a compiled artifact called on positional and keyword values *)
  fn_call : artifact -> list obj -> odict string obj ->
            estate -> (exn + fnresult) * estate
}.

(** The calls made to the collaborators and to [print], in order. *)
Inductive event :=
| EvTrace (args : list obj) (kwargs : odict string obj)
| EvGrad (cost : node) (wrt : list node)
| EvCompile (inputs : list tinput) (outputs : toutputs)
| EvInvoke (args : list obj) (kwargs : odict string obj)
| EvPrint (msg : string).

Section world.
Context `{Engine}.

(** What lives outside the wrapper objects: the allocator of object
    identities, the [name] attribute of the graph nodes, the state of the
    collaborators and the record of the calls made to them. *)
Record world := World {
  next_id : nat;
  names : gmap node string;
  eng : estate;
  calls : list event
}.

Definition log (e : event) (w : world) : world :=
  World (next_id w) (names w) (eng w) (calls w ++ [e]).

Definition set_name (v : node) (n : string) (w : world) : world :=
  World (next_id w) (<[v := n]> (names w)) (eng w) (calls w).

Definition set_eng (e : estate) (w : world) : world :=
  World (next_id w) (names w) e (calls w).

(** [numpy.int_(z)]: a new boxed object. *)
Definition alloc_np_int (z : Z) (w : world) : obj * world :=
  (Obj (next_id w) (VNpInt z),
   World (S (next_id w)) (names w) (eng w) (calls w)).
End world.

(** Wrapper objects ([Symbolic], [Gradient]) are stores that hold the world. *)
Class Store `{Engine} (S : Type) := {
  world_of : S -> world;
  with_world : world -> S -> S
}.

Section effects.
Context `{Engine} {S : Type} `{!Store S}.

Definition liftW {A} (f : world -> A * world) : M S A :=
  fun s => let (a, w') := f (world_of s) in (inr a, with_world w' s).

Definition liftE {A} (r : exn + A) : M S A :=
  fun s => (r, s).

(** A call to a collaborator: it is recorded, runs on the collaborators'
    state and returns or raises. *)
Definition call_ext {A} (ev : event)
    (f : estate -> (exn + A) * estate) : M S A :=
  fun s => let w := log ev (world_of s) in
           let (r, e') := f (eng w) in
           (r, with_world (set_eng e' w) s).

(** A call to a collaborator that cannot raise and is not recorded. *)
Definition call_eng {A} (f : estate -> A * estate) : M S A :=
  fun s => let w := world_of s in
           let (a, e') := f (eng w) in
           (inr a, with_world (set_eng e' w) s).

(** [try: m except: h; raise] *)
Definition except_reraise {A} (m : M S A) (h : S -> S) : M S A :=
  fun s => match m s with
           | (inl e, s') => (inl e, h s')
           | (inr a, s') => (inr a, s')
           end.

(** [try: m except KeyError: h; raise] *)
Definition on_KeyError {A} (m : M S A) (h : M S unit) : M S A :=
  fun s => match m s with
           | (inl (PyExc cls t fa), s') =>
               if decide (cls = "KeyError")
               then match h s' with
                    | (inl e', s'') => (inl e', s'')
                    | (inr _, s'') => (inl (PyExc cls t fa), s'')
                    end
               else (inl (PyExc cls t fa), s')
           | (inr a, s') => (inr a, s')
           end.

Definition np_int_ (z : Z) : M S obj := liftW (alloc_np_int z).

Definition setattr_name (v : node) (n : string) : M S unit :=
  liftW (fun w => (tt, set_name v n w)).

Definition print (msg : string) : M S unit :=
  liftW (fun w => (tt, log (EvPrint msg) w)).
End effects.

(** ** The signature binder *)

Fixpoint mapE {A B} (f : A -> exn + B) (xs : list A) : exn + list B :=
  match xs with
  | [] => inr []
  | x :: xs' =>
      match f x with
      | inl e => inl e
      | inr y => match mapE f xs' with
                 | inl e => inl e
                 | inr ys => inr (y :: ys)
                 end
      end
  end.

(** The value of the declared parameter [name] at position [i]: the
    positional value if one was passed, else the keyword of that name, else
    the default of that position. *)
Definition bind_declared (f : pyfunction) (args : list obj)
    (kwargs : odict string obj) (ina : nat * string) : exn + (string * bound) :=
  let (i, name) := ina in
  match args !! i, od_get name kwargs with
  | Some a, None => inr (name, BVal a)
  | Some _, Some _ =>
      inl (TypeError "got multiple values for keyword argument '{0}'"
             [FStr name])
  | None, Some v => inr (name, BVal v)
  | None, None =>
      let first_default := length (func_args f) - length (func_defaults f) in
      if decide (first_default <= i) then
        match func_defaults f !! (i - first_default) with
        | Some d => inr (name, BVal d)
        | None => inl (TypeError "missing argument '{0}'" [FStr name])
        end
      else inl (TypeError "missing argument '{0}'" [FStr name])
  end.

(** Modelled from the spec: the Signature Binder, [orderedcallargs] of
    [autodiff.utils], which is not among the sources.  Given the function and
    a call's arguments it returns an ordered name-to-value mapping covering
    every declared parameter, then the variadic tuple (if the function has a
    variadic parameter), then the keyword bag (if it has one), each under its
    name; a call that does not bind raises [TypeError]. *)
Definition orderedcallargs (f : pyfunction) (args : list obj)
    (kwargs : odict string obj) : exn + odict string bound :=
  let extra := drop (length (func_args f)) args in
  let bag := filter (fun kv => kv.1 ∉ func_args f) kwargs in
  match mapE (bind_declared f args kwargs) (enumerate (func_args f)) with
  | inl e => inl e
  | inr declared =>
      match func_varargs f, extra with
      | None, _ :: _ => inl (TypeError "too many positional arguments" [])
      | _, _ =>
          match func_keywords f, bag with
          | None, (k, _) :: _ =>
              inl (TypeError "got an unexpected keyword argument '{0}'"
                     [FStr k])
          | _, _ =>
              inr (od_of_list
                     (declared
                      ++ match func_varargs f with
                         | Some va => [(va, BTuple extra)]
                         | None => []
                         end
                      ++ match func_keywords f with
                         | Some kw => [(kw, BBag bag)]
                         | None => []
                         end))
          end
      end
  end.

(** ** [Symbolic] *)

Section symbolic.
Context `{Engine}.

Record symbolic := Symbolic {
  sym_world : world;
  pyfn : pyfunction;
  s_vars : odict nat node;
  s_args : odict string sarg;
  s_results : odict nat node;
  cache : gmap nat artifact
}.

#[export] Instance symbolic_store : Store symbolic := {
  world_of := sym_world;
  with_world w s :=
    Symbolic w (pyfn s) (s_vars s) (s_args s) (s_results s) (cache s)
}.

Definition set_s_vars (f : odict nat node -> odict nat node)
    (s : symbolic) : symbolic :=
  Symbolic (sym_world s) (pyfn s) (f (s_vars s)) (s_args s) (s_results s)
           (cache s).
Definition set_s_args (f : odict string sarg -> odict string sarg)
    (s : symbolic) : symbolic :=
  Symbolic (sym_world s) (pyfn s) (s_vars s) (f (s_args s)) (s_results s)
           (cache s).
Definition set_s_results (f : odict nat node -> odict nat node)
    (s : symbolic) : symbolic :=
  Symbolic (sym_world s) (pyfn s) (s_vars s) (s_args s) (f (s_results s))
           (cache s).
Definition set_cache (f : gmap nat artifact -> gmap nat artifact)
    (s : symbolic) : symbolic :=
  Symbolic (sym_world s) (pyfn s) (s_vars s) (s_args s) (s_results s)
           (f (cache s)).

(** [type(d) is int and -5 <= d <= 256] *)
Definition small_int (v : pyval) : option Z :=
  match v with
  | VInt z => if bool_decide (-5 <= z <= 256)%Z then Some z else None
  | _ => None
  end.

(** [isinstance(i, (list, tuple, dict))] *)
Definition is_container (v : pyval) : bool :=
  match v with
  | VList _ | VTuple _ | VDict _ => true
  | _ => false
  end.

(** [__init__]: the dictionaries start empty and the small integers among
    the defaults of the function are boxed. *)
Definition box_default (d : obj) (w : world) : obj * world :=
  match small_int (oval d) with
  | Some z => alloc_np_int z w
  | None => (d, w)
  end.

Fixpoint box_defaults (ds : list obj) (w : world) : list obj * world :=
  match ds with
  | [] => ([], w)
  | d :: ds' =>
      let (d', w1) := box_default d w in
      let (ds'', w2) := box_defaults ds' w1 in
      (d' :: ds'', w2)
  end.

Definition Symbolic_init (f : pyfunction) (w : world) : symbolic :=
  let (new_defaults, w') := box_defaults (func_defaults f) w in
  Symbolic w'
    (PyFn (func_args f) (func_varargs f) (func_keywords f) new_defaults)
    [] [] [] ∅.

Definition container_msg : string :=
  "Function arguments can not be containers (received {0} for argument '{1}').".

(** [check(name, i)] of [trace]. *)
Definition check {S} `{!Store S} (name : option string) (i : obj)
    : M S obj :=
  match small_int (oval i) with
  | Some z => np_int_ z
  | None =>
      if is_container (oval i)
      then raise (TypeError container_msg [FObj i; fname name])
      else ret i
  end.

(** What [check] returns for an argument that is not a container, when
    the allocator stood at [base] and [k] integers were boxed since. *)
Definition checked (base k : nat) (a : obj) : obj :=
  match small_int (oval a) with
  | Some z => Obj (base + k) (VNpInt z)
  | None => a
  end.

(** The arguments of a call in the order in which [trace] checks them,
    each with the name that [check] is given for it: the declared name of
    its position, [argspec.varargs] for a further positional argument, its
    keyword. *)
Definition named_args (f : pyfunction) (args : list obj)
    (kwargs : odict string obj) : list (option string * obj) :=
  (prod_map Some id <$> zip (func_args f) args)
  ++ (pair (func_varargs f) <$> drop (length (func_args f)) args)
  ++ (prod_map Some id <$> kwargs).

(** The three lines of [trace] that rebuild [args] and [kwargs] through
    [check]. *)
Definition check_args {S} `{!Store S} (f : pyfunction) (args : list obj)
    (kwargs : odict string obj) : M S (list obj * odict string obj) :=
  tmp_args <- mapM (fun na => check (Some na.1) na.2)
                   (zip (func_args f) args) ;;
  rest <- mapM (check (func_varargs f))
               (drop (length (func_args f)) args) ;;
  kw <- mapM (fun kv => v <- check (Some kv.1) kv.2 ;; ret (kv.1, v))
             kwargs ;;
  ret (tmp_args ++ rest, od_of_list kw).
End symbolic.

Section trace.
Context `{Engine}.

Definition vararg_msg : string :=
  "Unable to trace item {0} of variable argument '{1}'.".
Definition arg_msg : string := "Unable to trace argument '{0}'.".
Definition result_msg : string :=
  "Unable to trace result #{0} (indexed from 1).".

(** ['{0}_{1}'.format(name, i)] *)
Definition item_name (name : string) (i : nat) : string :=
  String.append name (String.append "_" (pretty i)).

(** One round of the loop over the variadic tuple:
    [self.s_args[name] += (self.s_vars[id(a)],)], then the node is named.
    A [KeyError] of either lookup is the one handled.  The entry read back
    is the tuple that the branch has just stored; were it a node, the [+=]
    would not be one of tuples. *)
Definition collect_vararg (name : string) (ia : nat * obj)
    : M symbolic unit :=
  let (i, a) := ia in
  s <- get ;;
  match od_get name (s_args s), od_get (oid a) (s_vars s) with
  | Some (SNodes vs), Some v =>
      modify (set_s_args (od_set name (SNodes (vs ++ [v])))) ;;
      setattr_name v (item_name name i)
  | Some (SVar _), Some _ =>
      raise (TypeError "unsupported operand type(s) for +=" [])
  | _, _ => raise (KeyError vararg_msg [FNat i; FStr name])
  end.

(** One round of the loop over the keyword bag, and the body of the branch
    of a declared parameter: [self.s_args[n] = self.s_vars[id(a)]], then the
    node is named. *)
Definition collect_named (n : string) (a : obj) : M symbolic unit :=
  s <- get ;;
  match od_get (oid a) (s_vars s) with
  | Some v =>
      modify (set_s_args (od_set n (SVar v))) ;;
      setattr_name v n
  | None => raise (KeyError arg_msg [FStr n])
  end.

(** The body of [for name, arg in callargs.iteritems()].  The binder binds
    the variadic name to a tuple, the bag name to a mapping and a declared
    name to one object; on another shape the iteration raises. *)
Definition collect_arg (f : pyfunction) (na : string * bound)
    : M symbolic unit :=
  let (name, arg) := na in
  if decide (func_varargs f = Some name) then
    modify (set_s_args (od_set name (SNodes []))) ;;
    match arg with
    | BTuple items => forM_ (collect_vararg name) (enumerate items)
    | _ => raise (TypeError "object is not iterable" [])
    end
  else if decide (func_keywords f = Some name) then
    match arg with
    | BBag items => forM_ (fun na => collect_named na.1 na.2) items
    | _ => raise (PyExc "AttributeError" "object has no attribute 'iteritems'" [])
    end
  else
    match arg with
    | BVal a => collect_named name a
    | _ => raise (KeyError arg_msg [FStr name])
    end.

(** [if not isinstance(results, tuple): results = [results]] *)
Definition result_items (results : pyresult) : list obj :=
  match results with
  | RTuple _ items => items
  | RSingle r => [r]
  end.

Definition collect_result (ir : nat * obj) : M symbolic unit :=
  let (i, r) := ir in
  s <- get ;;
  match od_get (oid r) (s_vars s) with
  | Some v => modify (set_s_results (od_set (oid r) v))
  | None => raise (KeyError result_msg [FNat (i + 1)])
  end.

(** [Symbolic.trace] *)
Definition trace (args : list obj) (kwargs : odict string obj)
    : M symbolic unit :=
  argspec <- gets pyfn ;;
  ak <- check_args argspec args kwargs ;;
  let (args, kwargs) := ak : list obj * odict string obj in
  (* clear symbolic dictionaries *)
  modify (set_s_vars (fun _ => [])) ;;
  modify (set_s_args (fun _ => [])) ;;
  modify (set_s_results (fun _ => [])) ;;
  (* trace the function *)
  f <- gets pyfn ;;
  c <- call_ext (EvTrace args kwargs) (ctx_call f args kwargs) ;;
  let (results, svars) := c : pyresult * list (nat * node) in
  (* collect symbolic variables in s_vars *)
  modify (set_s_vars (fun d => od_update d svars)) ;;
  (* collect symbolic arguments in s_args *)
  callargs <- liftE (orderedcallargs f args kwargs) ;;
  forM_ (collect_arg argspec) callargs ;;
  (* collect symbolic results in s_results *)
  forM_ collect_result (enumerate (result_items results)).
End trace.

(** ** The bound values of a call

    The vocabulary in which the bindings of [trace] are stated. *)

(** The parameters that a function declares: the positional ones, the
    variadic one and the keyword bag. *)
Definition declared_parameters (f : pyfunction) : list string :=
  func_args f ++ option_list (func_varargs f)
  ++ option_list (func_keywords f).

(** No two parameters of a function have the same name. *)
Definition wf_signature (f : pyfunction) : Prop :=
  NoDup (declared_parameters f).

(** Where [trace] looks a bound value up: under a name (a declared parameter
    or a key of the keyword bag), or at an index of the variadic tuple, as
    [enumerate] counts it. *)
Inductive slot :=
| Named (n : string)
| Item (name : string) (i : nat).

(** The values that one entry of [callargs] binds, in the order of the loop:
    the same three branches as [collect_arg]. *)
Definition entry_values (f : pyfunction) (na : string * bound)
    : list (slot * obj) :=
  let (name, arg) := na in
  if decide (func_varargs f = Some name) then
    match arg with
    | BTuple items => imap (fun i a => (Item name i, a)) items
    | _ => []
    end
  else if decide (func_keywords f = Some name) then
    match arg with
    | BBag items => (fun na : string * obj => (Named na.1, na.2)) <$> items
    | _ => []
    end
  else
    match arg with
    | BVal a => [(Named name, a)]
    | _ => []
    end.

Definition bound_values (f : pyfunction) (callargs : odict string bound)
    : list (slot * obj) :=
  concat (entry_values f <$> callargs).

(** The error of [trace] for a bound value that has no node. *)
Definition untraceable (sl : slot) : exn :=
  match sl with
  | Named n => KeyError "Unable to trace argument '{0}'." [FStr n]
  | Item name i =>
      KeyError "Unable to trace item {0} of variable argument '{1}'."
        [FNat i; FStr name]
  end.

(** ** [Function] *)

Section function.
Context `{Engine}.

(** [arg.name], as [format] shows it. *)
Definition getattr_name (v : node) : M symbolic string :=
  s <- get ;;
  ret (default "None" (names (sym_world s) !! v)).

(** [v.type(name=n)] *)
Definition fresh_input (v : node) (n : string) : M symbolic node :=
  v' <- call_eng (new_input v n) ;;
  setattr_name v' n ;;
  ret v'.

(** The loop [for name, arg in self.s_args.iteritems()] that collects the
    givens. *)
Definition collect_given (argspec : pyfunction) (givens : odict node node)
    (na : string * sarg) : M symbolic (odict node node) :=
  let (name, arg) := na in
  if decide (Some name <> func_varargs argspec) then
    match arg with
    | SVar v =>
        n <- getattr_name v ;;
        v' <- fresh_input v n ;;
        ret (od_set v v' givens)
    | SNodes _ =>
        raise (PyExc "AttributeError"
                 "'tuple' object has no attribute 'type'" [])
    end
  else
    match arg with
    | SNodes vs =>
        foldM (fun g iv =>
                 v' <- fresh_input iv.2 (item_name name iv.1) ;;
                 ret (od_set iv.2 v' g))
              givens (enumerate vs)
    | SVar _ => raise (TypeError "object is not iterable" [])
    end.

(** [l[start:stop]] for [start = -d] and [stop] either [-1] or [None]. *)
Definition default_slice {A} (l : list A) (d : nat) (stop_before_last : bool)
    : list A :=
  let start := length l - d in
  let stop := if stop_before_last then length l - 1 else length l in
  take (stop - start) (drop start l).

(** The dictionary [defaults] of [_compile_function]. *)
Definition collect_defaults (argspec : pyfunction) : odict string obj :=
  match func_defaults argspec with
  | [] => []
  | ds =>
      od_of_list
        (zip (default_slice (func_args argspec) (length ds)
                (bool_decide (is_Some (func_varargs argspec))))
             ds)
  end.

Definition lookup_given (givens : odict node node) (v : node)
    : M symbolic node :=
  match od_get v givens with
  | Some v' => ret v'
  | None => raise (KeyError "{0}" [FNat v])
  end.

(** The list [inputs]: one [Param] per entry of [s_args] other than the
    variadic one, then the givens of the variadic nodes. *)
Definition collect_inputs (argspec : pyfunction) (givens : odict node node)
    (defaults : odict string obj) (sargs : odict string sarg)
    : M symbolic (list tinput) :=
  params <- mapM (fun na : string * sarg =>
                    match na.2 with
                    | SVar v =>
                        v' <- lookup_given givens v ;;
                        ret (Param v' (od_get na.1 defaults) na.1)
                    | SNodes _ =>
                        raise (KeyError "{0}" [FStr na.1])
                    end)
                 (filter (fun na => Some na.1 <> func_varargs argspec)
                         sargs) ;;
  rest <- match func_varargs argspec with
          | None => ret []
          | Some va =>
              match od_get va sargs with
              | None => ret []
              | Some (SNodes vs) =>
                  mapM (fun a => v' <- lookup_given givens a ;;
                                 ret (In_ v'))
                       vs
              | Some (SVar _) =>
                  raise (TypeError "object is not iterable" [])
              end
          end ;;
  ret (params ++ rest).

(** [outputs = self.s_results.values()], unwrapped when it has one
    element. *)
Definition collect_outputs (sresults : odict nat node) : toutputs :=
  match od_values sresults with
  | [v] => OSingle v
  | vs => OMany vs
  end.

(** [len(callargs.get(argspec.varargs, ()))] *)
Definition varargs_count (argspec : pyfunction)
    (callargs : odict string bound) : M symbolic nat :=
  match func_varargs argspec with
  | None => ret 0
  | Some va =>
      match od_get va callargs with
      | None => ret 0
      | Some (BTuple items) => ret (length items)
      | Some (BBag items) => ret (length items)
      | Some (BVal _) => raise (TypeError "object has no len()" [])
      end
  end.

(** [Function._compile_function] *)
Definition _compile_function (args : list obj) (kwargs : odict string obj)
    : M symbolic artifact :=
  argspec <- gets pyfn ;;
  callargs <- liftE (orderedcallargs argspec args kwargs) ;;
  (* trace the function *)
  trace args kwargs ;;
  (* collect givens *)
  sargs <- gets s_args ;;
  givens <- foldM (collect_given argspec) [] sargs ;;
  (* collect inputs *)
  let defaults := collect_defaults argspec in
  sargs <- gets s_args ;;
  inputs <- collect_inputs argspec givens defaults sargs ;;
  (* collect outputs *)
  outputs <- gets (fun s => collect_outputs (s_results s)) ;;
  (* compile function *)
  fn <- call_ext (EvCompile inputs outputs)
                 (theano_function inputs outputs givens) ;;
  (* store in cache corresponding to the number of positional inputs *)
  key <- varargs_count argspec callargs ;;
  modify (set_cache (fun c => <[key := fn]> c)) ;;
  ret fn.

(** [Function.call].  The default handed to [dict.get] is an argument of the
    call: Python evaluates [self._compile_function(args, kwargs)] before
    [get] runs. *)
Definition call (args : list obj) (kwargs : odict string obj)
    : M symbolic fnresult :=
  argspec <- gets pyfn ;;
  callargs <- liftE (orderedcallargs argspec args kwargs) ;;
  (* try to retrieve function from cache; otherwise compile *)
  key <- varargs_count argspec callargs ;;
  compiled <- _compile_function args kwargs ;;
  c <- gets cache ;;
  let fn := default compiled (c !! key) in
  pos_args <- mapM (fun arg : string =>
                      match od_get arg callargs with
                      | Some (BVal a) => ret a
                      | Some _ => raise (TypeError "not a value" [])
                      | None => raise (KeyError "{0}" [FStr arg])
                      end)
                   (func_args argspec) ;;
  let extra := match func_varargs argspec with
               | Some va => match od_get va callargs with
                            | Some (BTuple items) => items
                            | _ => []
                            end
               | None => []
               end in
  let kw_args := match func_keywords argspec with
                 | Some kw => match od_get kw callargs with
                              | Some (BBag items) => items
                              | _ => []
                              end
                 | None => []
                 end in
  call_ext (EvInvoke (pos_args ++ extra) kw_args)
           (fn_call fn (pos_args ++ extra) kw_args).
End function.

(** ** [Gradient] *)

Section gradient.
Context `{Engine}.

Record gradient := Gradient {
  grad_world : world;
  _fn : pyfunction;
  _grad_fn : option artifact;
  _sym_grad : option toutputs
}.

#[export] Instance gradient_store : Store gradient := {
  world_of := grad_world;
  with_world w g := Gradient w (_fn g) (_grad_fn g) (_sym_grad g)
}.

Definition set_grad_fn (fn : option artifact) (g : gradient) : gradient :=
  Gradient (grad_world g) (_fn g) fn (_sym_grad g).
Definition set_sym_grad (o : option toutputs) (g : gradient) : gradient :=
  Gradient (grad_world g) (_fn g) (_grad_fn g) o.

(** [Gradient.__init__] *)
Definition Gradient_init (fn : pyfunction) (w : world) : gradient :=
  Gradient w fn None None.

(** [id(result)] *)
Definition result_id (r : pyresult) : nat :=
  match r with
  | RSingle o => oid o
  | RTuple tid _ => tid
  end.

(** [ctxt.svars[i]] *)
Definition svars_lookup (svars : list (nat * node)) (i : nat)
    : M gradient node :=
  match od_get i (od_of_list svars) with
  | Some v => ret v
  | None => raise (KeyError "{0}" [FNat i])
  end.

(** [grad = tt.grad(...)], unwrapped when it has one element. *)
Definition unwrap_grad (grad : list node) : toutputs :=
  match grad with
  | [g] => OSingle g
  | gs => OMany gs
  end.

(** The body of [if self.grad_fn is None]. *)
Definition build_grad_fn (args : list obj) (kwargs : odict string obj)
    : M gradient unit :=
  fn <- gets _fn ;;
  c <- call_ext (EvTrace args kwargs) (ctx_call fn args kwargs) ;;
  let (result, svars) := c : pyresult * list (nat * node) in
  looked <- on_KeyError
    (s_args <- mapM (fun a => svars_lookup svars (oid a)) args ;;
     s_kwargs <- mapM (fun v => svars_lookup svars (oid v))
                      (od_values kwargs) ;;
     s_result <- svars_lookup svars (result_id result) ;;
     ret (s_args, s_kwargs, s_result))
    (print "ERROR: PyAD was unable to trace the requested variable.") ;;
  let '(s_args, s_kwargs, s_result) := looked in
  grad <- call_ext (EvGrad s_result (s_args ++ s_kwargs))
                   (tt_grad s_result (s_args ++ s_kwargs)) ;;
  let grad := unwrap_grad grad in
  gfn <- call_ext (EvCompile [InList (s_args ++ s_kwargs)] grad)
                  (theano_function [InList (s_args ++ s_kwargs)] grad []) ;;
  modify (set_grad_fn (Some gfn)) ;;
  modify (set_sym_grad (Some grad)).

(** [if self.grad_fn is None: ...] *)
Definition ensure_grad_fn (args : list obj) (kwargs : odict string obj)
    : M gradient unit :=
  g <- get ;;
  match _grad_fn g with
  | None => build_grad_fn args kwargs
  | Some _ => ret tt
  end.

(** [Gradient.__call__] *)
Definition Gradient_call (args : list obj) (kwargs : odict string obj)
    : M gradient fnresult :=
  ensure_grad_fn args kwargs ;;
  let all_args := args ++ od_values kwargs in
  except_reraise
    (g <- get ;;
     match _grad_fn g with
     | Some gfn => call_ext (EvInvoke all_args []) (fn_call gfn all_args [])
     | None => raise (TypeError "'NoneType' object is not callable" [])
     end)
    (set_grad_fn None).
End gradient.

(** ** A scripted engine

    An instance of the collaborators for running the wrappers on concrete
    calls: the traced function is given by what an instrumented run of it
    returns, the symbolic engine numbers the variables it makes from its
    state, an artifact is the triple it was compiled from, and calling an
    artifact is given by a function. *)
Definition scripted_artifact : Type :=
  list tinput * toutputs * odict node node.

Definition scripted
    (run : pyfunction -> list obj -> odict string obj ->
           exn + (pyresult * list (nat * node)))
    (invoke : scripted_artifact -> list obj -> odict string obj ->
              exn + fnresult) : Engine := {|
  estate := nat;
  artifact := scripted_artifact;
  ctx_call f args kwargs e := (run f args kwargs, e);
  new_input _ _ e := (e, S e);
  theano_function inputs outputs givens e := (inr (inputs, outputs, givens), e);
  tt_grad cost wrt e := (inr (seq e (length wrt)), e + length wrt);
  fn_call fn args kwargs e := (invoke fn args kwargs, e)
|}.

(** ** What a compiled artifact computes

    The symbolic engine is not part of [symbolic.py].  What [Function.call]
    relies on is its calling convention and the meaning of the graph nodes;
    they are stated here, for the theorems that compare a compiled function
    with the function it was traced from. *)

(** [v == w] for the values of the model: a boxed integer equals the plain
    integer of the same value. *)
Definition unbox (v : pyval) : pyval :=
  match v with
  | VNpInt z => VInt z
  | _ => v
  end.
Definition val_eq (v w : pyval) : Prop := unbox v = unbox w.

(** The variable and the name of a declared input; a bare variable goes by
    the name [var_name] gives it. *)
Definition input_node (i : tinput) : option node :=
  match i with
  | Param v _ _ | In_ v => Some v
  | InList _ => None
  end.
Definition input_name (var_name : node -> option string) (i : tinput)
    : option string :=
  match i with
  | Param _ _ n => Some n
  | In_ v => var_name v
  | InList _ => None
  end.
Definition input_default (i : tinput) : option obj :=
  match i with
  | Param _ d _ => d
  | _ => None
  end.

(** The value of one declared input in a call: the positional value of its
    position, or the keyword of its name, or its default; two values, or
    none, is an error. *)
Definition bind_input (var_name : node -> option string) (pos : list obj)
    (kw : odict string obj) (ii : nat * tinput) : exn + (node * obj) :=
  let (i, inp) := ii in
  match input_node inp with
  | None => inl (TypeError "Unknown input" [])
  | Some x =>
      match pos !! i, (n ← input_name var_name inp; od_get n kw) with
      | Some v, None => inr (x, v)
      | None, Some v => inr (x, v)
      | Some _, Some _ => inl (TypeError "Multiple values for input" [])
      | None, None =>
          match input_default inp with
          | Some d => inr (x, d)
          | None => inl (TypeError "Missing required input" [])
          end
      end
  end.

(** Modelled from the spec: the calling convention of a compiled artifact,
    [artifact(positional..., keyword...)], which belongs to the symbolic
    engine.  Positional values go to the declared inputs in order, keyword
    values to the inputs of that name; a value too many, a keyword that
    names no input, an input with two values or with none raises. *)
Definition bind_inputs (var_name : node -> option string)
    (inputs : list tinput) (pos : list obj) (kw : odict string obj)
    : exn + odict node obj :=
  if decide (length inputs < length pos + length kw) then
    inl (TypeError "Too many parameter passed to theano function" [])
  else if decide (Forall (fun k => Some k ∈ input_name var_name <$> inputs)
                         (od_keys kw)) then
    mapE (bind_input var_name pos kw) (enumerate inputs)
  else inl (TypeError "Unknown input" []).

Fixpoint eval_all (ev : node -> option pyval) (vs : list node)
    : option (list pyval) :=
  match vs with
  | [] => Some []
  | v :: vs' =>
      match ev v, eval_all ev vs' with
      | Some r, Some rs => Some (r :: rs)
      | _, _ => None
      end
  end.

(** Modelled from the spec: what a call of an artifact compiled from
    [inputs], [outputs] and [givens] returns.  [node_eval rho v] is the value
    of the node [v] when the nodes it is computed from have the values [rho];
    a node that [givens] replaces by an input has the value bound to that
    input.  One output gives one value, a list of outputs a list. *)
Definition artifact_result
    (node_eval : (node -> option pyval) -> node -> option pyval)
    (var_name : node -> option string) (inputs : list tinput)
    (outputs : toutputs) (givens : odict node node) (pos : list obj)
    (kw : odict string obj) : exn + fnresult :=
  match bind_inputs var_name inputs pos kw with
  | inl e => inl e
  | inr env =>
      let rho := fun v => x ← od_get v givens; oval <$> od_get x env in
      match outputs with
      | OSingle v =>
          match node_eval rho v with
          | Some r => inr (FSingle r)
          | None => inl (PyExc "MissingInputError" "" [])
          end
      | OMany vs =>
          match eval_all (node_eval rho) vs with
          | Some rs => inr (FList rs)
          | None => inl (PyExc "MissingInputError" "" [])
          end
      end
  end.

(** The identities among the returned values, each once, in the order of
    their first occurrence: the keys of [s_results]. *)
Definition distinct_ids (results : list obj) : list nat :=
  od_keys (od_of_list ((fun r => (oid r, r)) <$> results)).

(** The node that the identity map has for an object (0 when it has
    none). *)
Definition traced_node (vars : odict nat node) (a : obj) : node :=
  default 0 (od_get (oid a) vars).

(** The entries that the loop of [trace] over [callargs] stores in [s_args]
    for one entry of [callargs], when every value is in the identity map:
    the tuple of the nodes for the variadic tuple, a node under each keyword
    of the bag, a node under the name of a declared parameter. *)
Definition entry_sargs (vars : odict nat node) (na : string * bound)
    : list (string * sarg) :=
  match na.2 with
  | BVal a => [(na.1, SVar (traced_node vars a))]
  | BTuple items => [(na.1, SNodes (traced_node vars <$> items))]
  | BBag items =>
      (fun kv : string * obj => (kv.1, SVar (traced_node vars kv.2)))
        <$> items
  end.

Definition sarg_nodes (a : sarg) : list node :=
  match a with
  | SVar v => [v]
  | SNodes vs => vs
  end.

(** Single value against tuple: the shape of what the function returned and
    the shape of what the artifact returned. *)
Definition same_shape (results : pyresult) (out : fnresult) : Prop :=
  match results, out with
  | RSingle _, FSingle _ => True
  | RTuple _ _, FList _ => True
  | _, _ => False
  end.

(** [out] holds the values that the function returned, one for each
    distinct object among them, in the order of their first occurrence; it
    is a single value when there is one such object. *)
Definition returns_values (results : list obj) (out : fnresult) : Prop :=
  match out with
  | FSingle v =>
      length (distinct_ids results) = 1 /\
      Forall (fun r => val_eq v (oval r)) results
  | FList vs =>
      length (distinct_ids results) <> 1 /\
      Forall2 (fun i v => Forall (fun r => oid r = i -> val_eq v (oval r))
                                 results)
              (distinct_ids results) vs
  end.

(** The name that [trace] gives to the node of a bound value: the name of
    the parameter or the keyword, ['{0}_{1}'.format(name, i)] for an item of
    the variadic tuple. *)
Definition slot_name (sl : slot) : string :=
  match sl with
  | Named n => n
  | Item name i => item_name name i
  end.

(** The [name] attributes after the nodes of the bound values [slots] were
    named one after the other. *)
Definition named_nodes (vars : odict nat node) (nm : gmap node string)
    (slots : list (slot * obj)) : gmap node string :=
  foldl (fun m sa => <[traced_node vars sa.2 := slot_name sa.1]> m) nm slots.

(** ** Concrete functions and calls

    Instrumented runs of a few functions, given by what the run returns and
    which identities it shadows, and the stores the wrappers start from. *)

(** The node that shadows an object in these runs. *)
Definition shadow (a : obj) : nat * node := (oid a, 100 + oid a).

(** A function that returns its positional arguments; every argument is
    shadowed. *)
Definition run_echo (f : pyfunction) (args : list obj)
    (kwargs : odict string obj) : exn + (pyresult * list (nat * node)) :=
  inr (RTuple 999 args, shadow <$> (args ++ od_values kwargs)).

(** A function that returns its first argument twice, [return x, x]. *)
Definition run_twice (f : pyfunction) (args : list obj)
    (kwargs : odict string obj) : exn + (pyresult * list (nat * node)) :=
  match args with
  | x :: _ => inr (RTuple 999 [x; x], shadow <$> (args ++ od_values kwargs))
  | [] => inl (TypeError "missing argument" [])
  end.

(** A function whose arguments escape the instrumented run: it returns its
    positional arguments and nothing is shadowed. *)
Definition run_blind (f : pyfunction) (args : list obj)
    (kwargs : odict string obj) : exn + (pyresult * list (nat * node)) :=
  inr (RTuple 999 args, []).

(** A function that returns its first argument, [return x]. *)
Definition run_first (f : pyfunction) (args : list obj)
    (kwargs : odict string obj) : exn + (pyresult * list (nat * node)) :=
  match args with
  | x :: _ => inr (RSingle x, shadow <$> (args ++ od_values kwargs))
  | [] => inl (TypeError "missing argument" [])
  end.

(** An artifact that returns the values it is called on, and one that
    raises. *)
Definition invoke_values (fn : scripted_artifact) (args : list obj)
    (kwargs : odict string obj) : exn + fnresult :=
  inr (FList (oval <$> args)).

Definition invoke_fail (fn : scripted_artifact) (args : list obj)
    (kwargs : odict string obj) : exn + fnresult :=
  inl (PyExc "ValueError" "bad input" []).

Definition echo_engine : Engine := scripted run_echo invoke_values.
Definition twice_engine : Engine := scripted run_twice invoke_values.
Definition blind_engine : Engine := scripted run_blind invoke_values.
Definition first_engine : Engine := scripted run_first invoke_values.
Definition failing_engine : Engine := scripted run_first invoke_fail.

(** The world before the first call: identities below 10 are taken, the
    symbolic engine numbers its variables from 1000, nothing was called. *)
Definition world0 (E : Engine) (e : @estate E) : @world E :=
  World 10 ∅ e [].

(** Signatures: [x], [y], a variadic [rest] and a keyword bag [kw]; [x] and
    a keyword bag [kw]; a variadic [args] alone; [x] alone. *)
Definition sig_xy_rest_kw : pyfunction :=
  PyFn ["x"; "y"] (Some "rest") (Some "kw") [].
Definition sig_x_kw : pyfunction := PyFn ["x"] None (Some "kw") [].
Definition sig_args : pyfunction := PyFn [] (Some "args") None [].
Definition sig_x : pyfunction := PyFn ["x"] None None [].

(** The store of [Symbolic(f)] for [def f(x): return x], new and after a
    first trace on a float. *)
Definition sym_first : @symbolic first_engine :=
  Symbolic_init sig_x (world0 first_engine 1000).
Definition sym_first_traced : @symbolic first_engine :=
  (trace [Obj 1 (VFloat 3)] [] sym_first).2.

(** The list [[1, 2, 3]], an object at identity 2. *)
Definition list_123 : obj := Obj 2 (VList [VInt 1; VInt 2; VInt 3]).

(** The store of [Symbolic(f)] for a function of [x], [y], a variadic [rest]
    and a keyword bag [kw] that returns its positional arguments. *)
Definition sym_echo : @symbolic echo_engine :=
  Symbolic_init sig_xy_rest_kw (world0 echo_engine 1000).

(** The interned integer [1]: every occurrence is the one object. *)
Definition int_1 : obj := Obj 1 (VInt 1).

(** Three floats, at the identities 1, 2 and 3. *)
Definition float_a : obj := Obj 1 (VFloat 3).
Definition float_b : obj := Obj 2 (VFloat 4).
Definition float_c : obj := Obj 3 (VFloat 5).

(** The store of [Symbolic(f)] for a function of [x] and a keyword bag that
    returns [x] twice, and for a function of a variadic parameter whose
    arguments escape the run. *)
Definition sym_twice : @symbolic twice_engine :=
  Symbolic_init sig_x_kw (world0 twice_engine 1000).
Definition sym_blind : @symbolic blind_engine :=
  Symbolic_init sig_args (world0 blind_engine 1000).

(** [Gradient(f)] for a function that returns its first argument, with an
    artifact that returns and with one that raises. *)
Definition grad_first : @gradient first_engine :=
  Gradient_init sig_x (world0 first_engine 1000).
Definition grad_failing : @gradient failing_engine :=
  Gradient_init sig_x (world0 failing_engine 1000).

(** A symbolic engine whose compilation raises, and [Gradient(f)] on it,
    for the calls in which nothing can be invoked. *)
Definition uncompilable_engine : Engine := {|
  estate := nat;
  artifact := scripted_artifact;
  ctx_call f args kwargs e := (run_first f args kwargs, e);
  new_input _ _ e := (e, S e);
  theano_function inputs outputs givens e :=
    (inl (TypeError "Unknown input type" []), e);
  tt_grad cost wrt e := (inr (seq e (length wrt)), e + length wrt);
  fn_call fn args kwargs e := (invoke_values fn args kwargs, e)
|}.
Definition grad_uncompilable : @gradient uncompilable_engine :=
  Gradient_init sig_x (world0 uncompilable_engine 1000).

(** [Function(f)] for a function that returns its first argument, after a
    first call on a float. *)
Definition fun_called_once : @symbolic first_engine :=
  (call [float_a] [] sym_first).2.

(** An artifact that computes its outputs from the values bound to its
    inputs, in a graph where every node is read off an input: the graph of
    a function that returns some of its arguments. *)
Definition invoke_graph (fn : scripted_artifact) (args : list obj)
    (kwargs : odict string obj) : exn + fnresult :=
  let '(inputs, outputs, givens) := fn in
  artifact_result (fun rho v => rho v) (fun _ => None)
    inputs outputs givens args kwargs.

Definition twice_graph_engine : Engine := scripted run_twice invoke_graph.
Definition echo_graph_engine : Engine := scripted run_echo invoke_graph.

(** [Function(f)] for a function of [x] that returns [x, x], and for a
    function of [x], [y], a variadic [rest] and a keyword bag [kw] that
    returns its positional arguments. *)
Definition fun_twice : @symbolic twice_graph_engine :=
  Symbolic_init sig_x (world0 twice_graph_engine 1000).
Definition fun_echo : @symbolic echo_graph_engine :=
  Symbolic_init sig_xy_rest_kw (world0 echo_graph_engine 1000).

(** The integer 7, an object at identity 2. *)
Definition int_7 : obj := Obj 2 (VInt 7).

(** A function of [x], [y], [z] and a variadic [rest], with the defaults
    [y=7] and [z=5.0]. *)
Definition sig_defaults : pyfunction :=
  PyFn ["x"; "y"; "z"] (Some "rest") None [int_7; float_c].

(** * Properties *)

(** ** Ordered dictionaries *)

Section odict_facts.
Context {K V : Type} `{EqDecision K}.
Implicit Types (d : odict K V) (k : K) (v : V).

Lemma od_get_set_eq d k v : od_get k (od_set k v d) = Some v.
Proof.
  induction d as [|[k' v'] d IH]; simpl.
  - by rewrite decide_True.
  - destruct (decide (k = k')) as [->|Hne]; simpl.
    + by rewrite decide_True.
    + by rewrite decide_False.
Qed.

Lemma od_get_set_ne d k k' v : k <> k' -> od_get k' (od_set k v d) = od_get k' d.
Proof.
  intros Hne. induction d as [|[k1 v1] d IH]; simpl.
  - by rewrite decide_False.
  - destruct (decide (k = k1)) as [->|Hne1]; simpl.
    + by rewrite !decide_False.
    + by rewrite IH.
Qed.

Lemma od_get_Some_keys d k v : od_get k d = Some v -> k ∈ od_keys d.
Proof.
  induction d as [|[k1 v1] d IH]; simpl; [done|].
  destruct (decide (k = k1)) as [->|Hne]; intros Hg.
  - apply list_elem_of_here.
  - apply list_elem_of_further. by apply IH.
Qed.

Lemma od_get_None_keys d k : od_get k d = None <-> k ∉ od_keys d.
Proof.
  induction d as [|[k1 v1] d IH]; simpl.
  - split; [intros _; apply not_elem_of_nil | done].
  - rewrite not_elem_of_cons. destruct (decide (k = k1)) as [->|Hne].
    + split; [done | intros [? _]; done].
    + rewrite IH. tauto.
Qed.

Lemma od_keys_set d k v :
  od_keys (od_set k v d)
  = if decide (k ∈ od_keys d) then od_keys d else od_keys d ++ [k].
Proof.
  induction d as [|[k1 v1] d IH].
  - destruct (decide (k ∈ od_keys [])) as [Hin|_]; [|done].
    by apply elem_of_nil in Hin.
  - cbn [od_set od_keys map fst]. fold (od_keys d).
    destruct (decide (k = k1)) as [->|Hne].
    + rewrite decide_True; [done | apply list_elem_of_here].
    + cbn [map fst]. fold (od_keys (od_set k v d)). rewrite IH.
      destruct (decide (k ∈ od_keys d)) as [Hin|Hnin].
      * rewrite decide_True; [done | by apply list_elem_of_further].
      * rewrite decide_False; [done |].
        rewrite not_elem_of_cons. done.
Qed.

Lemma od_keys_set_elem d k v k' :
  k' ∈ od_keys (od_set k v d) <-> k' = k \/ k' ∈ od_keys d.
Proof.
  rewrite od_keys_set. case_decide as Hin.
  - split; [tauto | intros [->|?]; done].
  - rewrite elem_of_app, list_elem_of_singleton. tauto.
Qed.

Lemma od_keys_set_NoDup d k v :
  NoDup (od_keys d) -> NoDup (od_keys (od_set k v d)).
Proof.
  intros Hnd. rewrite od_keys_set. case_decide as Hin; [done|].
  apply NoDup_app. split_and!; [done | | apply NoDup_singleton].
  intros x Hx ->%list_elem_of_singleton. done.
Qed.

Lemma od_update_cons d kv kvs :
  od_update d (kv :: kvs) = od_update (od_set kv.1 kv.2 d) kvs.
Proof. done. Qed.

Lemma od_update_snoc d kvs kv :
  od_update d (kvs ++ [kv]) = od_set kv.1 kv.2 (od_update d kvs).
Proof. unfold od_update. by rewrite fold_left_app. Qed.

Lemma od_keys_update_NoDup (kvs : list (K * V)) d :
  NoDup (od_keys d) -> NoDup (od_keys (od_update d kvs)).
Proof.
  revert d. induction kvs as [|kv kvs IH]; intros d Hnd; [done|].
  rewrite od_update_cons. apply IH. by apply od_keys_set_NoDup.
Qed.

Lemma od_keys_update_elem (kvs : list (K * V)) d k :
  k ∈ od_keys (od_update d kvs) <-> k ∈ od_keys d \/ k ∈ kvs.*1.
Proof.
  revert d. induction kvs as [|kv kvs IH]; intros d.
  - simpl. rewrite elem_of_nil. tauto.
  - rewrite od_update_cons, IH, od_keys_set_elem, fmap_cons, elem_of_cons.
    tauto.
Qed.

Lemma od_keys_of_list_NoDup (kvs : list (K * V)) :
  NoDup (od_keys (od_of_list kvs)).
Proof. apply od_keys_update_NoDup. apply NoDup_nil_2. Qed.

Lemma od_keys_of_list_elem (kvs : list (K * V)) k :
  k ∈ od_keys (od_of_list kvs) <-> k ∈ kvs.*1.
Proof.
  unfold od_of_list. rewrite od_keys_update_elem. simpl.
  rewrite elem_of_nil. tauto.
Qed.

(** A list of pairs with distinct keys is its own dictionary. *)
Lemma od_update_fresh (kvs : list (K * V)) d :
  NoDup (od_keys d ++ kvs.*1) -> od_update d kvs = d ++ kvs.
Proof.
  revert d. induction kvs as [|[k v] kvs IH]; intros d Hnd.
  - by rewrite app_nil_r.
  - rewrite od_update_cons. simpl in *.
    assert (Hk : k ∉ od_keys d).
    { apply NoDup_app in Hnd as (_ & Hd & _). intros Hin.
      apply (Hd _ Hin). apply list_elem_of_here. }
    assert (Hset : od_set k v d = d ++ [(k, v)]).
    { clear -Hk. induction d as [|[k1 v1] d IH]; simpl; [done|].
      simpl in Hk. rewrite not_elem_of_cons in Hk. destruct Hk as [? ?].
      rewrite decide_False by done. by rewrite IH. }
    rewrite Hset, IH.
    + by rewrite <- app_assoc.
    + unfold od_keys. rewrite map_app. simpl. by rewrite <- app_assoc.
Qed.

Lemma od_of_list_NoDup (kvs : list (K * V)) :
  NoDup kvs.*1 -> od_of_list kvs = kvs.
Proof. intros Hnd. unfold od_of_list. by rewrite od_update_fresh. Qed.
End odict_facts.

(** ** The monad *)

Section monad_facts.
Context {S A B : Type}.

Lemma bind_inr (m : M S A) (k : A -> M S B) s a s' :
  m s = (inr a, s') -> bind m k s = k a s'.
Proof. unfold bind. by intros ->. Qed.

Lemma bind_inl (m : M S A) (k : A -> M S B) s e s' :
  m s = (inl e, s') -> bind m k s = (inl e, s').
Proof. unfold bind. by intros ->. Qed.

Lemma bind_ext (m : M S A) (k k' : A -> M S B) s :
  (forall a s1, k a s1 = k' a s1) -> bind m k s = bind m k' s.
Proof. intros Hk. unfold bind. destruct (m s) as [[e|a] s1]; [done|]. apply Hk. Qed.

Lemma bind_ret_r (m : M S A) s : bind m ret s = m s.
Proof. unfold bind, ret. by destruct (m s) as [[e|a] s1]. Qed.

Lemma bind_inv_inr (m : M S A) (k : A -> M S B) s b s' :
  bind m k s = (inr b, s') ->
  exists a s1, m s = (inr a, s1) /\ k a s1 = (inr b, s').
Proof.
  unfold bind. destruct (m s) as [[e|a] s1]; [done|]. eauto.
Qed.

Lemma mapM_ext (f g : A -> M S B) l s :
  (forall x s1, f x s1 = g x s1) -> mapM f l s = mapM g l s.
Proof.
  intros Hfg. revert s. induction l as [|x l IH]; intros s; [done|].
  cbn [mapM]. unfold bind. rewrite Hfg.
  destruct (g x s) as [[e|y] s1]; [done|]. by rewrite IH.
Qed.

Lemma mapM_length (f : A -> M S B) l s ys s' :
  mapM f l s = (inr ys, s') -> length ys = length l.
Proof.
  revert s ys. induction l as [|x l IH]; intros s ys.
  - unfold mapM, ret. by intros [= <- <-].
  - cbn [mapM]. unfold bind at 1. destruct (f x s) as [[e|y] s1]; [done|].
    unfold bind at 1. destruct (mapM f l s1) as [[e|ys1] s2] eqn:Hm; [done|].
    unfold ret. intros [= <- <-]. simpl. f_equal. by eapply IH.
Qed.

Lemma mapM_app (f : A -> M S B) l1 l2 s :
  mapM f (l1 ++ l2) s =
  match mapM f l1 s with
  | (inl e, s1) => (inl e, s1)
  | (inr y1, s1) =>
      match mapM f l2 s1 with
      | (inl e, s2) => (inl e, s2)
      | (inr y2, s2) => (inr (y1 ++ y2), s2)
      end
  end.
Proof.
  revert s. induction l1 as [|x l1 IH]; intros s.
  - cbn [app mapM ret]. by destruct (mapM f l2 s) as [[e|y2] s2].
  - cbn [app mapM]. unfold bind, ret.
    destruct (f x s) as [[e|y] s1]; [done|].
    rewrite IH. destruct (mapM f l1 s1) as [[e|y1] s2]; [done|].
    by destruct (mapM f l2 s2) as [[e|y2] s3].
Qed.
End monad_facts.

Lemma mapM_fmap {S A A' B} (h : A' -> A) (f : A -> M S B) l s :
  mapM f (h <$> l) s = mapM (fun x => f (h x)) l s.
Proof.
  revert s. induction l as [|x l IH]; intros s; [done|].
  rewrite fmap_cons. cbn [mapM]. unfold bind.
  destruct (f (h x) s) as [[e|y] s1]; [done|]. by rewrite IH.
Qed.

(** A loop that pairs each result with something of its element. *)
Lemma mapM_post {S A B C} (m : A -> M S B) (r : A -> B -> C) l s :
  mapM (fun x => v <- m x ;; ret (r x v)) l s =
  match mapM m l s with
  | (inl e, s1) => (inl e, s1)
  | (inr vs, s1) => (inr (zip_with r l vs), s1)
  end.
Proof.
  revert s. induction l as [|x l IH]; intros s; [done|].
  cbn [mapM]. unfold bind, ret. destruct (m x s) as [[e|y] s1]; [done|].
  specialize (IH s1). revert IH. unfold bind, ret. intros ->.
  by destruct (mapM m l s1) as [[e|ys] s2].
Qed.

(** ** Argument pre-processing *)

Section check_facts.
Context `{Engine}.

(** The store after [n] boxed integers were allocated. *)
Local Abbreviation bump n s :=
  (with_world (World (next_id (sym_world s) + n) (names (sym_world s))
                 (eng (sym_world s)) (calls (sym_world s))) s).

Local Abbreviation is_small a := (is_Some (small_int (oval a))).
Local Abbreviation smalls l := (length (filter (fun a => is_small a) l)).

Lemma bump_0 (s : symbolic) : bump 0 s = s.
Proof.
  destruct s as [[n nm e c] f v a r ca]; simpl. by rewrite Nat.add_0_r.
Qed.

Lemma bump_bump (s : symbolic) n m : bump m (bump n s) = bump (n + m) s.
Proof. simpl. by rewrite Nat.add_assoc. Qed.

Lemma small_int_not_container v z :
  small_int v = Some z -> is_container v = false.
Proof. by destruct v. Qed.

Lemma small_int_range v z :
  small_int v = Some z <-> v = VInt z /\ (-5 <= z <= 256)%Z.
Proof.
  destruct v; simpl; try (split; [done | intros [? _]; done]).
  case_bool_decide as Hr.
  - split; [intros [= ->]; done | intros [[= ->] _]; done].
  - split; [done | intros [[= ->] ?]; done].
Qed.

Lemma check_cases name i (s : symbolic) :
  check name i s =
  match small_int (oval i) with
  | Some z => (inr (Obj (next_id (sym_world s)) (VNpInt z)), bump 1 s)
  | None =>
      if is_container (oval i)
      then (inl (TypeError container_msg [FObj i; fname name]), s)
      else (inr i, s)
  end.
Proof.
  unfold check. destruct (small_int (oval i)) as [z|].
  - unfold np_int_, liftW, alloc_np_int. simpl. by rewrite Nat.add_1_r.
  - by destruct (is_container (oval i)).
Qed.

(** A loop of [check] over a sequence, whatever is made of the names and of
    the checked values: either every element passes, the integers are
    boxed at consecutive new identities and the rest is kept; or the loop
    stops at the first container with the error that names it. *)
Lemma mapM_check {X Y} (nm : X -> option string) (ob : X -> obj)
    (rb : X -> obj -> Y) (g : X -> M symbolic Y) :
  (forall x s, g x s = (v <- check (nm x) (ob x) ;; ret (rb x v)) s) ->
  forall l s,
    match mapM g l s with
    | (inr ys, s') =>
        s' = bump (smalls (ob <$> l)) s /\
        Forall (fun x => is_container (oval (ob x)) = false) l /\
        ys = imap (fun i x =>
                     rb x (checked (next_id (sym_world s))
                                   (smalls (take i (ob <$> l))) (ob x))) l
    | (inl e, s') =>
        exists pre x post,
          l = pre ++ x :: post /\
          Forall (fun x => is_container (oval (ob x)) = false) pre /\
          is_container (oval (ob x)) = true /\
          e = TypeError container_msg [FObj (ob x); fname (nm x)] /\
          s' = bump (smalls (ob <$> pre)) s
    end.
Proof.
  intros Hg l. induction l as [|x l IH]; intros s.
  - cbn [mapM ret]. split_and!; [symmetry; apply bump_0 | done | done].
  - cbn [mapM]. unfold bind at 1. rewrite Hg. unfold bind at 1.
    rewrite check_cases.
    destruct (small_int (oval (ob x))) as [z|] eqn:Hsm.
    + cbn [ret]. unfold bind at 1. specialize (IH (bump 1 s)).
      destruct (mapM g l (bump 1 s)) as [[e|ys] s'].
      * destruct IH as (pre & y & post & -> & Hpre & Hy & -> & ->).
        exists (x :: pre), y, post. split_and!; try done.
        -- constructor; [by eapply small_int_not_container | done].
        -- rewrite fmap_cons, filter_cons_True by (by rewrite Hsm).
           simpl. do 2 f_equal. by rewrite <- Nat.add_assoc.
      * destruct IH as (-> & Hall & ->). cbn [ret]. split_and!.
        -- rewrite fmap_cons, filter_cons_True by (by rewrite Hsm).
           simpl. do 2 f_equal. by rewrite <- Nat.add_assoc.
        -- constructor; [by eapply small_int_not_container | done].
        -- rewrite imap_cons. f_equal.
           ++ unfold checked. rewrite Hsm. simpl. by rewrite Nat.add_0_r.
           ++ apply imap_ext. intros i y Hy. simpl. f_equal.
              rewrite filter_cons_True by (by rewrite Hsm).
              unfold checked. destruct (small_int (oval (ob y))); [|done].
              cbn [length]. f_equal.
              by rewrite <- Nat.add_assoc, Nat.add_1_l.
    + destruct (is_container (oval (ob x))) eqn:Hc.
      * exists [], x, l. split_and!; try done. by rewrite bump_0.
      * cbn [ret]. unfold bind at 1. specialize (IH s).
        destruct (mapM g l s) as [[e|ys] s'].
        -- destruct IH as (pre & y & post & -> & Hpre & Hy & -> & ->).
           exists (x :: pre), y, post. split_and!; try done.
           ++ by constructor.
           ++ rewrite fmap_cons, filter_cons_False; [done|].
              rewrite Hsm. by intros [? ?].
        -- destruct IH as (-> & Hall & ->). cbn [ret]. split_and!.
           ++ rewrite fmap_cons, filter_cons_False; [done|].
              rewrite Hsm. by intros [? ?].
           ++ by constructor.
           ++ rewrite imap_cons. f_equal.
              ** unfold checked. by rewrite Hsm.
              ** apply imap_ext. intros i y Hy. simpl. f_equal.
                 rewrite filter_cons_False; [done|].
                 rewrite Hsm. by intros [? ?].
Qed.
End check_facts.

Lemma snd_zip_take {A B} (l : list A) (k : list B) :
  (zip l k).*2 = take (length l) k.
Proof.
  revert k. induction l as [|x l IH]; intros [|y k]; simpl; try done.
  f_equal. apply IH.
Qed.

Lemma zip_with_keys {A B C} (l : list (A * B)) (vs : list C) :
  zip_with (fun kv v => (kv.1, v)) l vs = zip l.*1 vs.
Proof.
  revert vs. induction l as [|x l IH]; intros [|v vs]; simpl; try done.
  f_equal. apply IH.
Qed.

Lemma zip_keys_imap {A B C} (f : nat -> B -> C) (l : list (A * B)) :
  zip l.*1 (imap f l.*2) = imap (fun i kv => (kv.1, f i kv.2)) l.
Proof.
  revert f. induction l as [|x l IH]; intros f; simpl; [done|].
  f_equal. apply IH.
Qed.

Section check_args_facts.
Context `{Engine}.

Local Abbreviation bump n s :=
  (with_world (World (next_id (sym_world s) + n) (names (sym_world s))
                 (eng (sym_world s)) (calls (sym_world s))) s).
Local Abbreviation is_small a := (is_Some (small_int (oval a))).
Local Abbreviation smalls l := (length (filter (fun a => is_small a) l)).

Lemma named_args_values f args kwargs :
  (named_args f args kwargs).*2 = args ++ od_values kwargs.
Proof.
  unfold named_args, od_values. rewrite !fmap_app, <- !list_fmap_compose.
  rewrite app_assoc. f_equal.
  rewrite <- (take_drop (length (func_args f)) args) at 3. f_equal.
  - rewrite (list_fmap_ext _ snd (zip (func_args f) args)) by done.
    apply snd_zip_take.
  - etrans; [|apply list_fmap_id]. by apply list_fmap_ext.
Qed.

(** [check_args] is one loop of [check] over the named arguments, whose
    results are split back into the positional and the keyword ones. *)
Lemma check_args_run f args kwargs (s : symbolic) :
  check_args f args kwargs s =
  match mapM (fun na => check na.1 na.2) (named_args f args kwargs) s with
  | (inl e, s1) => (inl e, s1)
  | (inr vs, s1) =>
      (inr (take (length args) vs,
            od_of_list (zip (od_keys kwargs) (drop (length args) vs))), s1)
  end.
Proof.
  unfold check_args, named_args. rewrite mapM_app, mapM_fmap.
  rewrite (mapM_ext (fun x => check (prod_map Some id x).1
                                    (prod_map Some id x).2)
             (fun na : string * obj => check (Some na.1) na.2)) by done.
  unfold bind at 1.
  destruct (mapM _ (zip (func_args f) args) s) as [[e|y1] s1] eqn:H1;
    [done|].
  rewrite mapM_app, mapM_fmap.
  rewrite (mapM_ext (fun x => check (func_varargs f, x).1
                                    (func_varargs f, x).2)
             (check (func_varargs f))) by done.
  unfold bind at 1.
  destruct (mapM _ (drop (length (func_args f)) args) s1)
    as [[e|y2] s2] eqn:H2; [done|].
  rewrite mapM_fmap.
  rewrite (mapM_ext (fun x => check (prod_map Some id x).1
                                    (prod_map Some id x).2)
             (fun kv : string * obj => check (Some kv.1) kv.2)) by done.
  unfold bind at 1. rewrite mapM_post.
  destruct (mapM _ kwargs s2) as [[e|y3] s3] eqn:H3; [done|].
  apply mapM_length in H1, H2.
  rewrite length_zip in H1. rewrite length_drop in H2.
  unfold ret. rewrite zip_with_keys, app_assoc.
  rewrite take_app_length', drop_app_length'; [done | |];
    rewrite length_app; lia.
Qed.

Lemma check_args_ok f args kwargs (s : symbolic) a' k' s' :
  check_args f args kwargs s = (inr (a', k'), s') ->
  let base := next_id (sym_world s) in
  let ins := args ++ od_values kwargs in
  s' = bump (smalls ins) s /\
  Forall (fun a => is_container (oval a) = false) ins /\
  a' = imap (fun i a => checked base (smalls (take i ins)) a) args /\
  k' = od_of_list
         (imap (fun i kv =>
                  (kv.1, checked base
                           (smalls (take (length args + i) ins)) kv.2))
               kwargs).
Proof.
  rewrite check_args_run.
  pose proof (mapM_check fst snd (fun _ v => v)
                (fun na => check na.1 na.2)
                (fun x s => eq_sym (bind_ret_r _ s))
                (named_args f args kwargs) s) as Hm.
  destruct (mapM _ (named_args f args kwargs) s) as [[e|vs] s1]; [done|].
  destruct Hm as (-> & Hall & ->). intros [= <- <- <-].
  rewrite named_args_values. intros base ins.
  set (F := fun i a => checked base (smalls (take i ins)) a).
  assert (Hvs : imap (fun i (x : option string * obj) => F i x.2)
                     (named_args f args kwargs) = imap F ins).
  { unfold ins. rewrite <- (named_args_values f).
    rewrite imap_fmap. by apply imap_ext. }
  fold base ins. change (imap _ (named_args f args kwargs))
    with (imap (fun i (x : option string * obj) => F i x.2)
               (named_args f args kwargs)).
  rewrite Hvs.
  pose proof (imap_app F args (od_values kwargs)) as Hins.
  fold ins in Hins. rewrite !Hins.
  rewrite take_app_length', drop_app_length' by (by rewrite length_imap).
  split_and!.
  - done.
  - subst ins. rewrite <- (named_args_values f). by apply Forall_fmap.
  - done.
  - f_equal. unfold od_keys, od_values.
    change (map snd kwargs) with (kwargs.*2).
    change (map fst kwargs) with (kwargs.*1).
    by rewrite zip_keys_imap.
Qed.

Lemma check_args_fail f args kwargs (s : symbolic) e s' :
  check_args f args kwargs s = (inl e, s') ->
  exists pre name a post,
    named_args f args kwargs = pre ++ (name, a) :: post /\
    Forall (fun x => is_container (oval x.2) = false) pre /\
    is_container (oval a) = true /\
    e = TypeError container_msg [FObj a; fname name] /\
    s' = bump (smalls pre.*2) s.
Proof.
  rewrite check_args_run.
  pose proof (mapM_check fst snd (fun _ v => v)
                (fun na => check na.1 na.2)
                (fun x s => eq_sym (bind_ret_r _ s))
                (named_args f args kwargs) s) as Hm.
  destruct (mapM _ (named_args f args kwargs) s) as [[e1|vs] s1]; [|done].
  destruct Hm as (pre & [name a] & post & Hm). intros [= <- <-].
  by exists pre, name, a, post.
Qed.

(** A container among the arguments makes [check_args] raise. *)
Lemma check_args_container f args kwargs (s : symbolic) a :
  a ∈ args ++ od_values kwargs -> is_container (oval a) = true ->
  exists e s', check_args f args kwargs s = (inl e, s').
Proof.
  intros Hin Hc.
  destruct (check_args f args kwargs s) as [[e|[a' k']] s'] eqn:Hch;
    [by eauto|].
  apply check_args_ok in Hch as (_ & Hall & _).
  rewrite Forall_forall in Hall. specialize (Hall _ Hin). congruence.
Qed.

(** Pre-processing only moves the allocator of identities. *)
Lemma check_args_frame f args kwargs (s : symbolic) r s' :
  check_args f args kwargs s = (r, s') -> exists n, s' = bump n s.
Proof.
  destruct r as [e|[a' k']]; intros Hch.
  - apply check_args_fail in Hch as (pre & ? & ? & ? & _ & _ & _ & _ & ->).
    eauto.
  - apply check_args_ok in Hch as (-> & _). eauto.
Qed.
End check_args_facts.

(** ** [trace], phase by phase *)

Section trace_facts.
Context `{Engine}.

(** The outcome of [trace]: the argument check, then the instrumented run
    on cleared dictionaries, then the bindings of the arguments and of the
    results. *)
Lemma trace_run args kwargs (s : symbolic) :
  trace args kwargs s =
  match check_args (pyfn s) args kwargs s with
  | (inl e, s1) => (inl e, s1)
  | (inr (a', k'), s1) =>
      let w := log (EvTrace a' k') (sym_world s1) in
      match ctx_call (pyfn s) a' k' (eng w) with
      | (inl e, e') =>
          (inl e, Symbolic (set_eng e' w) (pyfn s) [] [] [] (cache s))
      | (inr (res, svars), e') =>
          let s2 := Symbolic (set_eng e' w) (pyfn s) (od_of_list svars)
                             [] [] (cache s) in
          match orderedcallargs (pyfn s) a' k' with
          | inl e => (inl e, s2)
          | inr ca =>
              match forM_ (collect_arg (pyfn s)) ca s2 with
              | (inl e, s3) => (inl e, s3)
              | (inr _, s3) =>
                  forM_ collect_result (enumerate (result_items res)) s3
              end
          end
      end
  end.
Proof.
  unfold trace. unfold bind at 1. unfold gets at 1. unfold bind at 1.
  destruct (check_args (pyfn s) args kwargs s) as [[e|[a' k']] s1] eqn:Hch;
    [done|].
  apply check_args_frame in Hch as [n ->].
  unfold bind, gets, modify, call_ext, liftE. simpl.
  destruct (ctx_call (pyfn s) a' k' (eng (sym_world s)))
    as [[e|[res svars]] e']; [done|].
  destruct (orderedcallargs (pyfn s) a' k') as [e|ca]; [done|].
  simpl. by destruct (forM_ (collect_arg (pyfn s)) ca _) as [[e|[]] s3].
Qed.
End trace_facts.

(** ** The binding of the results *)

Section collect_results_facts.
Context `{Engine}.

Local Abbreviation traced vars a := (is_Some (od_get (oid a) vars)).
Local Abbreviation bindings vars items :=
  (omap (fun r : obj => pair (oid r) <$> od_get (oid r) vars) items).

Lemma collect_result_Some i r v (s : symbolic) :
  od_get (oid r) (s_vars s) = Some v ->
  collect_result (i, r) s = (inr tt, set_s_results (od_set (oid r) v) s).
Proof. intros Hv. unfold collect_result, bind, get. by rewrite Hv. Qed.

Lemma collect_result_None i r (s : symbolic) :
  od_get (oid r) (s_vars s) = None ->
  collect_result (i, r) s = (inl (KeyError result_msg [FNat (i + 1)]), s).
Proof. intros Hv. unfold collect_result, bind, get. by rewrite Hv. Qed.

(** The loop over the results passes over a prefix of traced results and
    stores their nodes, in order, under their identities. *)
Lemma collect_results_prefix pre rest i (s : symbolic) :
  Forall (fun r => traced (s_vars s) r) pre ->
  forM_ collect_result (enumerate_from i (pre ++ rest)) s =
  forM_ collect_result (enumerate_from (i + length pre) rest)
    (set_s_results (fun d => od_update d (bindings (s_vars s) pre)) s).
Proof.
  revert i s. induction pre as [|r pre IH]; intros i s Hall.
  - simpl. rewrite Nat.add_0_r. by destruct s.
  - apply Forall_cons in Hall as [[v Hv] Hall].
    cbn [app enumerate_from forM_]. unfold bind at 1.
    rewrite (collect_result_Some _ _ v) by done.
    rewrite IH by done. simpl. rewrite Hv. simpl.
    by rewrite Nat.add_succ_r.
Qed.

Lemma collect_results_ok items (s : symbolic) :
  Forall (fun r => traced (s_vars s) r) items ->
  forM_ collect_result (enumerate items) s =
  (inr tt,
   set_s_results (fun d => od_update d (bindings (s_vars s) items)) s).
Proof.
  intros Hall. unfold enumerate.
  rewrite <- (app_nil_r items) at 1. by rewrite collect_results_prefix.
Qed.

Lemma collect_results_fail pre r post (s : symbolic) :
  Forall (fun r => traced (s_vars s) r) pre ->
  od_get (oid r) (s_vars s) = None ->
  forM_ collect_result (enumerate (pre ++ r :: post)) s =
  (inl (KeyError result_msg [FNat (length pre + 1)]),
   set_s_results (fun d => od_update d (bindings (s_vars s) pre)) s).
Proof.
  intros Hall Hr. unfold enumerate. rewrite collect_results_prefix by done.
  cbn [enumerate_from forM_]. unfold bind.
  by rewrite collect_result_None.
Qed.

Lemma bindings_keys (vars : odict nat node) items :
  Forall (fun r => traced vars r) items ->
  (bindings vars items).*1 = oid <$> items.
Proof.
  induction 1 as [|r items [v Hv] _ IH]; [done|].
  simpl. rewrite Hv. simpl. f_equal. apply IH.
Qed.
End collect_results_facts.

(** ** The binding of the arguments *)

Lemma snd_imap_pair {A B} (g : nat -> A) (items : list B) :
  (imap (fun i a => (g i, a)) items).*2 = items.
Proof.
  revert g. induction items as [|a items IH]; intros g; simpl; [done|].
  f_equal. apply (IH (g ∘ S)).
Qed.

Section collect_args_facts.
Context `{Engine}.

Local Abbreviation traced vars a := (is_Some (od_get (oid a) vars)).

(** [s'] is [s] but for [s_args], which gained the keys [K], and for the
    names of the nodes. *)
Local Abbreviation grows K s s' :=
  (s_vars s' = s_vars s /\ s_results s' = s_results s /\
   cache s' = cache s /\ pyfn s' = pyfn s /\
   calls (sym_world s') = calls (sym_world s) /\
   eng (sym_world s') = eng (sym_world s) /\
   next_id (sym_world s') = next_id (sym_world s) /\
   (NoDup (od_keys (s_args s)) -> NoDup (od_keys (s_args s'))) /\
   (forall n : string,
      n ∈ od_keys (s_args s') <-> n ∈ od_keys (s_args s) \/ n ∈ K)).

Lemma grows_refl (s : symbolic) : grows (@nil string) s s.
Proof. split_and!; try done. intros n. rewrite elem_of_nil. tauto. Qed.

Lemma grows_trans K1 K2 (s1 s2 s3 : symbolic) :
  grows K1 s1 s2 -> grows K2 s2 s3 -> grows (K1 ++ K2) s1 s3.
Proof.
  intros (?&?&?&?&?&?&?&Hnd1&Hk1) (?&?&?&?&?&?&?&Hnd2&Hk2).
  split_and!; try congruence; [tauto|].
  intros n. rewrite Hk2, Hk1, elem_of_app. tauto.
Qed.

Lemma grows_set (s : symbolic) n x v nm :
  grows [n] s
    (Symbolic (World (next_id (sym_world s)) (<[v := nm]> (names (sym_world s)))
                 (eng (sym_world s)) (calls (sym_world s)))
       (pyfn s) (s_vars s) (od_set n x (s_args s)) (s_results s) (cache s)).
Proof.
  split_and!; try done; simpl.
  - apply od_keys_set_NoDup.
  - intros k. rewrite od_keys_set_elem, list_elem_of_singleton. tauto.
Qed.

Lemma collect_named_Some n a v (s : symbolic) :
  od_get (oid a) (s_vars s) = Some v ->
  exists s', collect_named n a s = (inr tt, s') /\ grows [n] s s'.
Proof.
  intros Hv. unfold collect_named, bind, get, modify, setattr_name, liftW.
  rewrite Hv. eexists. split; [done|]. apply (grows_set s n (SVar v) v n).
Qed.

Lemma collect_named_None n a (s : symbolic) :
  od_get (oid a) (s_vars s) = None ->
  collect_named n a s = (inl (untraceable (Named n)), s).
Proof. intros Hv. unfold collect_named, bind, get. by rewrite Hv. Qed.

(** The loop over the keyword bag. *)
Lemma collect_bag_prefix (pre rest : list (string * obj)) (s : symbolic) :
  Forall (fun na => traced (s_vars s) na.2) pre ->
  exists s',
    forM_ (fun na => collect_named na.1 na.2) (pre ++ rest) s =
    forM_ (fun na => collect_named na.1 na.2) rest s' /\
    grows pre.*1 s s'.
Proof.
  revert s. induction pre as [|[n a] pre IH]; intros s Hall.
  - exists s. split; [done|]. apply grows_refl.
  - apply Forall_cons in Hall as [[v Hv] Hall]. simpl in Hv.
    destruct (collect_named_Some n a v s Hv) as (s1 & Hs1 & Hg1).
    destruct (IH s1) as (s2 & Hs2 & Hg2).
    { destruct Hg1 as (-> & _). done. }
    exists s2. split.
    + cbn [app forM_]. unfold bind at 1. cbn [fst snd]. by rewrite Hs1.
    + apply (grows_trans [n] _ _ _ _ Hg1 Hg2).
Qed.

(** The loop over the variadic tuple. *)
Lemma collect_vararg_Some name i a v vs (s : symbolic) :
  od_get name (s_args s) = Some (SNodes vs) ->
  od_get (oid a) (s_vars s) = Some v ->
  exists s', collect_vararg name (i, a) s = (inr tt, s') /\
             grows [name] s s' /\
             od_get name (s_args s') = Some (SNodes (vs ++ [v])).
Proof.
  intros Hn Hv.
  unfold collect_vararg, bind, get, modify, setattr_name, liftW.
  rewrite Hn, Hv. eexists. split; [done|].
  split; [apply (grows_set s name (SNodes (vs ++ [v])) v (item_name name i))|].
  simpl. apply od_get_set_eq.
Qed.

Lemma collect_vararg_None name i a vs (s : symbolic) :
  od_get name (s_args s) = Some (SNodes vs) ->
  od_get (oid a) (s_vars s) = None ->
  collect_vararg name (i, a) s = (inl (untraceable (Item name i)), s).
Proof.
  intros Hn Hv. unfold collect_vararg, bind, get. by rewrite Hn, Hv.
Qed.

Lemma collect_varargs_prefix name pre rest i vs (s : symbolic) :
  od_get name (s_args s) = Some (SNodes vs) ->
  Forall (fun a => traced (s_vars s) a) pre ->
  exists s' vs',
    forM_ (collect_vararg name) (enumerate_from i (pre ++ rest)) s =
    forM_ (collect_vararg name) (enumerate_from (i + length pre) rest) s' /\
    grows [name] s s' /\
    od_get name (s_args s') = Some (SNodes vs').
Proof.
  revert s i vs. induction pre as [|a pre IH]; intros s i vs Hn Hall.
  - exists s, vs. rewrite Nat.add_0_r. split; [done|]. split; [|done].
    split_and!; try done. intros n. rewrite list_elem_of_singleton.
    split; [tauto|]. intros [?| ->]; [done|]. by eapply od_get_Some_keys.
  - apply Forall_cons in Hall as [[v Hv] Hall].
    destruct (collect_vararg_Some name i a v vs s Hn Hv)
      as (s1 & Hs1 & Hg1 & Hn1).
    destruct (IH s1 (S i) _ Hn1) as (s2 & vs2 & Hs2 & Hg2 & Hn2).
    { destruct Hg1 as (-> & _). done. }
    exists s2, vs2. split; [|split; [|done]].
    + cbn [app enumerate_from forM_]. unfold bind at 1. rewrite Hs1.
      rewrite Hs2. cbn [length]. by rewrite Nat.add_succ_r.
    + pose proof (grows_trans [name] [name] _ _ _ Hg1 Hg2) as Hg.
      destruct Hg as (?&?&?&?&?&?&?&?&Hk). split_and!; try done.
      intros n. rewrite Hk, elem_of_app, !list_elem_of_singleton. tauto.
Qed.

(** The shape that the binder gives to an entry of [callargs]. *)
Local Abbreviation shaped f na :=
  (match na.2 with
   | BTuple _ => func_varargs f = Some na.1
   | BBag _ => func_varargs f <> Some na.1 /\ func_keywords f = Some na.1
   | BVal _ => func_varargs f <> Some na.1 /\ func_keywords f <> Some na.1
   end).

(** The keys that an entry of [callargs] adds to [s_args]. *)
Local Abbreviation entry_keys na :=
  (match na.2 with
   | BBag items => items.*1
   | _ => [na.1]
   end).

Lemma imap_item_split name (items : list obj) pre sl a post :
  imap (fun i a => (Item name i, a)) items = pre ++ (sl, a) :: post ->
  items = pre.*2 ++ a :: post.*2 /\ sl = Item name (length pre).
Proof.
  intros Heq. split.
  - rewrite <- (fmap_cons snd (sl, a)), <- fmap_app, <- Heq.
    by rewrite (snd_imap_pair (Item name)).
  - assert (Hl : imap (fun i a => (Item name i, a)) items !! length pre
                 = Some (sl, a)).
    { rewrite Heq. by apply list_lookup_middle. }
    rewrite list_lookup_imap in Hl.
    destruct (items !! length pre); simpl in Hl; congruence.
Qed.

Lemma entry_values_tuple f name items :
  func_varargs f = Some name ->
  entry_values f (name, BTuple items)
  = imap (fun i a => (Item name i, a)) items.
Proof. intros Hva. unfold entry_values. by rewrite decide_True. Qed.

Lemma entry_values_bag f name bag :
  func_varargs f <> Some name -> func_keywords f = Some name ->
  entry_values f (name, BBag bag)
  = (fun na : string * obj => (Named na.1, na.2)) <$> bag.
Proof.
  intros Hva Hkw. unfold entry_values.
  rewrite decide_False by done. by rewrite decide_True.
Qed.

Lemma entry_values_val f name a :
  func_varargs f <> Some name -> func_keywords f <> Some name ->
  entry_values f (name, BVal a) = [(Named name, a)].
Proof.
  intros Hva Hkw. unfold entry_values. by rewrite !decide_False.
Qed.

Lemma collect_arg_ok f na (s : symbolic) :
  shaped f na ->
  Forall (fun a => traced (s_vars s) a) (entry_values f na).*2 ->
  exists s', collect_arg f na s = (inr tt, s') /\ grows (entry_keys na) s s'.
Proof.
  destruct na as [name [a|items|bag]]; cbn [fst snd]; unfold collect_arg.
  - intros [Hva Hkw] Hall. rewrite entry_values_val in Hall by done.
    rewrite !decide_False by done.
    apply Forall_singleton in Hall as [v Hv].
    by apply (collect_named_Some name a v).
  - intros Hva Hall. rewrite entry_values_tuple in Hall by done.
    rewrite decide_True by done.
    unfold bind at 1, modify at 1.
    set (s0 := set_s_args (od_set name (SNodes [])) s).
    destruct (collect_varargs_prefix name items [] 0 [] s0)
      as (s1 & vs1 & Hs1 & Hg1 & _).
    { apply od_get_set_eq. }
    { by rewrite (snd_imap_pair (Item name)) in Hall. }
    exists s1. split.
    + unfold enumerate. rewrite <- (app_nil_r items) at 1. by rewrite Hs1.
    + destruct Hg1 as (?&?&?&?&?&?&?&Hnd&Hk). split_and!; try done.
      * intros Hs. apply Hnd. by apply od_keys_set_NoDup.
      * intros n. rewrite Hk. subst s0. simpl.
        rewrite od_keys_set_elem, list_elem_of_singleton. tauto.
  - intros [Hva Hkw] Hall. rewrite entry_values_bag in Hall by done.
    rewrite decide_False by done. rewrite decide_True by done.
    destruct (collect_bag_prefix bag [] s) as (s1 & Hs1 & Hg1).
    { rewrite <- list_fmap_compose in Hall.
      rewrite Forall_fmap in Hall. exact Hall. }
    rewrite app_nil_r in Hs1. by exists s1.
Qed.

Lemma collect_arg_fail f na pre sl a post (s : symbolic) :
  shaped f na ->
  entry_values f na = pre ++ (sl, a) :: post ->
  Forall (fun a => traced (s_vars s) a) pre.*2 ->
  od_get (oid a) (s_vars s) = None ->
  exists s', collect_arg f na s = (inl (untraceable sl), s') /\
             s_vars s' = s_vars s /\ s_results s' = s_results s /\
             calls (sym_world s') = calls (sym_world s).
Proof.
  destruct na as [name [b|items|bag]]; cbn [fst snd]; unfold collect_arg.
  - intros [Hva Hkw] Heq Hall Ha. rewrite entry_values_val in Heq by done.
    rewrite !decide_False by done.
    destruct pre as [|? [|? ?]]; try done. injection Heq as <- <- _.
    exists s. by rewrite collect_named_None.
  - intros Hva Heq Hall Ha. rewrite entry_values_tuple in Heq by done.
    rewrite decide_True by done.
    apply imap_item_split in Heq as [-> ->].
    unfold bind at 1, modify at 1.
    set (s0 := set_s_args (od_set name (SNodes [])) s).
    destruct (collect_varargs_prefix name pre.*2 (a :: post.*2) 0 [] s0)
      as (s1 & vs1 & Hs1 & Hg1 & Hn1); [apply od_get_set_eq | done |].
    exists s1. unfold enumerate. rewrite Hs1.
    cbn [enumerate_from forM_]. unfold bind at 1.
    destruct Hg1 as (Hv1&?&?&?&?&?&?&_).
    rewrite (collect_vararg_None _ _ _ vs1) by (by rewrite ?Hv1).
    rewrite length_fmap. by split_and!.
  - intros [Hva Hkw] Heq Hall Ha. rewrite entry_values_bag in Heq by done.
    rewrite decide_False by done. rewrite decide_True by done.
    apply fmap_app_inv in Heq as (bpre & brest & -> & Hrest & ->).
    destruct brest as [|[n b] bpost]; [done|].
    rewrite fmap_cons in Hrest. cbn [fst snd] in Hrest.
    injection Hrest as -> -> _.
    destruct (collect_bag_prefix bpre ((n, b) :: bpost) s) as (s1 & Hs1 & Hg1).
    { rewrite <- list_fmap_compose in Hall.
      rewrite Forall_fmap in Hall. exact Hall. }
    exists s1. rewrite Hs1. cbn [forM_]. unfold bind at 1. cbn [fst snd].
    destruct Hg1 as (Hv1&?&?&?&?&?&?&_).
    rewrite collect_named_None by (by rewrite Hv1). by split_and!.
Qed.

Lemma bound_values_cons f na ca :
  bound_values f (na :: ca) = entry_values f na ++ bound_values f ca.
Proof. done. Qed.

(** The loop over [callargs] passes over a prefix of entries whose values
    are all traced. *)
Lemma collect_args_prefix f pre rest (s : symbolic) :
  Forall (fun na => shaped f na) pre ->
  Forall (fun a => traced (s_vars s) a) (bound_values f pre).*2 ->
  exists s',
    forM_ (collect_arg f) (pre ++ rest) s = forM_ (collect_arg f) rest s' /\
    grows (concat ((fun na => entry_keys na) <$> pre)) s s'.
Proof.
  revert s. induction pre as [|na pre IH]; intros s Hsh Hall.
  - exists s. split; [done|]. apply grows_refl.
  - apply Forall_cons in Hsh as [Hna Hsh].
    rewrite bound_values_cons, fmap_app in Hall.
    apply Forall_app in Hall as [Hall1 Hall2].
    destruct (collect_arg_ok f na s Hna Hall1) as (s1 & Hs1 & Hg1).
    destruct (IH s1 Hsh) as (s2 & Hs2 & Hg2).
    { destruct Hg1 as (-> & _). done. }
    exists s2. split.
    + cbn [app forM_]. unfold bind at 1. by rewrite Hs1.
    + rewrite fmap_cons. cbn [concat].
      exact (grows_trans _ _ _ _ _ Hg1 Hg2).
Qed.

(** The loop stops at the first bound value that has no node, with the
    error of its slot. *)
Lemma collect_args_fail f ca pre sl a post (s : symbolic) :
  Forall (fun na => shaped f na) ca ->
  bound_values f ca = pre ++ (sl, a) :: post ->
  Forall (fun a => traced (s_vars s) a) pre.*2 ->
  od_get (oid a) (s_vars s) = None ->
  exists s', forM_ (collect_arg f) ca s = (inl (untraceable sl), s') /\
             s_vars s' = s_vars s /\ s_results s' = s_results s /\
             calls (sym_world s') = calls (sym_world s).
Proof.
  revert pre s. induction ca as [|na ca IH]; intros pre s Hsh Heq Hall Ha.
  - by destruct pre.
  - apply Forall_cons in Hsh as [Hna Hsh]. rewrite bound_values_cons in Heq.
    apply app_eq_app in Heq as [l [[Hev Hl]|[Hpre Hbv]]].
    + destruct l as [|x l].
      * rewrite app_nil_r in Hev. subst pre. simpl in Hl.
        destruct (collect_arg_ok f na s Hna Hall) as (s1 & Hs1 & Hg1).
        destruct Hg1 as (Hv1&Hr1&?&?&Hc1&_).
        destruct (IH [] s1 Hsh (eq_sym Hl)) as (s2 & Hs2 & ? & ? & ?);
          [done | by rewrite Hv1 |].
        exists s2. cbn [forM_]. unfold bind at 1. rewrite Hs1.
        split_and!; congruence.
      * injection Hl as <- ->.
        destruct (collect_arg_fail f na pre sl a l s Hna Hev Hall Ha)
          as (s1 & Hs1 & ?).
        exists s1. cbn [forM_]. unfold bind at 1. by rewrite Hs1.
    + subst pre. rewrite fmap_app in Hall.
      apply Forall_app in Hall as [Hall1 Hall2].
      destruct (collect_arg_ok f na s Hna Hall1) as (s1 & Hs1 & Hg1).
      destruct Hg1 as (Hv1&Hr1&?&?&Hc1&_).
      destruct (IH l s1 Hsh Hbv) as (s2 & Hs2 & ? & ? & ?);
        [by rewrite Hv1 | by rewrite Hv1 |].
      exists s2. cbn [forM_]. unfold bind at 1. rewrite Hs1.
      split_and!; congruence.
Qed.
End collect_args_facts.

(** ** The signature binder *)

Lemma mapE_inr {A B} (g : A -> exn + B) l ys :
  mapE g l = inr ys -> Forall2 (fun x y => g x = inr y) l ys.
Proof.
  revert ys. induction l as [|x l IH]; intros ys; simpl.
  - intros [= <-]. constructor.
  - destruct (g x) as [e|y] eqn:Hx; [done|].
    destruct (mapE g l) as [e|ys']; [done|].
    intros [= <-]. constructor; [done | by apply IH].
Qed.

Lemma enumerate_from_values {A} i (l : list A) : (enumerate_from i l).*2 = l.
Proof.
  revert i. induction l as [|x l IH]; intros i; simpl; [done|].
  f_equal. apply IH.
Qed.

Lemma bind_declared_inr f args kwargs i name y :
  bind_declared f args kwargs (i, name) = inr y -> exists v, y = (name, BVal v).
Proof.
  unfold bind_declared.
  destruct (args !! i), (od_get name kwargs); try done;
    try (intros [= <-]; by eauto).
  case_decide; [|done].
  destruct (func_defaults f !! _); [|done]. intros [= <-]. by eauto.
Qed.

Section binder_facts.
Local Abbreviation shaped f na :=
  (match na.2 with
   | BTuple _ => func_varargs f = Some na.1
   | BBag _ => func_varargs f <> Some na.1 /\ func_keywords f = Some na.1
   | BVal _ => func_varargs f <> Some na.1 /\ func_keywords f <> Some na.1
   end).

(** What the binder returns for a call that binds: the declared names
    with one value each, then the variadic tuple, then the keyword bag. *)
Lemma orderedcallargs_inr f args kwargs ca :
  wf_signature f ->
  orderedcallargs f args kwargs = inr ca ->
  exists declared,
    declared.*1 = func_args f /\
    Forall (fun nb : string * bound => exists v, nb.2 = BVal v) declared /\
    ca = declared
         ++ match func_varargs f with
            | Some va => [(va, BTuple (drop (length (func_args f)) args))]
            | None => []
            end
         ++ match func_keywords f with
            | Some kw =>
                [(kw, BBag (filter (fun kv => kv.1 ∉ func_args f) kwargs))]
            | None => []
            end /\
    (func_varargs f = None -> length args <= length (func_args f)) /\
    (func_keywords f = None ->
     filter (fun kv => kv.1 ∉ func_args f) kwargs = []).
Proof.
  intros Hwf. unfold orderedcallargs.
  destruct (mapE _ _) as [e|declared] eqn:Hd; [done|].
  apply mapE_inr in Hd.
  assert (Hnames : declared.*1 = func_args f /\
            Forall (fun nb : string * bound => exists v, nb.2 = BVal v)
                   declared).
  { unfold enumerate in Hd. revert Hd. generalize 0.
    generalize (func_args f). clear. intros names.
    revert declared. induction names as [|n names IH];
      intros declared i Hd; simpl in Hd.
    - by apply Forall2_nil_inv_l in Hd as ->.
    - apply Forall2_cons_inv_l in Hd as (y & ys & Hy & Hys & ->).
      apply bind_declared_inr in Hy as [v ->].
      destruct (IH _ _ Hys) as [Hn Hv]. split.
      + rewrite fmap_cons. cbn [fst]. by rewrite Hn.
      + constructor; [by eauto | done]. }
  destruct Hnames as [Hn Hv].
  set (extra := drop (length (func_args f)) args).
  set (bag := filter (fun kv => kv.1 ∉ func_args f) kwargs).
  assert (Hkeys : forall va_e kw_e,
            va_e = match func_varargs f with
                   | Some va => [(va, BTuple extra)] | None => [] end ->
            kw_e = match func_keywords f with
                   | Some kw => [(kw, BBag bag)] | None => [] end ->
            od_of_list (declared ++ va_e ++ kw_e) = declared ++ va_e ++ kw_e).
  { intros va_e kw_e -> ->. apply od_of_list_NoDup.
    rewrite !fmap_app, Hn. unfold wf_signature, declared_parameters in Hwf.
    by destruct (func_varargs f), (func_keywords f). }
  intros Hca. exists declared.
  assert (Hextra : func_varargs f = None ->
                   extra <> [] -> False).
  { intros Hva Hne. rewrite Hva in Hca. by destruct extra. }
  assert (Hbag : func_keywords f = None -> bag <> [] -> False).
  { intros Hkw Hne. rewrite Hkw in Hca.
    destruct (func_varargs f), extra, bag as [|[??] ?]; done. }
  split_and!; try done.
  - rewrite <- (Hkeys _ _ eq_refl eq_refl).
    destruct (func_varargs f) eqn:Hva, (func_keywords f) eqn:Hkw.
    + by injection Hca as <-.
    + destruct bag as [|[??]?]; [by injection Hca as <- | done].
    + destruct extra; [by injection Hca as <- | done].
    + destruct extra; [|done].
      destruct bag as [|[??]?]; [by injection Hca as <- | done].
  - intros Hva. destruct (decide (extra = [])) as [He|He].
    + subst extra. apply drop_nil_inv in He. done. 
    + by destruct (Hextra Hva He).
  - intros Hkw. destruct (decide (bag = [])) as [He|He]; [done|].
    by destruct (Hbag Hkw He).
Qed.
End binder_facts.

(** ** What the binding loops leave alone *)

Section keeps_facts.
Context `{Engine}.

(** [s'] is [s] but for [s_args], [s_results] and the names of the nodes. *)
Local Abbreviation keeps s s' :=
  (s_vars s' = s_vars s /\ cache s' = cache s /\ pyfn s' = pyfn s /\
   calls (sym_world s') = calls (sym_world s) /\
   eng (sym_world s') = eng (sym_world s) /\
   next_id (sym_world s') = next_id (sym_world s)).

Lemma forM_keeps {A} (f : A -> M symbolic unit) :
  (forall x s r s', f x s = (r, s') -> keeps s s') ->
  forall l s r s', forM_ f l s = (r, s') -> keeps s s'.
Proof.
  intros Hf l. induction l as [|x l IH]; intros s r s'.
  - intros [= <- <-]. done.
  - cbn [forM_]. unfold bind.
    destruct (f x s) as [[e|[]] s1] eqn:Hx.
    + intros [= <- <-]. by eapply Hf.
    + intros Hl. apply Hf in Hx. apply IH in Hl.
      destruct Hx as (?&?&?&?&?&?), Hl as (?&?&?&?&?&?).
      split_and!; congruence.
Qed.

Lemma collect_named_keeps n a (s : symbolic) r s' :
  collect_named n a s = (r, s') -> keeps s s'.
Proof.
  unfold collect_named, bind, get, modify, setattr_name, liftW, raise.
  destruct (od_get (oid a) (s_vars s)); intros [= <- <-]; done.
Qed.

Lemma collect_vararg_keeps name ia (s : symbolic) r s' :
  collect_vararg name ia s = (r, s') -> keeps s s'.
Proof.
  destruct ia as [i a].
  unfold collect_vararg, bind, get, modify, setattr_name, liftW, raise.
  destruct (od_get name (s_args s)) as [[?|?]|],
    (od_get (oid a) (s_vars s)); intros [= <- <-]; done.
Qed.

Lemma collect_arg_keeps f na (s : symbolic) r s' :
  collect_arg f na s = (r, s') -> keeps s s'.
Proof.
  destruct na as [name arg]. unfold collect_arg.
  case_decide; [|case_decide].
  - unfold bind at 1, modify at 1.
    destruct arg as [a|items|bag]; try (intros [= <- <-]; done).
    intros Hl. by apply (forM_keeps _ (collect_vararg_keeps name)) in Hl.
  - destruct arg as [a|items|bag]; try (intros [= <- <-]; done).
    apply (forM_keeps (fun na => collect_named na.1 na.2)).
    intros [n a] ? ? ?. apply collect_named_keeps.
  - destruct arg as [a|items|bag]; try (intros [= <- <-]; done).
    apply collect_named_keeps.
Qed.

Lemma collect_result_keeps ir (s : symbolic) r s' :
  collect_result ir s = (r, s') -> keeps s s' /\ s_args s' = s_args s.
Proof.
  destruct ir as [i x]. unfold collect_result, bind, get, modify, raise.
  destruct (od_get (oid x) (s_vars s)); intros [= <- <-]; done.
Qed.

Lemma collect_results_keeps l (s : symbolic) r s' :
  forM_ collect_result l s = (r, s') -> keeps s s' /\ s_args s' = s_args s.
Proof.
  revert s. induction l as [|x l IH]; intros s.
  - intros [= <- <-]. done.
  - cbn [forM_]. unfold bind.
    destruct (collect_result x s) as [[e|[]] s1] eqn:Hx.
    + intros [= <- <-]. by eapply collect_result_keeps.
    + intros Hl. apply collect_result_keeps in Hx. apply IH in Hl.
      destruct Hx as ((?&?&?&?&?&?)&?), Hl as ((?&?&?&?&?&?)&?).
      split_and!; congruence.
Qed.

(** A trace that passes the check runs the function once, on the checked
    arguments, and calls no other collaborator. *)
Lemma trace_calls args kwargs (s : symbolic) a' k' s1 :
  check_args (pyfn s) args kwargs s = (inr (a', k'), s1) ->
  calls (sym_world (trace args kwargs s).2)
  = calls (sym_world s) ++ [EvTrace a' k'].
Proof.
  intros Hch. rewrite trace_run, Hch.
  apply check_args_frame in Hch as [n ->]. cbn zeta.
  destruct (ctx_call _ _ _ _) as [[e|[res svars]] e']; [done|].
  destruct (orderedcallargs _ _ _) as [e|ca]; [done|].
  destruct (forM_ (collect_arg _) _ _) as [[e|[]] s3] eqn:Ha.
  - apply (forM_keeps _ (collect_arg_keeps _)) in Ha as (_&_&_&Hc&_).
    cbn [snd]. by rewrite Hc.
  - apply (forM_keeps _ (collect_arg_keeps _)) in Ha as (_&_&_&Hc&_).
    destruct (forM_ collect_result _ _) as [r s4] eqn:Hr.
    apply collect_results_keeps in Hr as ((_&_&_&Hc'&_)&_).
    cbn [snd]. by rewrite Hc', Hc.
Qed.
End keeps_facts.

(** ** Argument pre-processing of [trace] *)

Section preprocessing.
Context `{Engine}.

(** C10: when [trace] raises during argument pre-processing, [s_vars],
    [s_args] and [s_results] are left as they were, holding what the previous
    trace put there: the arguments are checked before the dictionaries are
    cleared. *)
Theorem trace_check_error_keeps_maps args kwargs (s : symbolic) e s1 :
  check_args (pyfn s) args kwargs s = (inl e, s1) ->
  exists s', trace args kwargs s = (inl e, s') /\
             s_vars s' = s_vars s /\ s_args s' = s_args s /\
             s_results s' = s_results s.
Proof.
  intros Hch. exists s1. rewrite trace_run, Hch.
  apply check_args_frame in Hch as [n ->]. done.
Qed.

Lemma named_args_names f args kwargs name a :
  (name, a) ∈ named_args f args kwargs ->
  is_Some (func_varargs f) \/ length args <= length (func_args f) ->
  is_Some name.
Proof.
  unfold named_args. rewrite !elem_of_app, !list_elem_of_fmap.
  intros [([n x] & [= -> _] & _) | [(x & [= -> _] & Hx) | ([n x] & [= -> _] & _)]];
    intros Hc; try by eexists.
  destruct Hc as [Hva|Hlen]; [done|].
  rewrite drop_ge in Hx by done. by apply elem_of_nil in Hx.
Qed.

(** C4: a container among the arguments of [trace] makes it raise during
    argument pre-processing, before the function is run: the error is that
    of the first container in checking order and gives that argument and its
    name to the message, and no collaborator has been called. *)
Theorem trace_rejects_containers args kwargs (s : symbolic) a :
  a ∈ args ++ od_values kwargs -> is_container (oval a) = true ->
  exists pre name b post s',
    named_args (pyfn s) args kwargs = pre ++ (name, b) :: post /\
    Forall (fun x => is_container (oval x.2) = false) pre /\
    is_container (oval b) = true /\
    trace args kwargs s
    = (inl (TypeError container_msg [FObj b; fname name]), s') /\
    calls (sym_world s') = calls (sym_world s) /\
    eng (sym_world s') = eng (sym_world s) /\
    (is_Some (func_varargs (pyfn s)) \/
     length args <= length (func_args (pyfn s)) -> is_Some name).
Proof.
  intros Hin Hc.
  destruct (check_args_container (pyfn s) args kwargs s a Hin Hc)
    as (e & s1 & Hch).
  destruct (check_args_fail _ _ _ _ _ _ Hch)
    as (pre & name & b & post & Hna & Hpre & Hb & -> & Hs1).
  exists pre, name, b, post, s1. split_and!; try done.
  - by rewrite trace_run, Hch.
  - by rewrite Hs1.
  - by rewrite Hs1.
  - apply (named_args_names (pyfn s) args kwargs name b).
    rewrite Hna, elem_of_app, elem_of_cons. tauto.
Qed.
End preprocessing.

Section preprocessing_examples.
#[local] Existing Instance first_engine.

Lemma trace_check_error_keeps_maps_witness :
  check_args (pyfn sym_first_traced) [list_123] [] sym_first_traced
  = (inl (TypeError container_msg [FObj list_123; FStr "x"]),
     sym_first_traced) /\
  exists s', trace [list_123] [] sym_first_traced
             = (inl (TypeError container_msg [FObj list_123; FStr "x"]), s') /\
             s_vars s' = s_vars sym_first_traced /\
             s_args s' = s_args sym_first_traced /\
             s_results s' = s_results sym_first_traced.
Proof.
  split; [reflexivity|].
  apply (trace_check_error_keeps_maps [list_123] []
           sym_first_traced _ sym_first_traced).
  reflexivity.
Defined.

Lemma trace_rejects_containers_witness :
  list_123 ∈ [list_123] ++ od_values (@nil (string * obj)) /\
  is_container (oval list_123) = true /\
  exists pre name b post s',
    named_args (pyfn sym_first_traced) [list_123] []
    = pre ++ (name, b) :: post /\
    Forall (fun x => is_container (oval x.2) = false) pre /\
    is_container (oval b) = true /\
    trace [list_123] [] sym_first_traced
    = (inl (TypeError container_msg [FObj b; fname name]), s') /\
    calls (sym_world s') = calls (sym_world sym_first_traced) /\
    eng (sym_world s') = eng (sym_world sym_first_traced) /\
    (is_Some (func_varargs (pyfn sym_first_traced)) \/
     length [list_123] <= length (func_args (pyfn sym_first_traced)) ->
     is_Some name).
Proof.
  assert (Hin : list_123 ∈ [list_123] ++ od_values (@nil (string * obj)))
    by apply list_elem_of_here.
  split; [exact Hin|]. split; [reflexivity|].
  apply (trace_rejects_containers [list_123] []
           sym_first_traced list_123 Hin eq_refl).
Defined.
End preprocessing_examples.

(** ** Boxing of the small integers *)

Lemma fst_imap_keys {A B C} (g : nat -> A * B -> C) (l : list (A * B)) :
  (imap (fun i kv => (kv.1, g i kv)) l).*1 = l.*1.
Proof.
  revert g. induction l as [|x l IH]; intros g; simpl; [done|].
  f_equal. apply (IH (g ∘ S)).
Qed.

Section boxing.
Context `{Engine}.

Local Abbreviation is_small a := (is_Some (small_int (oval a))).
Local Abbreviation smalls l := (length (filter (fun a => is_small a) l)).

Lemma smalls_take_S (l : list obj) i a :
  l !! i = Some a ->
  smalls (take (S i) l)
  = smalls (take i l) + (if decide (is_small a) then 1 else 0).
Proof.
  intros Hi. rewrite (take_S_r _ _ _ Hi), filter_app, length_app. f_equal.
  case_decide.
  - by rewrite filter_cons_True.
  - by rewrite filter_cons_False.
Qed.

Lemma smalls_take_mono (l : list obj) i j :
  i <= j -> smalls (take i l) <= smalls (take j l).
Proof.
  intros Hij. replace j with (i + (j - i)) by lia.
  rewrite <- take_take_drop, filter_app, length_app. lia.
Qed.

Lemma checked_small base k a z :
  small_int (oval a) = Some z -> checked base k a = Obj (base + k) (VNpInt z).
Proof. unfold checked. by intros ->. Qed.

Lemma checked_other base k a :
  small_int (oval a) = None -> checked base k a = a.
Proof. unfold checked. by intros ->. Qed.

(** Two arguments, one of them a small integer, come out of the check at
    two identities. *)
Lemma checked_distinct base (ins : list obj) i j a b :
  i <> j -> ins !! i = Some a -> ins !! j = Some b ->
  is_small a -> (small_int (oval b) = None -> oid b < base) ->
  oid (checked base (smalls (take i ins)) a)
  <> oid (checked base (smalls (take j ins)) b).
Proof.
  intros Hij Hi Hj [z Hz] Hb. rewrite (checked_small _ _ _ _ Hz).
  destruct (small_int (oval b)) as [z'|] eqn:Hz'.
  - rewrite (checked_small _ _ _ _ Hz'). cbn [oid].
    pose proof (smalls_take_S ins i a Hi) as Hsi.
    pose proof (smalls_take_S ins j b Hj) as Hsj.
    rewrite decide_True in Hsi by (by rewrite Hz).
    rewrite decide_True in Hsj by (by rewrite Hz').
    destruct (decide (i < j)).
    + pose proof (smalls_take_mono ins (S i) j). lia.
    + pose proof (smalls_take_mono ins (S j) i). lia.
  - rewrite checked_other by done. cbn [oid]. specialize (Hb eq_refl). lia.
Qed.

(** C3: before [trace] runs the function, every argument (positional, further
    positional or keyword) that is a plain [int] between -5 and 256 is replaced
    by a new [numpy.int_] of the same value; the other arguments are passed as
    they are.  The boxed integers sit at new identities, so that no two
    arguments of which one was a small integer share an identity (under which
    the run would shadow them by one node). *)
Theorem trace_boxes_small_ints args kwargs (s : symbolic) :
  NoDup (od_keys kwargs) ->
  Forall (fun a => is_container (oval a) = false) (args ++ od_values kwargs) ->
  Forall (fun a => oid a < next_id (sym_world s)) (args ++ od_values kwargs) ->
  exists a' k',
    calls (sym_world (trace args kwargs s).2)
    = calls (sym_world s) ++ [EvTrace a' k'] /\
    length a' = length args /\ od_keys k' = od_keys kwargs /\
    let ins := args ++ od_values kwargs in
    let outs := a' ++ od_values k' in
    (forall i a, ins !! i = Some a -> small_int (oval a) = None ->
       outs !! i = Some a) /\
    (forall i a z, ins !! i = Some a -> small_int (oval a) = Some z ->
       exists a1, outs !! i = Some a1 /\ oval a1 = VNpInt z /\
                  next_id (sym_world s) <= oid a1) /\
    (forall i j a a1 b1,
       i <> j -> ins !! i = Some a -> is_Some (small_int (oval a)) ->
       outs !! i = Some a1 -> outs !! j = Some b1 -> oid a1 <> oid b1).
Proof.
  intros Hnd Hnc Hold.
  destruct (check_args (pyfn s) args kwargs s) as [[e|[a' k']] s1] eqn:Hch.
  { apply check_args_fail in Hch as (pre & name & b & post & Hna & _ & Hb & _).
    pose proof (named_args_values (pyfn s) args kwargs) as Hv.
    rewrite Hna, fmap_app, fmap_cons in Hv. rewrite <- Hv in Hnc.
    apply Forall_app in Hnc as [_ Hnc]. apply Forall_cons in Hnc as [Hnc _].
    simpl in Hnc. congruence. }
  exists a', k'. split; [by eapply trace_calls|].
  apply check_args_ok in Hch as (_ & _ & -> & ->).
  set (base := next_id (sym_world s)). set (ins := args ++ od_values kwargs).
  set (F := fun i a => checked base (smalls (take i ins)) a).
  set (kw' := imap (fun i (kv : string * obj) =>
                      (kv.1, F (length args + i) kv.2)) kwargs).
  assert (Hkeys : kw'.*1 = kwargs.*1)
    by apply (fst_imap_keys (fun i kv => F (length args + i) kv.2)).
  rewrite (od_of_list_NoDup kw') by (rewrite Hkeys; exact Hnd).
  assert (Houts : imap F args ++ od_values kw' = imap F ins).
  { unfold ins. rewrite imap_app. f_equal. unfold od_values, kw'.
    change (map snd ?l) with (l.*2). rewrite fmap_imap, imap_fmap.
    by apply imap_ext. }
  split; [apply length_imap|]. split; [exact Hkeys|].
  cbn zeta. rewrite Houts. split_and!.
  - intros i a Hi Ha. rewrite list_lookup_imap, Hi. cbn.
    unfold F. by rewrite checked_other.
  - intros i a z Hi Ha. eexists. rewrite list_lookup_imap, Hi. cbn.
    unfold F. rewrite (checked_small _ _ _ _ Ha). split_and!; [done..|].
    cbn. lia.
  - intros i j a a1 b1 Hij Hi Ha. rewrite !list_lookup_imap, Hi. cbn.
    intros [= <-]. destruct (ins !! j) as [b|] eqn:Hj; [|done]. cbn.
    intros [= <-]. apply checked_distinct; try done.
    intros _. rewrite Forall_forall in Hold. apply Hold.
    apply list_elem_of_lookup. eauto.
Qed.
End boxing.

Section boxing_examples.
#[local] Existing Instance echo_engine.

Lemma trace_boxes_small_ints_witness :
  NoDup (od_keys [("a", int_1)]) /\
  Forall (fun a => is_container (oval a) = false)
         ([int_1; int_1; int_1] ++ od_values [("a", int_1)]) /\
  Forall (fun a => oid a < next_id (sym_world sym_echo))
         ([int_1; int_1; int_1] ++ od_values [("a", int_1)]) /\
  exists a' k',
    calls (sym_world (trace [int_1; int_1; int_1] [("a", int_1)] sym_echo).2)
    = calls (sym_world sym_echo) ++ [EvTrace a' k'] /\
    length a' = length [int_1; int_1; int_1] /\
    od_keys k' = od_keys [("a", int_1)] /\
    let ins := [int_1; int_1; int_1] ++ od_values [("a", int_1)] in
    let outs := a' ++ od_values k' in
    (forall i a, ins !! i = Some a -> small_int (oval a) = None ->
       outs !! i = Some a) /\
    (forall i a z, ins !! i = Some a -> small_int (oval a) = Some z ->
       exists a1, outs !! i = Some a1 /\ oval a1 = VNpInt z /\
                  next_id (sym_world sym_echo) <= oid a1) /\
    (forall i j a a1 b1,
       i <> j -> ins !! i = Some a -> is_Some (small_int (oval a)) ->
       outs !! i = Some a1 -> outs !! j = Some b1 -> oid a1 <> oid b1).
Proof.
  assert (H1 : NoDup (od_keys [("a", int_1)])) by apply NoDup_singleton.
  assert (H2 : Forall (fun a => is_container (oval a) = false)
                 ([int_1; int_1; int_1] ++ od_values [("a", int_1)]))
    by (repeat constructor).
  assert (H3 : Forall (fun a => oid a < next_id (sym_world sym_echo))
                 ([int_1; int_1; int_1] ++ od_values [("a", int_1)]))
    by (repeat constructor; vm_compute; lia).
  split; [exact H1|]. split; [exact H2|]. split; [exact H3|].
  exact (trace_boxes_small_ints [int_1; int_1; int_1] [("a", int_1)]
           sym_echo H1 H2 H3).
Defined.

(** The call of the witness, run: the four occurrences of the one integer
    reach the function as four objects. *)
Example trace_boxes_run :
  calls (sym_world (trace [int_1; int_1; int_1] [("a", int_1)] sym_echo).2)
  = [EvTrace [Obj 10 (VNpInt 1); Obj 11 (VNpInt 1); Obj 12 (VNpInt 1)]
             [("a", Obj 13 (VNpInt 1))]].
Proof. reflexivity. Qed.
End boxing_examples.

(** ** The dictionaries are rebuilt by every trace *)

Section rebuild.
Context `{Engine}.


End rebuild.

Section rebuild_examples.
#[local] Existing Instance first_engine.



(** Re-tracing on another input: the bindings of the first trace are gone. *)
Example retrace_run :
  s_vars sym_first_traced = [(1, 101)] /\
  s_vars (trace [Obj 3 (VFloat 5)] [] sym_first_traced).2 = [(3, 103)] /\
  s_args (trace [Obj 3 (VFloat 5)] [] sym_first_traced).2 = [("x", SVar 103)] /\
  s_results (trace [Obj 3 (VFloat 5)] [] sym_first_traced).2 = [(3, 103)].
Proof. split_and!; reflexivity. Qed.
End rebuild_examples.

(** ** The bindings of a trace *)

(** [NoDup] of a list of given strings. *)
Ltac solve_NoDup :=
  repeat (apply NoDup_cons_2;
          [rewrite ?not_elem_of_cons; repeat split;
           first [discriminate | apply not_elem_of_nil] |]);
  apply NoDup_nil_2.

Lemma Forall_or_first {A} (P : A -> Prop) `{!forall x, Decision (P x)}
    (l : list A) :
  Forall P l \/
  exists pre x post, l = pre ++ x :: post /\ Forall P pre /\ ~ P x.
Proof.
  induction l as [|x l IH]; [by left|].
  destruct (decide (P x)) as [Hx|Hx].
  - destruct IH as [IH|(pre & y & post & -> & Hpre & Hy)].
    + left. by constructor.
    + right. exists (x :: pre), y, post. split_and!; [done | | done].
      by constructor.
  - right. exists [], x, l. by split_and!.
Qed.

Section bindings.
Context `{Engine}.

Local Abbreviation traced vars a := (is_Some (od_get (oid a) vars)).
Local Abbreviation shaped f na :=
  (match na.2 with
   | BTuple _ => func_varargs f = Some na.1
   | BBag _ => func_varargs f <> Some na.1 /\ func_keywords f = Some na.1
   | BVal _ => func_varargs f <> Some na.1 /\ func_keywords f <> Some na.1
   end).
Local Abbreviation entry_keys na :=
  (match na.2 with
   | BBag items => items.*1
   | _ => [na.1]
   end).

(** The entries of the binder have the shape that [collect_arg] expects, and
    their keys are the declared names, the variadic name and the keys of the
    bag. *)
Lemma orderedcallargs_shaped f args kwargs ca :
  wf_signature f ->
  orderedcallargs f args kwargs = inr ca ->
  Forall (fun na => shaped f na) ca /\
  forall n, n ∈ concat ((fun na => entry_keys na) <$> ca) <->
            n ∈ func_args f \/ func_varargs f = Some n \/
            (is_Some (func_keywords f) /\ n ∈ kwargs.*1 /\ n ∉ func_args f).
Proof.
  intros Hwf Hca.
  destruct (orderedcallargs_inr f args kwargs ca Hwf Hca)
    as (declared & Hn & Hv & -> & _ & _).
  unfold wf_signature, declared_parameters in Hwf.
  apply NoDup_app in Hwf as (_ & Hdis & Hwf2).
  assert (Hdecl : Forall (fun na => shaped f na) declared /\
                  concat ((fun na => entry_keys na) <$> declared)
                  = func_args f).
  { rewrite <- Hn in Hdis |- *. clear Hn Hca.
    induction Hv as [|[n b] declared [v Hb] _ IH]; [done|].
    simpl in Hb. subst b. destruct IH as [IH1 IH2].
    { intros x Hx. apply Hdis. rewrite fmap_cons. by apply list_elem_of_further. }
    split.
    - constructor; [|done]. cbn [fst snd].
      assert (Hnot : n ∉ option_list (func_varargs f)
                         ++ option_list (func_keywords f)).
      { apply Hdis. rewrite fmap_cons. apply list_elem_of_here. }
      rewrite not_elem_of_app in Hnot. destruct Hnot as [Hva Hkw].
      split; intros Heq; [apply Hva | apply Hkw]; rewrite Heq;
        apply list_elem_of_here.
    - rewrite !fmap_cons. cbn [concat fst snd app]. by rewrite IH2. }
  destruct Hdecl as [Hsh Hkeys]. split.
  - apply Forall_app. split; [done|]. apply Forall_app. split.
    + destruct (func_varargs f); constructor; [done | constructor].
    + destruct (func_keywords f) as [kw|] eqn:Hkw; constructor;
        [|constructor]. cbn [fst snd]. split; [|done].
      destruct (func_varargs f) as [va|]; [|done]. intros [= ->].
      apply NoDup_cons in Hwf2 as [Hnin _]. apply Hnin, list_elem_of_here.
  - intros n. rewrite !fmap_app, !concat_app, !elem_of_app, Hkeys.
    assert (Hva : n ∈ concat ((fun na : string * bound => entry_keys na) <$>
                     match func_varargs f with
                     | Some va =>
                         [(va, BTuple (drop (length (func_args f)) args))]
                     | None => []
                     end) <-> func_varargs f = Some n).
    { destruct (func_varargs f) as [va|]; simpl.
      - rewrite list_elem_of_singleton.
        split; [by intros -> | by intros [= ->]].
      - rewrite elem_of_nil. split; [done|by intros ?]. }
    assert (Hkw : n ∈ concat ((fun na : string * bound => entry_keys na) <$>
                     match func_keywords f with
                     | Some kw =>
                         [(kw, BBag (filter (fun kv => kv.1 ∉ func_args f)
                                            kwargs))]
                     | None => []
                     end) <->
                  is_Some (func_keywords f) /\ n ∈ kwargs.*1 /\
                  n ∉ func_args f).
    { destruct (func_keywords f) as [kw|]; simpl.
      - rewrite ?app_nil_r, list_elem_of_fmap. split.
        + intros ([k v] & -> & [Hnin Hin]%list_elem_of_filter).
          split; [by eexists|]. split; [|done].
          apply list_elem_of_fmap. by exists (k, v).
        + intros (_ & ([k v] & -> & Hin)%list_elem_of_fmap & Hnin).
          exists (k, v). split; [done|]. by apply list_elem_of_filter.
      - rewrite elem_of_nil. split; [done|]. by intros [[? [=]] _]. }
    rewrite Hva, Hkw. tauto.
Qed.

Lemma check_args_keys f args kwargs (s : symbolic) a' k' s1 n :
  check_args f args kwargs s = (inr (a', k'), s1) ->
  n ∈ k'.*1 <-> n ∈ od_keys kwargs.
Proof.
  intros (_ & _ & _ & ->)%check_args_ok.
  change (?l.*1) with (od_keys l) at 1. rewrite od_keys_of_list_elem.
  by rewrite (fst_imap_keys (fun i kv => checked _ _ kv.2)).
Qed.

(** A trace that returns has found every bound value and every result in
    what the run shadowed. *)
Lemma trace_inr args kwargs (s s' : symbolic) :
  wf_signature (pyfn s) ->
  trace args kwargs s = (inr tt, s') ->
  exists a' k' s1 res svars e' ca s3,
    check_args (pyfn s) args kwargs s = (inr (a', k'), s1) /\
    ctx_call (pyfn s) a' k' (eng (sym_world s)) = (inr (res, svars), e') /\
    orderedcallargs (pyfn s) a' k' = inr ca /\
    Forall (fun a => traced (od_of_list svars) a)
           (bound_values (pyfn s) ca).*2 /\
    Forall (fun r => traced (od_of_list svars) r) (result_items res) /\
    s_vars s3 = od_of_list svars /\ s_results s3 = [] /\
    NoDup (od_keys (s_args s3)) /\
    (forall n, n ∈ od_keys (s_args s3) <->
               n ∈ concat ((fun na => entry_keys na) <$> ca)) /\
    s' = set_s_results
           (fun d => od_update d
              (omap (fun r : obj =>
                       pair (oid r) <$> od_get (oid r) (od_of_list svars))
                    (result_items res))) s3.
Proof.
  intros Hwf. rewrite trace_run.
  destruct (check_args (pyfn s) args kwargs s) as [[e|[a' k']] s1] eqn:Hch;
    [done|].
  destruct (check_args_frame _ _ _ _ _ _ Hch) as [n Hs1]. rewrite Hs1.
  cbn zeta. change (eng (log _ _)) with (eng (sym_world s)).
  destruct (ctx_call _ _ _ _) as [[e|[res svars]] e'] eqn:Hctx; [done|].
  destruct (orderedcallargs _ _ _) as [e|ca] eqn:Hca; [done|].
  destruct (orderedcallargs_shaped _ _ _ _ Hwf Hca) as [Hsh _].
  match goal with |- context [forM_ (collect_arg _) ca ?x] => set (s2 := x) end.
  destruct (Forall_or_first (fun a => traced (s_vars s2) a)
              (bound_values (pyfn s) ca).*2)
    as [Hall|(pre & x & post & Heq & Hpre & Hx)].
  2:{ apply fmap_app_inv in Heq as (pre' & rest' & -> & Hrest & Hbv).
      destruct rest' as [|[sl y] post']; [done|].
      rewrite fmap_cons in Hrest. injection Hrest as -> ->.
      apply eq_None_not_Some in Hx.
      destruct (collect_args_fail _ _ _ _ _ _ s2 Hsh Hbv Hpre Hx)
        as (s3 & -> & _). done. }
  destruct (collect_args_prefix (pyfn s) ca [] s2 Hsh Hall)
    as (s3 & Hs3 & Hv3 & Hr3 & _ & _ & _ & _ & _ & Hnd & Hk).
  rewrite app_nil_r in Hs3. rewrite Hs3. cbn [forM_ ret].
  destruct (Forall_or_first (fun r => traced (s_vars s3) r) (result_items res))
    as [Hres|(pre & x & post & Heq & Hpre & Hx)].
  2:{ apply eq_None_not_Some in Hx. rewrite Heq.
      by rewrite collect_results_fail. }
  rewrite collect_results_ok by done. intros [= <-].
  exists a', k', s1, res, svars, e', ca, s3. rewrite Hv3 in *.
  split_and!; try done.
  - by rewrite Hs1.
  - apply Hnd. apply NoDup_nil_2.
  - intros m. rewrite Hk. simpl. rewrite elem_of_nil. tauto.
Qed.
End bindings.

Section bindings_examples.
#[local] Existing Instance twice_engine.

(** C5, as stated, fails on a function of [x] and a keyword bag that returns
    [x] twice, called with two keywords: two declared parameters and three
    entries in [s_args], two returned values and one entry in [s_results]. *)
Lemma trace_bindings_counterexample :
  let call := trace [float_a] [("a", float_b); ("b", float_c)] sym_twice in
  call.1 = inr tt /\
  ctx_call (pyfn sym_twice) [float_a] [("a", float_b); ("b", float_c)]
    (eng (sym_world sym_twice))
  = (inr (RTuple 999 [float_a; float_a],
          [(1, 101); (2, 102); (3, 103)]), 1000) /\
  length (s_args call.2) <> length (declared_parameters (pyfn sym_twice)) /\
  length (s_results call.2) <> length [float_a; float_a].
Proof.
  split_and!; [vm_compute; reflexivity | vm_compute; reflexivity
              | by vm_compute | by vm_compute].
Qed.
End bindings_examples.

(** ** Values that the run did not shadow *)

Section untraceable.
Context `{Engine}.

Local Abbreviation traced vars a := (is_Some (od_get (oid a) vars)).

(** The index of an [Item] slot is the position in the variadic tuple,
    counted from 0 as [enumerate] does. *)
Lemma bound_values_item f (ca : odict string bound) name items i a :
  (name, BTuple items) ∈ ca -> func_varargs f = Some name ->
  items !! i = Some a ->
  (Item name i, a) ∈ bound_values f ca.
Proof.
  intros Hin Hva Hi.
  induction ca as [|na ca IH]; [by apply elem_of_nil in Hin|].
  rewrite bound_values_cons, elem_of_app.
  apply elem_of_cons in Hin as [<-|Hin]; [left|right; by apply IH].
  unfold entry_values. rewrite decide_True by done.
  apply list_elem_of_lookup. exists i. by rewrite list_lookup_imap, Hi.
Qed.

(** C7, as the code has it: after the run, the first bound value whose
    identity the run did not shadow makes [trace] raise the untraceable-argument
    error of its slot, which names the parameter or the keyword and, for an
    element of the variadic tuple, the parameter and the index of the element
    counted from 0; when every bound value is found, the first result that
    is not makes it raise the untraceable-result error with the index of the
    result counted from 1. *)
Theorem trace_untraceable args kwargs (s : symbolic) a' k' s1 res svars e' ca :
  wf_signature (pyfn s) ->
  check_args (pyfn s) args kwargs s = (inr (a', k'), s1) ->
  ctx_call (pyfn s) a' k' (eng (sym_world s)) = (inr (res, svars), e') ->
  orderedcallargs (pyfn s) a' k' = inr ca ->
  (forall pre sl a post,
     bound_values (pyfn s) ca = pre ++ (sl, a) :: post ->
     Forall (fun a => traced (od_of_list svars) a) pre.*2 ->
     od_get (oid a) (od_of_list svars) = None ->
     (trace args kwargs s).1 = inl (untraceable sl)) /\
  (forall name items i a,
     (name, BTuple items) ∈ ca -> func_varargs (pyfn s) = Some name ->
     items !! i = Some a -> (Item name i, a) ∈ bound_values (pyfn s) ca) /\
  (Forall (fun a => traced (od_of_list svars) a)
          (bound_values (pyfn s) ca).*2 ->
   forall pre r post,
     result_items res = pre ++ r :: post ->
     Forall (fun r => traced (od_of_list svars) r) pre ->
     od_get (oid r) (od_of_list svars) = None ->
     (trace args kwargs s).1
     = inl (KeyError result_msg [FNat (length pre + 1)])).
Proof.
  intros Hwf Hch Hctx Hca.
  destruct (orderedcallargs_shaped _ _ _ _ Hwf Hca) as [Hsh _].
  assert (Hrun : trace args kwargs s =
            let s2 := Symbolic
                        (set_eng e' (log (EvTrace a' k') (sym_world s1)))
                        (pyfn s) (od_of_list svars) [] [] (cache s) in
            match forM_ (collect_arg (pyfn s)) ca s2 with
            | (inl e, s3) => (inl e, s3)
            | (inr _, s3) =>
                forM_ collect_result (enumerate (result_items res)) s3
            end).
  { rewrite trace_run, Hch. cbn zeta.
    destruct (check_args_frame _ _ _ _ _ _ Hch) as [n Hs1].
    replace (eng (log (EvTrace a' k') (sym_world s1)))
      with (eng (sym_world s)) by (by rewrite Hs1).
    by rewrite Hctx, Hca. }
  rewrite Hrun. cbn zeta.
  set (s2 := Symbolic (set_eng e' (log (EvTrace a' k') (sym_world s1)))
                      (pyfn s) (od_of_list svars) [] [] (cache s)).
  split_and!.
  - intros pre sl a post Hbv Hpre Ha.
    destruct (collect_args_fail (pyfn s) ca pre sl a post s2 Hsh Hbv Hpre Ha)
      as (s3 & -> & _). done.
  - intros name items i a. apply bound_values_item.
  - intros Hall pre r post Hres Hpre Hr.
    destruct (collect_args_prefix (pyfn s) ca [] s2 Hsh Hall)
      as (s3 & Hs3 & Hv3 & _).
    rewrite app_nil_r in Hs3. rewrite Hs3. cbn [forM_ ret]. rewrite Hres.
    rewrite collect_results_fail; [done | by rewrite Hv3 | by rewrite Hv3].
Qed.
End untraceable.

Section untraceable_examples.
#[local] Existing Instance blind_engine.

(** C7, as stated, fails on a function of a variadic parameter [args] whose
    first further argument escapes the run: the error gives the index 0, not
    the 1-based index 1. *)
Lemma trace_untraceable_counterexample :
  (trace [float_a] [] sym_blind).1
  = inl (KeyError vararg_msg [FNat 0; FStr "args"]) /\
  (trace [float_a] [] sym_blind).1
  <> inl (KeyError vararg_msg [FNat 1; FStr "args"]).
Proof. split; [vm_compute; reflexivity | by vm_compute]. Qed.

Lemma trace_untraceable_witness :
  wf_signature (pyfn sym_blind) /\
  check_args (pyfn sym_blind) [float_a] [] sym_blind
  = (inr ([float_a], []), sym_blind) /\
  ctx_call (pyfn sym_blind) [float_a] [] (eng (sym_world sym_blind))
  = (inr (RTuple 999 [float_a], []), 1000) /\
  orderedcallargs (pyfn sym_blind) [float_a] []
  = inr [("args", BTuple [float_a])] /\
  ((forall pre sl a post,
      bound_values (pyfn sym_blind) [("args", BTuple [float_a])]
      = pre ++ (sl, a) :: post ->
      Forall (fun a => is_Some (od_get (oid a) (od_of_list (@nil (nat * node)))))
             pre.*2 ->
      od_get (oid a) (od_of_list (@nil (nat * node))) = None ->
      (trace [float_a] [] sym_blind).1 = inl (untraceable sl)) /\
   (forall name items i a,
      (name, BTuple items) ∈ [("args", BTuple [float_a])] ->
      func_varargs (pyfn sym_blind) = Some name ->
      items !! i = Some a ->
      (Item name i, a)
      ∈ bound_values (pyfn sym_blind) [("args", BTuple [float_a])]) /\
   (Forall (fun a => is_Some (od_get (oid a) (od_of_list (@nil (nat * node)))))
           (bound_values (pyfn sym_blind) [("args", BTuple [float_a])]).*2 ->
    forall pre r post,
      result_items (RTuple 999 [float_a]) = pre ++ r :: post ->
      Forall (fun r => is_Some (od_get (oid r) (od_of_list (@nil (nat * node)))))
             pre ->
      od_get (oid r) (od_of_list (@nil (nat * node))) = None ->
      (trace [float_a] [] sym_blind).1
      = inl (KeyError result_msg [FNat (length pre + 1)]))).
Proof.
  assert (H1 : wf_signature (pyfn sym_blind))
    by (unfold wf_signature; vm_compute; solve_NoDup).
  assert (H2 : check_args (pyfn sym_blind) [float_a] [] sym_blind
               = (inr ([float_a], []), sym_blind))
    by (vm_compute; reflexivity).
  assert (H3 : ctx_call (pyfn sym_blind) [float_a] []
                 (eng (sym_world sym_blind))
               = (inr (RTuple 999 [float_a], []), 1000))
    by (vm_compute; reflexivity).
  assert (H4 : orderedcallargs (pyfn sym_blind) [float_a] []
               = inr [("args", BTuple [float_a])])
    by (vm_compute; reflexivity).
  split; [exact H1|]. split; [exact H2|]. split; [exact H3|].
  split; [exact H4|].
  exact (trace_untraceable [float_a] [] sym_blind _ _ _ _ _ _ _ H1 H2 H3 H4).
Defined.
End untraceable_examples.

(** ** [Gradient] *)

Lemma mapM_pure {S A B} (f : A -> M S B) (p : A -> exn + B) l s :
  (forall x s1, f x s1 = (p x, s1)) -> mapM f l s = (mapE p l, s).
Proof.
  intros Hf. induction l as [|x l IH]; [done|].
  cbn [mapM mapE]. unfold bind. rewrite Hf.
  destruct (p x) as [e|y]; [done|]. rewrite IH.
  by destruct (mapE p l).
Qed.

Lemma mapE_Forall2 {A B} (p : A -> exn + B) l ys :
  mapE p l = inr ys <-> Forall2 (fun x y => p x = inr y) l ys.
Proof.
  split; [apply mapE_inr|].
  induction 1 as [|x y l ys Hxy _ IH]; [done|].
  simpl. by rewrite Hxy, IH.
Qed.

Section gradient_facts.
Context `{Engine}.

(** The node of an object in what a run shadowed. *)
Local Abbreviation node_of svars :=
  (fun a : obj =>
     match od_get (oid a) (od_of_list svars) with
     | Some v => inr v
     | None => inl (KeyError "{0}" [FNat (oid a)])
     end).

Lemma svars_lookup_pure svars i (g : gradient) :
  svars_lookup svars i g
  = (match od_get i (od_of_list svars) with
     | Some v => inr v
     | None => inl (KeyError "{0}" [FNat i])
     end, g).
Proof. unfold svars_lookup. by destruct (od_get i (od_of_list svars)). Qed.

(** Building the gradient artifact: one run of the function, the nodes of
    the positional arguments then of the keyword values, one call of the
    differentiation, one compilation. *)
Lemma build_grad_fn_inr args kwargs (g g1 : gradient) :
  build_grad_fn args kwargs g = (inr tt, g1) ->
  exists res svars e1 wrt cost grad e2 gfn e3,
    ctx_call (_fn g) args kwargs (eng (grad_world g))
    = (inr (res, svars), e1) /\
    Forall2 (fun a v => od_get (oid a) (od_of_list svars) = Some v)
            (args ++ od_values kwargs) wrt /\
    od_get (result_id res) (od_of_list svars) = Some cost /\
    tt_grad cost wrt e1 = (inr grad, e2) /\
    theano_function [InList wrt] (unwrap_grad grad) [] e2 = (inr gfn, e3) /\
    g1 = Gradient
           (World (next_id (grad_world g)) (names (grad_world g)) e3
              (calls (grad_world g)
               ++ [EvTrace args kwargs; EvGrad cost wrt;
                   EvCompile [InList wrt] (unwrap_grad grad)]))
           (_fn g) (Some gfn) (Some (unwrap_grad grad)).
Proof.
  unfold build_grad_fn, bind, gets, on_KeyError, call_ext, modify, ret.
  cbn [world_of gradient_store eng log].
  destruct (ctx_call _ _ _ _) as [[e|[res svars]] e1]; [done|].
  rewrite (mapM_pure _ (node_of svars))
    by (intros; apply svars_lookup_pure).
  destruct (mapE (node_of svars) args) as [[c t fa]|sa] eqn:Hsa.
  { case_decide; [unfold print, liftW; simpl|]; done. }
  rewrite (mapM_pure _ (node_of svars))
    by (intros; apply svars_lookup_pure).
  destruct (mapE (node_of svars) (od_values kwargs)) as [[c t fa]|sk] eqn:Hsk.
  { case_decide; [unfold print, liftW; simpl|]; done. }
  rewrite svars_lookup_pure.
  destruct (od_get (result_id res) (od_of_list svars)) as [cost|] eqn:Hcost.
  2:{ unfold KeyError, print, liftW. cbn. repeat case_decide; done. }
  cbn [world_of gradient_store with_world eng log set_eng grad_world].
  destruct (tt_grad _ _ _) as [[e|grad] e2] eqn:Hgrad; [done|].
  cbn [world_of gradient_store with_world eng log set_eng grad_world].
  destruct (theano_function _ _ _ _) as [[e|gfn] e3] eqn:Hfn; [done|].
  intros [= <-].
  exists res, svars, e1, (sa ++ sk), cost, grad, e2, gfn, e3.
  split_and!; try done.
  - apply Forall2_app.
    + apply mapE_Forall2 in Hsa.
      eapply Forall2_impl; [exact Hsa|]. intros a v. cbn beta.
      by destruct (od_get (oid a) (od_of_list svars)); intros [= ->].
    + apply mapE_Forall2 in Hsk.
      eapply Forall2_impl; [exact Hsk|]. intros a v. cbn beta.
      by destruct (od_get (oid a) (od_of_list svars)); intros [= ->].
  - unfold set_sym_grad, set_grad_fn, set_eng, log. cbn.
    by rewrite <- !app_assoc.
Qed.

(** Building the gradient artifact starts with a run of the function,
    whether it succeeds or not. *)
Lemma build_grad_fn_traces args kwargs (g : gradient) :
  exists l,
    calls (grad_world (build_grad_fn args kwargs g).2)
    = calls (grad_world g) ++ EvTrace args kwargs :: l.
Proof.
  unfold build_grad_fn, bind, gets, on_KeyError, call_ext, modify, ret.
  cbn [world_of gradient_store eng log].
  destruct (ctx_call _ _ _ _) as [[e|[res svars]] e1]; [eexists; cbn; rewrite <- ?app_assoc; cbn; reflexivity|].
  rewrite (mapM_pure _ (node_of svars))
    by (intros; apply svars_lookup_pure).
  destruct (mapE (node_of svars) args) as [[c t fa]|sa] eqn:Hsa.
  { case_decide; [unfold print, liftW|]; eexists; cbn;
      rewrite <- ?app_assoc; cbn; reflexivity. }
  rewrite (mapM_pure _ (node_of svars))
    by (intros; apply svars_lookup_pure).
  destruct (mapE (node_of svars) (od_values kwargs)) as [[c t fa]|sk] eqn:Hsk.
  { case_decide; [unfold print, liftW|]; eexists; cbn;
      rewrite <- ?app_assoc; cbn; reflexivity. }
  rewrite svars_lookup_pure.
  destruct (od_get (result_id res) (od_of_list svars)) as [cost|] eqn:Hcost.
  2:{ unfold KeyError, print, liftW. cbn. repeat case_decide;
        eexists; cbn; rewrite <- ?app_assoc; cbn; reflexivity. }
  cbn [world_of gradient_store with_world eng log set_eng grad_world].
  destruct (tt_grad _ _ _) as [[e|grad] e2] eqn:Hgrad.
  { eexists. cbn. rewrite <- ?app_assoc. cbn. reflexivity. }
  cbn [world_of gradient_store with_world eng log set_eng grad_world].
  destruct (theano_function _ _ _ _) as [[e|gfn] e3] eqn:Hfn;
    eexists; cbn; rewrite <- ?app_assoc; cbn; reflexivity.
Qed.

Lemma ensure_grad_fn_run args kwargs (g : gradient) :
  ensure_grad_fn args kwargs g
  = match _grad_fn g with
    | Some _ => (inr tt, g)
    | None => build_grad_fn args kwargs g
    end.
Proof. unfold ensure_grad_fn, bind, get. by destruct (_grad_fn g). Qed.

Lemma Gradient_call_run args kwargs (g : gradient) :
  Gradient_call args kwargs g
  = match ensure_grad_fn args kwargs g with
    | (inl e, g1) => (inl e, g1)
    | (inr _, g1) =>
        let all_args := args ++ od_values kwargs in
        match _grad_fn g1 with
        | Some gfn =>
            let w := log (EvInvoke all_args []) (grad_world g1) in
            match fn_call gfn all_args [] (eng (grad_world g1)) with
            | (inl e, e') =>
                (inl e, set_grad_fn None (with_world (set_eng e' w) g1))
            | (inr r, e') => (inr r, with_world (set_eng e' w) g1)
            end
        | None =>
            (inl (TypeError "'NoneType' object is not callable" []),
             set_grad_fn None g1)
        end
    end.
Proof.
  unfold Gradient_call. unfold bind at 1.
  destruct (ensure_grad_fn args kwargs g) as [[e|[]] g1]; [done|].
  unfold except_reraise, bind, get, call_ext.
  destruct (_grad_fn g1) as [gfn|]; [|done].
  cbn [world_of gradient_store eng log].
  by destruct (fn_call _ _ _ _) as [[e|r] e'].
Qed.

(** A call in the uncompiled state: it runs the function first, and if it
    returns it has differentiated, compiled and invoked, in this order. *)
Lemma Gradient_call_uncompiled args kwargs (g : gradient) :
  _grad_fn g = None ->
  exists l,
    calls (grad_world (Gradient_call args kwargs g).2)
    = calls (grad_world g) ++ EvTrace args kwargs :: l /\
    forall r g', Gradient_call args kwargs g = (inr r, g') ->
      exists cost wrt outs,
        l = [EvGrad cost wrt; EvCompile [InList wrt] outs;
             EvInvoke (args ++ od_values kwargs) []].
Proof.
  intros Hnone. rewrite Gradient_call_run, ensure_grad_fn_run, Hnone.
  destruct (build_grad_fn args kwargs g) as [[e|[]] g1] eqn:Hb.
  - destruct (build_grad_fn_traces args kwargs g) as [l Hl].
    rewrite Hb in Hl. exists l. split; [done|]. intros ? ? [=].
  - destruct (build_grad_fn_inr _ _ _ _ Hb)
      as (res & svars & e1 & wrt & cost & grad & e2 & gfn & e3 & _ & _ & _
          & _ & _ & ->).
    cbn [_grad_fn grad_world eng]. cbn zeta.
    eexists. split.
    + destruct (fn_call _ _ _ _) as [[e|r] e4]; cbn;
        rewrite <- app_assoc; cbn; reflexivity.
    + intros r g' _. by eexists _, _, _.
Qed.

(** After the block that builds it, the gradient artifact is there. *)
Lemma ensure_grad_fn_Some args kwargs (g g1 : gradient) :
  ensure_grad_fn args kwargs g = (inr tt, g1) -> is_Some (_grad_fn g1).
Proof.
  rewrite ensure_grad_fn_run.
  destruct (_grad_fn g) as [gfn|] eqn:Hg.
  - intros [= <-]. by rewrite Hg.
  - intros Hb. apply build_grad_fn_inr in Hb
      as (?&?&?&?&?&?&?&gfn&?&_&_&_&_&_&->). by eexists.
Qed.

(** C8: an error raised by the invocation of the gradient artifact, just
    built or cached, is raised to the caller and leaves the wrapper without
    an artifact ([grad_fn] is [None]); the next call then starts with a run of
    the function and compiles again before it invokes. *)
Theorem gradient_invocation_failure args kwargs (g g1 : gradient) gfn e e1 :
  ensure_grad_fn args kwargs g = (inr tt, g1) ->
  _grad_fn g1 = Some gfn ->
  fn_call gfn (args ++ od_values kwargs) [] (eng (grad_world g1))
  = (inl e, e1) ->
  exists g',
    Gradient_call args kwargs g = (inl e, g') /\ _grad_fn g' = None /\
    forall args2 kwargs2,
    exists l,
      calls (grad_world (Gradient_call args2 kwargs2 g').2)
      = calls (grad_world g') ++ EvTrace args2 kwargs2 :: l /\
      forall r g'', Gradient_call args2 kwargs2 g' = (inr r, g'') ->
        exists cost wrt outs,
          l = [EvGrad cost wrt; EvCompile [InList wrt] outs;
               EvInvoke (args2 ++ od_values kwargs2) []].
Proof.
  intros Hens Hfn Hcall. eexists. split; [|split].
  - rewrite Gradient_call_run, Hens, Hfn. cbn zeta. rewrite Hcall.
    reflexivity.
  - done.
  - intros args2 kwargs2. by apply Gradient_call_uncompiled.
Qed.

Lemma mapE_node_of (svars : list (nat * node)) (l : list obj)
    (vs : list node) :
  Forall2 (fun a v => od_get (oid a) (od_of_list svars) = Some v) l vs ->
  mapE (node_of svars) l = inr vs.
Proof.
  intros Hl. apply mapE_Forall2.
  eapply Forall2_impl; [exact Hl|]. intros a v Hv. cbn beta. by rewrite Hv.
Qed.

(** The block that builds the gradient artifact, once the run has returned
    and the nodes were found: the differentiation, then the compilation. *)
Lemma build_grad_fn_stages args kwargs (g : gradient) res svars e1 wrt cost :
  ctx_call (_fn g) args kwargs (eng (grad_world g)) = (inr (res, svars), e1) ->
  Forall2 (fun a v => od_get (oid a) (od_of_list svars) = Some v)
          (args ++ od_values kwargs) wrt ->
  od_get (result_id res) (od_of_list svars) = Some cost ->
  build_grad_fn args kwargs g
  = let w1 := calls (grad_world g) ++ [EvTrace args kwargs; EvGrad cost wrt] in
    let mk e l fn sg :=
      Gradient (World (next_id (grad_world g)) (names (grad_world g)) e l)
               (_fn g) fn sg in
    match tt_grad cost wrt e1 with
    | (inl e, e2) => (inl e, mk e2 w1 (_grad_fn g) (_sym_grad g))
    | (inr grad, e2) =>
        let w2 := w1 ++ [EvCompile [InList wrt] (unwrap_grad grad)] in
        match theano_function [InList wrt] (unwrap_grad grad) [] e2 with
        | (inl e, e3) => (inl e, mk e3 w2 (_grad_fn g) (_sym_grad g))
        | (inr gfn, e3) =>
            (inr tt, mk e3 w2 (Some gfn) (Some (unwrap_grad grad)))
        end
    end.
Proof.
  intros Hctx Hwrt Hcost.
  apply Forall2_app_inv_l in Hwrt as (sa & sk & Hsa & Hsk & ->).
  apply mapE_node_of in Hsa, Hsk.
  unfold build_grad_fn, bind, gets, on_KeyError, call_ext, modify, ret.
  cbn [world_of gradient_store eng log]. rewrite Hctx.
  rewrite (mapM_pure _ (node_of svars))
    by (intros; apply svars_lookup_pure).
  rewrite Hsa.
  rewrite (mapM_pure _ (node_of svars))
    by (intros; apply svars_lookup_pure).
  rewrite Hsk. rewrite svars_lookup_pure, Hcost.
  cbn [world_of gradient_store with_world eng log set_eng grad_world].
  destruct (tt_grad _ _ _) as [[e|grad] e2] eqn:Hgrad.
  { unfold set_eng, log. cbn. by rewrite <- ?app_assoc. }
  cbn [world_of gradient_store with_world eng log set_eng grad_world].
  destruct (theano_function _ _ _ _) as [[e|gfn] e3] eqn:Hfn.
  { unfold set_eng, log. cbn. by rewrite <- ?app_assoc. }
  unfold set_sym_grad, set_grad_fn, set_eng, log. cbn.
  by rewrite <- !app_assoc.
Qed.

(** C9, stage by stage.  In the uncompiled state, once the run has returned
    and the nodes were found, the differentiation is asked for the gradients
    of the result with respect to the nodes of the positional arguments
    followed by those of the keyword values, one node per argument, whatever
    happens afterwards; a gradient list of exactly one element is unwrapped
    before it is compiled, any other is compiled as it is; the compilation
    gets the nodes as one nested input; and once there is an artifact, just
    compiled or cached, it is invoked on the positional arguments followed by
    the keyword values, and its outcome is the outcome of the call. *)
Theorem gradient_call_order args kwargs (g : gradient) :
  let all_args := args ++ od_values kwargs in
  let out := Gradient_call args kwargs g in
  (forall res svars e1 wrt cost,
     _grad_fn g = None ->
     ctx_call (_fn g) args kwargs (eng (grad_world g))
     = (inr (res, svars), e1) ->
     Forall2 (fun a v => od_get (oid a) (od_of_list svars) = Some v)
             all_args wrt ->
     od_get (result_id res) (od_of_list svars) = Some cost ->
     length wrt = length args + length kwargs /\
     exists l,
       calls (grad_world out.2)
       = calls (grad_world g)
         ++ EvTrace args kwargs :: EvGrad cost wrt :: l /\
       match tt_grad cost wrt e1 with
       | (inl e, _) => out.1 = inl e /\ l = []
       | (inr grad, e2) =>
           (length grad = length wrt ->
            length grad = length args + length kwargs) /\
           (forall x, grad = [x] -> unwrap_grad grad = OSingle x) /\
           (length grad <> 1 -> unwrap_grad grad = OMany grad) /\
           match theano_function [InList wrt] (unwrap_grad grad) [] e2 with
           | (inl e, _) =>
               out.1 = inl e /\
               l = [EvCompile [InList wrt] (unwrap_grad grad)]
           | (inr gfn, e3) =>
               out.1 = (fn_call gfn all_args [] e3).1 /\
               l = [EvCompile [InList wrt] (unwrap_grad grad);
                    EvInvoke all_args []] /\
               _sym_grad out.2 = Some (unwrap_grad grad)
           end
       end) /\
  (forall gfn,
     _grad_fn g = Some gfn ->
     out.1 = (fn_call gfn all_args [] (eng (grad_world g))).1 /\
     calls (grad_world out.2)
     = calls (grad_world g) ++ [EvInvoke all_args []]).
Proof.
  cbn zeta. split.
  - intros res svars e1 wrt cost Hnone Hctx Hwrt Hcost.
    split.
    { apply Forall2_length in Hwrt. rewrite length_app in Hwrt.
      unfold od_values in Hwrt. rewrite length_map in Hwrt. lia. }
    rewrite Gradient_call_run, ensure_grad_fn_run, Hnone.
    rewrite (build_grad_fn_stages _ _ _ _ _ _ _ _ Hctx Hwrt Hcost).
    cbn zeta.
    destruct (tt_grad cost wrt e1) as [[e|grad] e2].
    { exists []. cbn. done. }
    assert (Hlen : length grad = length wrt ->
                   length grad = length args + length kwargs).
    { intros ->. apply Forall2_length in Hwrt. rewrite length_app in Hwrt.
      unfold od_values in Hwrt. rewrite length_map in Hwrt. lia. }
    assert (Hone : forall x, grad = [x] -> unwrap_grad grad = OSingle x)
      by (by intros x ->).
    assert (Hmany : length grad <> 1 -> unwrap_grad grad = OMany grad)
      by (by destruct grad as [|x [|y grad]]).
    destruct (theano_function _ _ _ e2) as [[e|gfn] e3].
    { eexists. split; [|split; [done|split; [done|split; [done|]]]].
      - cbn. rewrite <- ?app_assoc. reflexivity.
      - by split. }
    cbn [_grad_fn grad_world eng].
    destruct (fn_call gfn _ _ e3) as [[e|r] e4];
      (eexists; split; [|split; [done|split; [done|split; [done|]]]];
       [cbn; rewrite <- ?app_assoc; reflexivity | by split_and!]).
  - intros gfn Hsome.
    rewrite Gradient_call_run, ensure_grad_fn_run, Hsome. rewrite Hsome.
    cbn zeta.
    by destruct (fn_call _ _ _ _) as [[e|r] e4].
Qed.
End gradient_facts.

Section gradient_failure_example.
#[local] Existing Instance failing_engine.

Lemma gradient_invocation_failure_witness :
  let g1 := (ensure_grad_fn [float_a] [] grad_failing).2 in
  let gfn : scripted_artifact := ([InList [101]], OSingle 1000, []) in
  let e := PyExc "ValueError" "bad input" [] in
  ensure_grad_fn [float_a] [] grad_failing = (inr tt, g1) /\
  _grad_fn g1 = Some gfn /\
  fn_call gfn ([float_a] ++ od_values (@nil (string * obj))) [] (eng (grad_world g1))
  = (inl e, 1001) /\
  exists g',
    Gradient_call [float_a] [] grad_failing = (inl e, g') /\
    _grad_fn g' = None /\
    forall args2 kwargs2,
    exists l,
      calls (grad_world (Gradient_call args2 kwargs2 g').2)
      = calls (grad_world g') ++ EvTrace args2 kwargs2 :: l /\
      forall r g'', Gradient_call args2 kwargs2 g' = (inr r, g'') ->
        exists cost wrt outs,
          l = [EvGrad cost wrt; EvCompile [InList wrt] outs;
               EvInvoke (args2 ++ od_values kwargs2) []].
Proof.
  intros g1 gfn e.
  assert (H1 : ensure_grad_fn [float_a] [] grad_failing = (inr tt, g1))
    by (vm_compute; reflexivity).
  assert (H2 : _grad_fn g1 = Some gfn) by (vm_compute; reflexivity).
  assert (H3 : fn_call gfn ([float_a] ++ od_values (@nil (string * obj))) []
                 (eng (grad_world g1)) = (inl e, 1001))
    by (vm_compute; reflexivity).
  split; [exact H1|]. split; [exact H2|]. split; [exact H3|].
  exact (gradient_invocation_failure [float_a] [] grad_failing g1 gfn e 1001
           H1 H2 H3).
Defined.
End gradient_failure_example.

Section gradient_order_example.
#[local] Existing Instance first_engine.

Lemma gradient_call_order_witness :
  let args := [float_a] in
  let kwargs := [("k", float_b)] in
  let all_args := args ++ od_values kwargs in
  let out := Gradient_call args kwargs grad_first in
  let res := RSingle float_a in
  let svars := [(1, 101); (2, 102)] in
  let wrt := [101; 102] in
  let cost := 101 in
  _grad_fn grad_first = None /\
  ctx_call (_fn grad_first) args kwargs (eng (grad_world grad_first))
  = (inr (res, svars), 1000) /\
  Forall2 (fun a v => od_get (oid a) (od_of_list svars) = Some v)
          all_args wrt /\
  od_get (result_id res) (od_of_list svars) = Some cost /\
  length wrt = length args + length kwargs /\
  exists l,
    calls (grad_world out.2)
    = calls (grad_world grad_first)
      ++ EvTrace args kwargs :: EvGrad cost wrt :: l /\
    match tt_grad cost wrt 1000 with
    | (inl e, _) => out.1 = inl e /\ l = []
    | (inr grad, e2) =>
        (length grad = length wrt ->
         length grad = length args + length kwargs) /\
        (forall x, grad = [x] -> unwrap_grad grad = OSingle x) /\
        (length grad <> 1 -> unwrap_grad grad = OMany grad) /\
        match theano_function [InList wrt] (unwrap_grad grad) [] e2 with
        | (inl e, _) =>
            out.1 = inl e /\
            l = [EvCompile [InList wrt] (unwrap_grad grad)]
        | (inr gfn, e3) =>
            out.1 = (fn_call gfn all_args [] e3).1 /\
            l = [EvCompile [InList wrt] (unwrap_grad grad);
                 EvInvoke all_args []] /\
            _sym_grad out.2 = Some (unwrap_grad grad)
        end
    end.
Proof.
  intros args kwargs all_args out res svars wrt cost.
  assert (H1 : _grad_fn grad_first = None) by reflexivity.
  assert (H2 : ctx_call (_fn grad_first) args kwargs
                 (eng (grad_world grad_first))
               = (inr (res, svars), 1000)) by (vm_compute; reflexivity).
  assert (H3 : Forall2 (fun a v => od_get (oid a) (od_of_list svars) = Some v)
                 all_args wrt)
    by (repeat constructor).
  assert (H4 : od_get (result_id res) (od_of_list svars) = Some cost)
    by reflexivity.
  split; [exact H1|]. split; [exact H2|]. split; [exact H3|].
  split; [exact H4|].
  exact (proj1 (gradient_call_order args kwargs grad_first)
           res svars 1000 wrt cost H1 H2 H3 H4).
Defined.

(** The call of the witness, run: the gradients are asked for [x] then for
    the keyword value, the two nodes are compiled as one nested input, and
    the artifact is called on the arguments in that order. *)
Example gradient_call_run :
  calls (grad_world (Gradient_call [float_a] [("k", float_b)] grad_first).2)
  = [EvTrace [float_a] [("k", float_b)];
     EvGrad 101 [101; 102];
     EvCompile [InList [101; 102]] (OMany [1000; 1001]);
     EvInvoke [float_a; float_b] []].
Proof. vm_compute. reflexivity. Qed.

(** A second call, on the cached artifact: only the invocation. *)
Example gradient_cached_run :
  let g1 := (Gradient_call [float_a] [("k", float_b)] grad_first).2 in
  is_Some (_grad_fn g1) /\
  calls (grad_world (Gradient_call [float_b] [("k", float_c)] g1).2)
  = calls (grad_world g1) ++ [EvInvoke [float_b; float_c] []].
Proof. split; [by eexists | vm_compute; reflexivity]. Qed.
End gradient_order_example.

Section gradient_uncompilable_example.
#[local] Existing Instance uncompilable_engine.

(** When the compilation raises, the call raises its error: the gradients
    were asked for in the same order, and nothing is invoked. *)
Example gradient_compile_error_run :
  let out := Gradient_call [float_a] [("k", float_b)] grad_uncompilable in
  out.1 = inl (TypeError "Unknown input type" []) /\
  calls (grad_world out.2)
  = [EvTrace [float_a] [("k", float_b)];
     EvGrad 101 [101; 102];
     EvCompile [InList [101; 102]] (OMany [1000; 1001])] /\
  _grad_fn out.2 = None.
Proof. split_and!; vm_compute; reflexivity. Qed.
End gradient_uncompilable_example.

(** ** [Function]: the cache *)

Section function_facts.
Context `{Engine}.

Lemma trace_inr_calls args kwargs (s s' : symbolic) :
  trace args kwargs s = (inr tt, s') ->
  exists a' k', calls (sym_world s') = calls (sym_world s) ++ [EvTrace a' k'].
Proof.
  intros Htr.
  destruct (check_args (pyfn s) args kwargs s) as [[e|[a' k']] s1] eqn:Hch.
  - rewrite trace_run, Hch in Htr. done.
  - exists a', k'. pose proof (trace_calls _ _ _ _ _ _ Hch) as Hc.
    by rewrite Htr in Hc.
Qed.

(** [s'] has the calls and the function of [s]. *)
Local Abbreviation same s s' :=
  (calls (sym_world s') = calls (sym_world s) /\ pyfn s' = pyfn s).

Lemma fresh_input_calls v n (s : symbolic) :
  same s (fresh_input v n s).2.
Proof.
  unfold fresh_input, bind, call_eng, setattr_name, liftW, ret.
  cbn [world_of symbolic_store]. by destruct (new_input v n _).
Qed.

Lemma fresh_input_inr v n (s : symbolic) :
  exists v', (fresh_input v n s).1 = inr v'.
Proof.
  unfold fresh_input, bind, call_eng, setattr_name, liftW, ret.
  cbn [world_of symbolic_store]. destruct (new_input v n _). by eexists.
Qed.

Lemma foldM_calls {A B} (f : B -> A -> M symbolic B) :
  (forall b x s, same s (f b x s).2) ->
  forall l b s, same s (foldM f b l s).2.
Proof.
  intros Hf l. induction l as [|x l IH]; intros b s; [done|].
  cbn [foldM]. unfold bind. specialize (Hf b x s).
  destruct (f b x s) as [[e|b'] s1]; [done|].
  destruct (IH b' s1) as [-> ->]. done.
Qed.

Lemma collect_given_calls f givens na (s : symbolic) :
  same s (collect_given f givens na s).2.
Proof.
  destruct na as [name arg]. unfold collect_given.
  case_decide.
  - destruct arg as [v|vs]; [|done].
    unfold getattr_name, bind, get, ret.
    pose proof (fresh_input_calls v
      (default "None" (names (sym_world s) !! v)) s) as Hc.
    by destruct (fresh_input _ _ s) as [[e|v'] s1].
  - destruct arg as [v|vs]; [done|].
    apply foldM_calls. intros g [i v] s0. unfold bind, ret.
    pose proof (fresh_input_calls v (item_name name i) s0) as Hc.
    by destruct (fresh_input _ _ s0) as [[e|v'] s1].
Qed.

Lemma lookup_given_pure givens v (s : symbolic) :
  (lookup_given givens v s).2 = s.
Proof. unfold lookup_given. by destruct (od_get v givens). Qed.

Lemma mapM_state {A B} (f : A -> M symbolic B) :
  (forall x s, (f x s).2 = s) -> forall l s, (mapM f l s).2 = s.
Proof.
  intros Hf l. induction l as [|x l IH]; intros s; [done|].
  cbn [mapM]. unfold bind. specialize (Hf x s).
  destruct (f x s) as [[e|y] s1]; [done|]. simpl in Hf. subst s1.
  specialize (IH s). by destruct (mapM f l s) as [[e|ys] s2].
Qed.

Lemma collect_inputs_pure f givens defaults sargs (s : symbolic) :
  (collect_inputs f givens defaults sargs s).2 = s.
Proof.
  unfold collect_inputs. unfold bind at 1.
  match goal with |- context [mapM ?f ?l s] =>
    pose proof (mapM_state f) as Hm; specialize (Hm ltac:(
      intros [n [v|vs]] s0; [|done]; cbn [snd]; unfold bind;
      pose proof (lookup_given_pure givens v s0) as Hl;
      destruct (lookup_given givens v s0) as [[e|v'] s1]; by simpl in *) l s);
    destruct (mapM f l s) as [[e|params] s1]
  end; [done|]. simpl in Hm. subst s1.
  unfold bind.
  destruct (func_varargs f) as [va|]; [|done].
  destruct (od_get va sargs) as [[v|vs]|]; [done| |done].
  match goal with |- context [mapM ?f ?l s] =>
    pose proof (mapM_state f) as Hm; specialize (Hm ltac:(
      intros a s0; unfold bind;
      pose proof (lookup_given_pure givens a s0) as Hl;
      destruct (lookup_given givens a s0) as [[e|v'] s1]; by simpl in *) l s);
    destruct (mapM f l s) as [[e|rest] s1]
  end; done.
Qed.

Lemma varargs_count_pure f ca (s s0 : symbolic) :
  (varargs_count f ca s).2 = s /\
  (varargs_count f ca s).1 = (varargs_count f ca s0).1.
Proof.
  unfold varargs_count. destruct (func_varargs f); [|done].
  by destruct (od_get _ ca) as [[?|?|?]|].
Qed.

(** A compilation that returns has traced, then compiled, and has stored
    the artifact under the variadic count of the call. *)
Lemma compile_function_inr args kwargs (s s' : symbolic) fn :
  _compile_function args kwargs s = (inr fn, s') ->
  exists a' k' inputs outputs ca key,
    calls (sym_world s')
    = calls (sym_world s) ++ [EvTrace a' k'; EvCompile inputs outputs] /\
    orderedcallargs (pyfn s) args kwargs = inr ca /\
    (varargs_count (pyfn s) ca s).1 = inr key /\
    cache s' !! key = Some fn /\ pyfn s' = pyfn s.
Proof.
  unfold _compile_function.
  intros (f & s0 & [= <- <-] & Hrest)%bind_inv_inr.
  apply bind_inv_inr in Hrest as (ca & s0 & Hca & Hrest).
  unfold liftE in Hca. injection Hca as Hca <-.
  apply bind_inv_inr in Hrest as ([] & s1 & Htr & Hrest).
  destruct (trace_inr_calls _ _ _ _ Htr) as (a' & k' & Hc1).
  assert (Hf1 : pyfn s1 = pyfn s).
  { destruct (check_args (pyfn s) args kwargs s) as [[e|[a0 k0]] sc] eqn:Hch.
    - rewrite trace_run, Hch in Htr. done.
    - rewrite trace_run, Hch in Htr. cbn zeta in Htr.
      destruct (check_args_frame _ _ _ _ _ _ Hch) as [n ->].
      destruct (ctx_call _ _ _ _) as [[e|[res svars]] e']; [done|].
      destruct (orderedcallargs _ a0 k0) as [e|ca0]; [done|].
      destruct (forM_ (collect_arg _) _ _) as [[e|[]] s3] eqn:Ha; [done|].
      apply (forM_keeps _ (collect_arg_keeps _)) in Ha as (_&_&Hp&_).
      apply collect_results_keeps in Htr as ((_&_&Hp'&_)&_).
      by rewrite Hp', Hp. }
  apply bind_inv_inr in Hrest as (sargs & s0 & [= <- <-] & Hrest).
  apply bind_inv_inr in Hrest as (givens & s2 & Hg & Hrest).
  pose proof (foldM_calls _ (collect_given_calls (pyfn s)) (s_args s1) [] s1)
    as Hc2. rewrite Hg in Hc2. cbn [snd] in Hc2. destruct Hc2 as [Hc2 Hf2].
  apply bind_inv_inr in Hrest as (sargs2 & s0 & [= <- <-] & Hrest).
  apply bind_inv_inr in Hrest as (inputs & s3 & Hi & Hrest).
  pose proof (collect_inputs_pure (pyfn s) givens
                (collect_defaults (pyfn s)) (s_args s2) s2) as Hs3.
  rewrite Hi in Hs3. cbn [snd] in Hs3. subst s3.
  apply bind_inv_inr in Hrest as (outputs & s0 & [= <- <-] & Hrest).
  apply bind_inv_inr in Hrest as (fn0 & s4 & Hfn & Hrest).
  unfold call_ext in Hfn. cbn [world_of symbolic_store] in Hfn.
  destruct (theano_function _ _ _ _) as [r e'] eqn:Hth.
  injection Hfn as -> <-.
  apply bind_inv_inr in Hrest as (key & s5 & Hkey & Hrest).
  match type of Hkey with
  | varargs_count _ _ ?st = _ =>
      destruct (varargs_count_pure (pyfn s) ca st s) as [Hs5 Hk5]
  end.
  rewrite Hkey in Hs5, Hk5. cbn [fst snd] in Hs5, Hk5. subst s5.
  apply bind_inv_inr in Hrest as ([] & s6 & [= <-] & [= <- <-]).
  exists a', k', inputs, (collect_outputs (s_results s2)), ca, key.
  split_and!.
  - cbn. rewrite Hc2, Hc1, <- app_assoc. done.
  - done.
  - done.
  - cbn. apply lookup_insert_eq.
  - cbn. congruence.
Qed.

(** Every call that returns has traced and compiled anew before it invokes,
    whatever the cache held: the compilation is evaluated as the default
    handed to [cache.get]. *)
Lemma call_always_compiles args kwargs (s s' : symbolic) r :
  call args kwargs s = (inr r, s') ->
  exists a' k' inputs outputs pos kw,
    calls (sym_world s')
    = calls (sym_world s)
      ++ [EvTrace a' k'; EvCompile inputs outputs; EvInvoke pos kw].
Proof.
  unfold call.
  intros (f & s0 & [= <- <-] & Hrest)%bind_inv_inr.
  apply bind_inv_inr in Hrest as (ca & s0 & Hca & Hrest).
  unfold liftE in Hca. injection Hca as Hca <-.
  apply bind_inv_inr in Hrest as (key & s1 & Hkey & Hrest).
  destruct (varargs_count_pure (pyfn s) ca s s) as [Hs1 _].
  rewrite Hkey in Hs1. cbn [snd] in Hs1. subst s1.
  apply bind_inv_inr in Hrest as (compiled & s2 & Hcomp & Hrest).
  destruct (compile_function_inr _ _ _ _ _ Hcomp)
    as (a' & k' & inputs & outputs & _ & _ & Hc2 & _).
  apply bind_inv_inr in Hrest as (c & s0 & [= <- <-] & Hrest).
  apply bind_inv_inr in Hrest as (pos & s3 & Hpos & Hrest).
  match type of Hpos with
  | mapM ?f ?l _ = _ =>
      pose proof (mapM_state f) as Hm; specialize (Hm ltac:(
        intros x s0; cbn beta; destruct (od_get x ca) as [[?|?|?]|];
        reflexivity) l s2)
  end.
  rewrite Hpos in Hm. cbn [snd] in Hm. subst s3.
  unfold call_ext in Hrest. cbn [world_of symbolic_store] in Hrest.
  destruct (fn_call _ _ _ _) as [r0 e']. injection Hrest as -> <-.
  eexists a', k', inputs, outputs, _, _. cbn.
  rewrite Hc2, <- app_assoc. done.
Qed.

End function_facts.

Section function_examples.
#[local] Existing Instance first_engine.

(** C1, on the code: a second call with the same variadic count finds the
    artifact of the first call in the cache, and all the same runs the
    function and compiles again; the artifact it compiles replaces the
    cached one and is the one invoked. *)
Theorem call_twice_retraces :
  (call [float_a] [] sym_first).1 = inr (FList [VFloat 3]) /\
  cache fun_called_once !! 0
  = Some ([Param 1000 None "x"], OSingle 101, [(101, 1000)]) /\
  calls (sym_world (call [float_a] [] fun_called_once).2)
  = calls (sym_world fun_called_once)
    ++ [EvTrace [float_a] [];
        EvCompile [Param 1001 None "x"] (OSingle 101);
        EvInvoke [float_a] []] /\
  cache (call [float_a] [] fun_called_once).2 !! 0
  = Some ([Param 1001 None "x"], OSingle 101, [(101, 1001)]).
Proof. split_and!; vm_compute; reflexivity. Qed.
End function_examples.
(** * The compiled function against the traced one *)

(** ** More on ordered dictionaries *)

Section odict_more.
Context {K V : Type} `{EqDecision K}.

Lemma od_set_set (k : K) (v w : V) d :
  od_set k v (od_set k w d) = od_set k v d.
Proof.
  induction d as [|[k' v'] d IH]; simpl.
  - by rewrite decide_True.
  - destruct (decide (k = k')) as [->|Hne]; simpl.
    + by rewrite decide_True.
    + rewrite decide_False by done. by rewrite IH.
Qed.

Lemma od_update_app (d : odict K V) kvs kvs' :
  od_update d (kvs ++ kvs') = od_update (od_update d kvs) kvs'.
Proof. unfold od_update. by rewrite fold_left_app. Qed.

Lemma od_get_zip (ks : list K) (vs : list V) i k v :
  NoDup ks -> ks !! i = Some k -> vs !! i = Some v ->
  od_get k (zip ks vs) = Some v.
Proof.
  revert vs i. induction ks as [|k0 ks IH]; intros vs i Hnd Hk Hv; [done|].
  destruct vs as [|v0 vs]; [done|]. apply NoDup_cons in Hnd as [Hk0 Hnd].
  destruct i as [|i]; simpl in *.
  - injection Hk as ->. injection Hv as ->. by rewrite decide_True.
  - rewrite decide_False; [by eapply IH|].
    intros ->. apply Hk0. by eapply list_elem_of_lookup_2.
Qed.

End odict_more.

(** ** The exact [s_args] of a successful trace *)

Section trace_exact.
Context `{Engine}.

Local Abbreviation traced vars a := (is_Some (od_get (oid a) vars)).

(** [s'] is [s] but for [s_args] and the names of the nodes. *)
Local Abbreviation others s s' :=
  (s_vars s' = s_vars s /\ s_results s' = s_results s /\
   cache s' = cache s /\ pyfn s' = pyfn s /\
   calls (sym_world s') = calls (sym_world s) /\
   eng (sym_world s') = eng (sym_world s)).

Local Abbreviation shaped f na :=
  (match na.2 with
   | BTuple _ => func_varargs f = Some na.1
   | BBag _ => func_varargs f <> Some na.1 /\ func_keywords f = Some na.1
   | BVal _ => func_varargs f <> Some na.1 /\ func_keywords f <> Some na.1
   end).

Lemma traced_node_Some vars a :
  traced vars a -> od_get (oid a) vars = Some (traced_node vars a).
Proof. intros [v Hv]. unfold traced_node. by rewrite Hv. Qed.

Lemma collect_named_exact n a (s : symbolic) :
  traced (s_vars s) a ->
  exists s', collect_named n a s = (inr tt, s') /\
             s_args s' = od_set n (SVar (traced_node (s_vars s) a)) (s_args s) /\
             others s s'.
Proof.
  intros Hv%traced_node_Some.
  unfold collect_named, bind, get, modify, setattr_name, liftW.
  rewrite Hv. eexists. split; [done|]. by split_and!.
Qed.

Lemma collect_bag_exact (items : list (string * obj)) (s : symbolic) :
  Forall (fun na => traced (s_vars s) na.2) items ->
  exists s',
    forM_ (fun na => collect_named na.1 na.2) items s = (inr tt, s') /\
    s_args s' =
      od_update (s_args s)
        ((fun kv : string * obj => (kv.1, SVar (traced_node (s_vars s) kv.2)))
           <$> items) /\
    others s s'.
Proof.
  revert s. induction items as [|[n a] items IH]; intros s Hall.
  - exists s. by split_and!.
  - apply Forall_cons in Hall as [Hv Hall]. simpl in Hv.
    destruct (collect_named_exact n a s Hv) as (s1 & Hs1 & Ha1 & Ho1).
    destruct Ho1 as (Hv1&?&?&?&?&?).
    destruct (IH s1) as (s2 & Hs2 & Ha2 & Ho2); [by rewrite Hv1|].
    destruct Ho2 as (Hv2&?&?&?&?&?).
    exists s2. split_and!; try congruence.
    + cbn [forM_]. unfold bind at 1. cbn [fst snd]. by rewrite Hs1.
    + rewrite Ha2, Ha1, Hv1. done.
Qed.

Lemma collect_vararg_exact name i a vs (s : symbolic) :
  od_get name (s_args s) = Some (SNodes vs) ->
  traced (s_vars s) a ->
  exists s', collect_vararg name (i, a) s = (inr tt, s') /\
             s_args s' =
               od_set name (SNodes (vs ++ [traced_node (s_vars s) a]))
                      (s_args s) /\
             others s s'.
Proof.
  intros Hn Hv%traced_node_Some.
  unfold collect_vararg, bind, get, modify, setattr_name, liftW.
  rewrite Hn, Hv. eexists. split; [done|]. by split_and!.
Qed.

Lemma collect_varargs_exact name items i vs (s : symbolic) :
  od_get name (s_args s) = Some (SNodes vs) ->
  Forall (fun a => traced (s_vars s) a) items ->
  exists s',
    forM_ (collect_vararg name) (enumerate_from i items) s = (inr tt, s') /\
    s_args s' =
      od_set name (SNodes (vs ++ (traced_node (s_vars s) <$> items)))
             (s_args s) /\
    others s s'.
Proof.
  revert s i vs. induction items as [|a items IH]; intros s i vs Hn Hall.
  - exists s. split_and!; try done. simpl. rewrite app_nil_r.
    clear -Hn. induction (s_args s) as [|[k' v'] d IHd]; [done|].
    simpl in *. destruct (decide (name = k')) as [->|Hne].
    + by injection Hn as ->.
    + by rewrite <- IHd.
  - apply Forall_cons in Hall as [Hv Hall].
    destruct (collect_vararg_exact name i a vs s Hn Hv)
      as (s1 & Hs1 & Ha1 & Ho1).
    destruct Ho1 as (Hv1&?&?&?&?&?).
    destruct (IH s1 (S i) (vs ++ [traced_node (s_vars s) a]))
      as (s2 & Hs2 & Ha2 & Ho2).
    { rewrite Ha1. apply od_get_set_eq. }
    { by rewrite Hv1. }
    destruct Ho2 as (Hv2&?&?&?&?&?).
    exists s2. split_and!; try congruence.
    + cbn [enumerate_from forM_]. unfold bind at 1. by rewrite Hs1.
    + rewrite Ha2, Ha1, Hv1, od_set_set, <- app_assoc. done.
Qed.

Lemma collect_arg_exact f na (s : symbolic) :
  shaped f na ->
  Forall (fun a => traced (s_vars s) a) (entry_values f na).*2 ->
  exists s', collect_arg f na s = (inr tt, s') /\
             s_args s' = od_update (s_args s) (entry_sargs (s_vars s) na) /\
             others s s'.
Proof.
  destruct na as [name [a|items|bag]]; cbn [fst snd]; unfold collect_arg.
  - intros [Hva Hkw] Hall. rewrite entry_values_val in Hall by done.
    rewrite !decide_False by done.
    apply Forall_cons in Hall as [Hall _].
    destruct (collect_named_exact name a s Hall) as (s1 & Hs1 & Ha1 & Ho1).
    exists s1. split; [done|]. split; [|done]. exact Ha1.
  - intros Hva Hall. rewrite entry_values_tuple in Hall by done.
    rewrite decide_True by done.
    unfold bind at 1, modify at 1.
    set (s0 := set_s_args (od_set name (SNodes [])) s).
    destruct (collect_varargs_exact name items 0 [] s0)
      as (s1 & Hs1 & Ha1 & Ho1).
    { apply od_get_set_eq. }
    { by rewrite (snd_imap_pair (Item name)) in Hall. }
    exists s1. split; [done|]. split; [|done].
    rewrite Ha1. subst s0. simpl. by rewrite od_set_set.
  - intros [Hva Hkw] Hall. rewrite entry_values_bag in Hall by done.
    rewrite decide_False by done. rewrite decide_True by done.
    apply collect_bag_exact.
    rewrite <- list_fmap_compose in Hall.
    rewrite Forall_fmap in Hall. exact Hall.
Qed.

Lemma collect_args_exact f ca (s : symbolic) :
  Forall (fun na => shaped f na) ca ->
  Forall (fun a => traced (s_vars s) a) (bound_values f ca).*2 ->
  exists s',
    forM_ (collect_arg f) ca s = (inr tt, s') /\
    s_args s' =
      od_update (s_args s) (concat (entry_sargs (s_vars s) <$> ca)) /\
    others s s'.
Proof.
  revert s. induction ca as [|na ca IH]; intros s Hsh Hall.
  - exists s. by split_and!.
  - apply Forall_cons in Hsh as [Hna Hsh].
    rewrite bound_values_cons, fmap_app in Hall.
    apply Forall_app in Hall as [Hall1 Hall2].
    destruct (collect_arg_exact f na s Hna Hall1) as (s1 & Hs1 & Ha1 & Ho1).
    destruct Ho1 as (Hv1&?&?&?&?&?).
    destruct (IH s1 Hsh) as (s2 & Hs2 & Ha2 & Ho2); [by rewrite Hv1|].
    destruct Ho2 as (Hv2&?&?&?&?&?).
    exists s2. split_and!; try congruence.
    + cbn [forM_]. unfold bind at 1. by rewrite Hs1.
    + rewrite fmap_cons. cbn [concat].
      by rewrite od_update_app, Ha2, Ha1, Hv1.
Qed.
End trace_exact.

(** ** The givens and the inputs of a compiled function *)

Section compile_exact.
Context `{Engine}.
Variable gen : estate -> nat.
Hypothesis new_input_fresh : forall v n e,
  gen e <= (new_input v n e).1 < gen (new_input v n e).2.

(** [s'] is [s] but for the state of the engine and the names of the
    nodes. *)
Local Abbreviation stays s s' :=
  (s_vars s' = s_vars s /\ s_args s' = s_args s /\
   s_results s' = s_results s /\ cache s' = cache s /\ pyfn s' = pyfn s /\
   calls (sym_world s') = calls (sym_world s)).

(** The new variables [xs] were issued between [s] and [s']. *)
Local Abbreviation issued xs s s' :=
  (Forall (fun x => gen (eng (sym_world s)) <= x < gen (eng (sym_world s')))
          xs /\
   NoDup xs /\ gen (eng (sym_world s)) <= gen (eng (sym_world s'))).

Lemma fresh_input_run v n (s : symbolic) :
  exists x s', fresh_input v n s = (inr x, s') /\ issued [x] s s' /\
               stays s s'.
Proof using new_input_fresh.
  pose proof (new_input_fresh v n (eng (sym_world s))) as Hf.
  unfold fresh_input, bind, call_eng, setattr_name, liftW, ret. simpl.
  destruct (new_input v n (eng (sym_world s))) as [x e'] eqn:Hx. simpl in *.
  exists x. eexists. split; [done|]. simpl. split_and!; try done.
  - by apply Forall_singleton.
  - apply NoDup_singleton.
  - lia.
Qed.

Lemma issued_app xs ys (s s1 s2 : symbolic) :
  issued xs s s1 -> issued ys s1 s2 -> issued (xs ++ ys) s s2.
Proof.
  intros (Hx & Hnx & Hle1) (Hy & Hny & Hle2). split_and!.
  - apply Forall_app. split.
    + eapply Forall_impl; [exact Hx|]. simpl. intros; lia.
    + eapply Forall_impl; [exact Hy|]. simpl. intros; lia.
  - apply NoDup_app. split_and!; try done.
    intros x Hx1 Hx2.
    rewrite Forall_forall in Hx. rewrite Forall_forall in Hy.
    specialize (Hx _ Hx1). specialize (Hy _ Hx2). lia.
  - lia.
Qed.

Lemma issued_nil (s : symbolic) : issued (@nil node) s s.
Proof. split_and!; [done | apply NoDup_nil_2 | done]. Qed.

Lemma zip_app_eq {A B} (l1 l2 : list A) (k1 k2 : list B) :
  length l1 = length k1 ->
  zip (l1 ++ l2) (k1 ++ k2) = zip l1 k1 ++ zip l2 k2.
Proof. intros Hl. by apply zip_with_app. Qed.

(** The loop over the variadic nodes. *)
Lemma collect_given_items name vs i G (s : symbolic) :
  exists xs s',
    foldM (fun g (iv : nat * node) =>
             v' <- fresh_input iv.2 (item_name name iv.1) ;;
             ret (od_set iv.2 v' g))
          G (enumerate_from i vs) s
    = (inr (od_update G (zip vs xs)), s') /\
    length xs = length vs /\ issued xs s s' /\ stays s s'.
Proof using new_input_fresh.
  revert i G s. induction vs as [|v vs IH]; intros i G s.
  - exists [], s. split; [done|]. split; [done|].
    split; [exact (issued_nil s) | by split_and!].
  - destruct (fresh_input_run v (item_name name i) s)
      as (x & s1 & Hs1 & Hi1 & Hst1).
    destruct (IH (S i) (od_set v x G) s1) as (xs & s2 & Hs2 & Hl & Hi2 & Hst2).
    exists (x :: xs), s2. split; [|split; [|split]].
    + cbn [enumerate_from foldM]. unfold bind at 1. cbn [fst snd].
      unfold bind at 1. rewrite Hs1. unfold ret at 1. by rewrite Hs2.
    + simpl. by rewrite Hl.
    + exact (issued_app [x] xs _ _ _ Hi1 Hi2).
    + destruct Hst1 as (?&?&?&?&?&?), Hst2 as (?&?&?&?&?&?).
      split_and!; congruence.
Qed.

(** The shape of an entry of [s_args]: a tuple of nodes under the variadic
    name, a node under any other. *)
Local Abbreviation sshaped f na :=
  (match na.2 with
   | SVar _ => Some na.1 <> func_varargs f
   | SNodes _ => Some na.1 = func_varargs f
   end).

Lemma collect_given_run f G (na : string * sarg) (s : symbolic) :
  sshaped f na ->
  exists xs s',
    collect_given f G na s
    = (inr (od_update G (zip (sarg_nodes na.2) xs)), s') /\
    length xs = length (sarg_nodes na.2) /\ issued xs s s' /\ stays s s'.
Proof using new_input_fresh.
  destruct na as [name [v|vs]]; cbn [fst snd]; intros Hsh;
    unfold collect_given.
  - rewrite decide_True by done.
    unfold bind at 1, getattr_name at 1, bind at 1, get at 1, ret at 1.
    set (n := default "None" _).
    destruct (fresh_input_run v n s) as (x & s1 & Hs1 & Hi1 & Hst1).
    exists [x], s1. split; [|split; [|split]]; try done.
    unfold bind. by rewrite Hs1.
  - rewrite decide_False by (intros Hne; by apply Hne).
    apply collect_given_items.
Qed.

Lemma collect_givens_run f (sargs : odict string sarg) G (s : symbolic) :
  Forall (fun na => sshaped f na) sargs ->
  exists xs s',
    foldM (collect_given f) G sargs s
    = (inr (od_update G (zip (concat (sarg_nodes <$> sargs.*2)) xs)), s') /\
    length xs = length (concat (sarg_nodes <$> sargs.*2)) /\
    issued xs s s' /\ stays s s'.
Proof using new_input_fresh.
  revert G s. induction sargs as [|na sargs IH]; intros G s Hsh.
  - exists [], s. split; [done|]. split; [done|].
    split; [exact (issued_nil s) | by split_and!].
  - apply Forall_cons in Hsh as [Hna Hsh].
    destruct (collect_given_run f G na s Hna)
      as (xs1 & s1 & Hs1 & Hl1 & Hi1 & Hst1).
    destruct (IH (od_update G (zip (sarg_nodes na.2) xs1)) s1 Hsh)
      as (xs2 & s2 & Hs2 & Hl2 & Hi2 & Hst2).
    exists (xs1 ++ xs2), s2. split; [|split; [|split]].
    + cbn [foldM]. unfold bind at 1. rewrite Hs1, Hs2.
      rewrite !fmap_cons. cbn [concat].
      by rewrite zip_app_eq, od_update_app.
    + rewrite !fmap_cons. cbn [concat]. rewrite !length_app. lia.
    + exact (issued_app _ _ _ _ _ Hi1 Hi2).
    + destruct Hst1 as (?&?&?&?&?&?), Hst2 as (?&?&?&?&?&?).
      split_and!; congruence.
Qed.
End compile_exact.

Section trace_exact_run.
Context `{Engine}.

Local Abbreviation traced vars a := (is_Some (od_get (oid a) vars)).
Local Abbreviation bindings vars items :=
  (omap (fun r : obj => pair (oid r) <$> od_get (oid r) vars) items).

(** The three dictionaries after a successful trace, from what the
    instrumented run returned. *)
Lemma trace_exact args kwargs (s s' : symbolic) a' k' s1 res svars e' ca :
  wf_signature (pyfn s) ->
  trace args kwargs s = (inr tt, s') ->
  check_args (pyfn s) args kwargs s = (inr (a', k'), s1) ->
  ctx_call (pyfn s) a' k' (eng (sym_world s)) = (inr (res, svars), e') ->
  orderedcallargs (pyfn s) a' k' = inr ca ->
  Forall (fun a => traced (od_of_list svars) a)
         (bound_values (pyfn s) ca).*2 /\
  Forall (fun r => traced (od_of_list svars) r) (result_items res) /\
  s_vars s' = od_of_list svars /\
  s_args s' = od_of_list (concat (entry_sargs (od_of_list svars) <$> ca)) /\
  s_results s' = od_of_list (bindings (od_of_list svars) (result_items res)) /\
  pyfn s' = pyfn s /\ cache s' = cache s /\ eng (sym_world s') = e'.
Proof.
  intros Hwf Htr Hch Hctx Hca.
  destruct (trace_inr _ _ _ _ Hwf Htr)
    as (a0 & k0 & s0 & res0 & svars0 & e0 & ca0 & s3 & Hch0 & Hctx0 & Hca0
        & Hall & Hres & _).
  rewrite Hch in Hch0. injection Hch0 as <- <- <-.
  rewrite Hctx in Hctx0. injection Hctx0 as <- <- <-.
  rewrite Hca in Hca0. injection Hca0 as <-.
  split; [done|]. split; [done|].
  rewrite trace_run, Hch in Htr. cbn zeta in Htr.
  destruct (check_args_frame _ _ _ _ _ _ Hch) as [n Hs1]. rewrite Hs1 in Htr.
  change (eng (log _ _)) with (eng (sym_world s)) in Htr.
  rewrite Hctx, Hca in Htr.
  destruct (orderedcallargs_shaped _ _ _ _ Hwf Hca) as [Hsh _].
  match type of Htr with
  | context [forM_ (collect_arg _) ca ?x] => set (s2 := x) in Htr
  end.
  destruct (collect_args_exact (pyfn s) ca s2 Hsh Hall)
    as (s4 & Hs4 & Ha4 & Hv4 & Hr4 & Hc4 & Hp4 & _ & He4).
  rewrite Hs4 in Htr. rewrite collect_results_ok in Htr by (by rewrite Hv4).
  injection Htr as <-. simpl. rewrite Hv4, Ha4, Hr4, Hp4, Hc4, He4.
  by split_and!.
Qed.
End trace_exact_run.

(** ** The groups of a bound call *)

Section groups.

(** The entries of [callargs] after the declared parameters. *)
Local Abbreviation vpart f X :=
  (match func_varargs f with
   | Some va => [(va, BTuple X)]
   | None => []
   end).
Local Abbreviation kpart f B :=
  (match func_keywords f with
   | Some kw => [(kw, BBag B)]
   | None => []
   end).
Local Abbreviation extra_of f args := (drop (length (func_args f)) args).
Local Abbreviation bag_of f kwargs :=
  (filter (fun kv : string * obj => kv.1 ∉ func_args f) kwargs).

Lemma declared_values f args kwargs i names declared :
  Forall2 (fun x y => bind_declared f args kwargs x = inr y)
          (enumerate_from i names) declared ->
  exists ds,
    declared = zip names (BVal <$> ds) /\ length ds = length names /\
    Forall2 (fun (x : nat * string) d =>
               bind_declared f args kwargs x = inr (x.2, BVal d))
            (enumerate_from i names) ds.
Proof.
  revert i declared. induction names as [|n names IH]; intros i declared Hd;
    simpl in Hd.
  - apply Forall2_nil_inv_l in Hd as ->. exists []. by split_and!.
  - apply Forall2_cons_inv_l in Hd as (y & ys & Hy & Hys & ->).
    destruct (bind_declared_inr _ _ _ _ _ _ Hy) as [v ->].
    destruct (IH _ _ Hys) as (ds & -> & Hl & Hds).
    exists (v :: ds). split_and!; [done | simpl; by rewrite Hl |].
    simpl. by constructor.
Qed.

(** What the binder returns: the declared parameters with their values,
    then the variadic tuple, then the keyword bag. *)
Lemma orderedcallargs_groups f args kwargs ca :
  wf_signature f ->
  orderedcallargs f args kwargs = inr ca ->
  exists ds,
    length ds = length (func_args f) /\
    Forall2 (fun (x : nat * string) d =>
               bind_declared f args kwargs x = inr (x.2, BVal d))
            (enumerate (func_args f)) ds /\
    ca = zip (func_args f) (BVal <$> ds)
         ++ vpart f (extra_of f args) ++ kpart f (bag_of f kwargs) /\
    (func_varargs f = None -> extra_of f args = []) /\
    (func_keywords f = None -> bag_of f kwargs = []).
Proof.
  intros Hwf Hca.
  destruct (orderedcallargs_inr _ _ _ _ Hwf Hca)
    as (declared & Hn & _ & Hca' & Hx & Hb).
  unfold orderedcallargs in Hca.
  destruct (mapE _ _) as [e|declared0] eqn:Hd; [done|].
  apply mapE_inr in Hd.
  destruct (declared_values _ _ _ _ _ _ Hd) as (ds & -> & Hl & Hds).
  exists ds. split; [done|]. split; [done|].
  assert (Hkeys :
    od_of_list (zip (func_args f) (BVal <$> ds)
                ++ vpart f (extra_of f args) ++ kpart f (bag_of f kwargs))
    = zip (func_args f) (BVal <$> ds)
      ++ vpart f (extra_of f args) ++ kpart f (bag_of f kwargs)).
  { apply od_of_list_NoDup. rewrite !fmap_app.
    rewrite fst_zip by (rewrite length_fmap; lia).
    unfold wf_signature, declared_parameters in Hwf.
    by destruct (func_varargs f), (func_keywords f). }
  split; [|split].
  - rewrite <- Hkeys.
    destruct (func_varargs f) eqn:Hva, (func_keywords f) eqn:Hkw.
    + by injection Hca as <-.
    + destruct (bag_of f kwargs) as [|[??]?]; [by injection Hca as <- | done].
    + destruct (extra_of f args); [by injection Hca as <- | done].
    + destruct (extra_of f args); [|done].
      destruct (bag_of f kwargs) as [|[??]?]; [by injection Hca as <- | done].
  - intros Hva. apply drop_ge. by apply Hx.
  - done.
Qed.

(** The values that the binder binds, in the order of the loop of
    [trace]. *)
Lemma bound_values_groups f (ds X : list obj) (B : list (string * obj)) :
  wf_signature f ->
  length ds = length (func_args f) ->
  (func_varargs f = None -> X = []) ->
  (func_keywords f = None -> B = []) ->
  (bound_values f (zip (func_args f) (BVal <$> ds)
                   ++ vpart f X ++ kpart f B)).*2
  = ds ++ X ++ B.*2.
Proof.
  intros Hwf Hl HX HB. unfold bound_values.
  rewrite !fmap_app, !concat_app, !fmap_app.
  unfold wf_signature, declared_parameters in Hwf.
  apply NoDup_app in Hwf as (_ & Hdis & Hwf2).
  f_equal; [|f_equal].
  - revert ds Hl Hdis. generalize (func_args f).
    intros names. induction names as [|n names IH]; intros [|d ds] Hl Hdis;
      try done.
    rewrite (fmap_cons BVal). cbn [zip_with]. rewrite fmap_cons.
    cbn [concat]. rewrite fmap_app. rewrite entry_values_val; first last.
    + intros Heq. apply (Hdis n); [apply list_elem_of_here|].
      rewrite Heq. apply elem_of_app. right. apply list_elem_of_here.
    + intros Heq. apply (Hdis n); [apply list_elem_of_here|].
      rewrite Heq. apply elem_of_app. left. apply list_elem_of_here.
    + simpl. f_equal. apply IH; [by injection Hl|].
      intros x Hx. apply Hdis. by apply list_elem_of_further.
  - destruct (func_varargs f) as [va|] eqn:Hva.
    + rewrite fmap_cons. cbn [concat fmap list_fmap].
      rewrite entry_values_tuple by done. rewrite app_nil_r.
      apply (snd_imap_pair (Item va)).
    + by rewrite HX.
  - destruct (func_keywords f) as [kw|] eqn:Hkw.
    + rewrite fmap_cons. cbn [concat fmap list_fmap].
      rewrite entry_values_bag; [| |done].
      * rewrite app_nil_r. rewrite <- list_fmap_compose. done.
      * destruct (func_varargs f) as [va|]; [|done]. intros [= ->].
        apply NoDup_cons in Hwf2 as [Hnin _]. apply Hnin, list_elem_of_here.
    + by rewrite HB.
Qed.

(** The entries of [s_args] for these values. *)
Lemma entry_sargs_groups f vars (ds X : list obj) (B : list (string * obj)) :
  length ds = length (func_args f) ->
  (func_keywords f = None -> B = []) ->
  concat (entry_sargs vars <$> (zip (func_args f) (BVal <$> ds)
                                ++ vpart f X ++ kpart f B))
  = zip (func_args f) (SVar ∘ traced_node vars <$> ds)
    ++ match func_varargs f with
       | Some va => [(va, SNodes (traced_node vars <$> X))]
       | None => []
       end
    ++ ((fun kv : string * obj => (kv.1, SVar (traced_node vars kv.2)))
          <$> B).
Proof.
  intros Hl HB. rewrite !fmap_app, !concat_app.
  f_equal; [|f_equal].
  - revert ds Hl. generalize (func_args f).
    intros names. induction names as [|n names IH]; intros [|d ds] Hl;
      try done.
    simpl. f_equal. apply IH. by injection Hl.
  - by destruct (func_varargs f).
  - destruct (func_keywords f) as [kw|] eqn:Hkw; simpl.
    + by rewrite app_nil_r.
    + by rewrite HB.
Qed.
End groups.

(** ** The checked arguments against the arguments of the call *)

Section alike.
Context `{Engine}.

(** Two objects of equal value, and two keyword arguments of the same
    keyword and equal value. *)
Local Abbreviation alike := (fun a a' : obj => val_eq (oval a) (oval a')).
Local Abbreviation kvalike :=
  (fun kv kv' : string * obj => kv.1 = kv'.1 /\ val_eq (oval kv.2) (oval kv'.2)).

Lemma checked_alike base k a : alike a (checked base k a).
Proof.
  unfold checked, val_eq. destruct (oval a) eqn:Ha; simpl; rewrite ?Ha; try done.
  destruct (bool_decide _); simpl; by rewrite ?Ha.
Qed.

Lemma check_args_alike f args kwargs (s : symbolic) a' k' s1 :
  NoDup (od_keys kwargs) ->
  check_args f args kwargs s = (inr (a', k'), s1) ->
  Forall2 alike args a' /\ Forall2 kvalike kwargs k'.
Proof.
  intros Hnd Hch. destruct (check_args_ok _ _ _ _ _ _ _ Hch)
    as (_ & _ & -> & ->).
  split.
  - apply Forall2_same_length_lookup_2; [by rewrite length_imap|].
    intros i x y Hx. rewrite list_lookup_imap, Hx. intros [= <-].
    apply checked_alike.
  - rewrite od_of_list_NoDup by (by rewrite fst_imap_keys).
    apply Forall2_same_length_lookup_2; [by rewrite length_imap|].
    intros i x y Hx. rewrite list_lookup_imap, Hx. intros [= <-].
    split; [done|]. apply checked_alike.
Qed.

Lemma kvalike_keys (d d' : odict string obj) :
  Forall2 kvalike d d' -> od_keys d' = od_keys d.
Proof.
  induction 1 as [|[k v] [k' v'] d d' [Hk _] _ IH]; [done|].
  simpl in *. by rewrite IH, Hk.
Qed.

Lemma od_get_alike (d d' : odict string obj) n :
  Forall2 kvalike d d' ->
  match od_get n d, od_get n d' with
  | Some v, Some v' => alike v v'
  | None, None => True
  | _, _ => False
  end.
Proof.
  induction 1 as [|[k v] [k' v'] d d' [Hk Hv] _ IH]; [done|].
  simpl in *. subst k'. by destruct (decide (n = k)).
Qed.

Lemma filter_alike (P : string -> Prop) `{!forall k, Decision (P k)}
    (d d' : odict string obj) :
  Forall2 kvalike d d' ->
  Forall2 kvalike (filter (fun kv => P kv.1) d) (filter (fun kv => P kv.1) d').
Proof.
  induction 1 as [|[k v] [k' v'] d d' [Hk Hv] _ IH]; [done|].
  simpl in *. subst k'. unfold filter. simpl.
  destruct (decide (P k)); [by constructor | done].
Qed.

Lemma bind_declared_alike f args kwargs a' k' x d d' :
  Forall2 alike args a' -> Forall2 kvalike kwargs k' ->
  bind_declared f args kwargs x = inr (x.2, BVal d) ->
  bind_declared f a' k' x = inr (x.2, BVal d') ->
  alike d d'.
Proof.
  intros Ha Hk. destruct x as [i name]. unfold bind_declared.
  pose proof (od_get_alike kwargs k' name Hk) as Hkw.
  destruct (args !! i) as [a|] eqn:Hai.
  - destruct (Forall2_lookup_l _ _ _ _ _ Ha Hai) as (b & -> & Hab).
    destruct (od_get name kwargs), (od_get name k'); try done.
    by intros [= <-] [= <-].
  - assert (a' !! i = None) as ->.
    { apply lookup_ge_None. rewrite <- (Forall2_length _ _ _ Ha).
      by apply lookup_ge_None. }
    destruct (od_get name kwargs), (od_get name k'); try done.
    + by intros [= <-] [= <-].
    + destruct (decide _); [|done].
      destruct (func_defaults f !! _); [|done].
      by intros [= <-] [= <-].
Qed.

Lemma declared_alike f args kwargs a' k' i names ds ds' :
  Forall2 alike args a' -> Forall2 kvalike kwargs k' ->
  Forall2 (fun (x : nat * string) d =>
             bind_declared f args kwargs x = inr (x.2, BVal d))
          (enumerate_from i names) ds ->
  Forall2 (fun (x : nat * string) d =>
             bind_declared f a' k' x = inr (x.2, BVal d))
          (enumerate_from i names) ds' ->
  Forall2 alike ds ds'.
Proof.
  intros Ha Hk. revert i ds ds'.
  induction names as [|n names IH]; intros i ds ds' Hd Hd'; simpl in *.
  - apply Forall2_nil_inv_l in Hd as ->.
    by apply Forall2_nil_inv_l in Hd' as ->.
  - apply Forall2_cons_inv_l in Hd as (d & ds0 & Hd & Hds & ->).
    apply Forall2_cons_inv_l in Hd' as (d' & ds0' & Hd' & Hds' & ->).
    constructor; [|by eapply IH].
    exact (bind_declared_alike _ _ _ _ _ _ _ _ Ha Hk Hd Hd').
Qed.
End alike.

(** ** The inputs of the compiled function *)

Section inputs_exact.
Context `{Engine}.

Lemma filter_Forall_id {A} (P : A -> Prop) `{!forall x, Decision (P x)} l :
  Forall P l -> filter P l = l.
Proof.
  induction 1 as [|x l Hx _ IH]; [done|].
  rewrite filter_cons_True by done. by rewrite IH.
Qed.

Lemma filter_Forall_nil {A} (P : A -> Prop) `{!forall x, Decision (P x)} l :
  Forall (fun x => ~ P x) l -> filter P l = [].
Proof.
  induction 1 as [|x l Hx _ IH]; [done|].
  by rewrite filter_cons_False.
Qed.

Lemma od_get_app_l {K V} `{EqDecision K} (d d' : odict K V) k v :
  od_get k d = Some v -> od_get k (d ++ d') = Some v.
Proof.
  induction d as [|[k0 v0] d IH]; [done|]. simpl.
  destruct (decide (k = k0)); [done|]. apply IH.
Qed.

Lemma od_get_app_r {K V} `{EqDecision K} (d d' : odict K V) k :
  k ∉ od_keys d -> od_get k (d ++ d') = od_get k d'.
Proof.
  induction d as [|[k0 v0] d IH]; [done|]. simpl.
  rewrite not_elem_of_cons. intros [Hne Hk].
  rewrite decide_False by done. by apply IH.
Qed.

Lemma mapE_app_inr {A B} (g : A -> exn + B) l1 l2 ys1 ys2 :
  mapE g l1 = inr ys1 -> mapE g l2 = inr ys2 ->
  mapE g (l1 ++ l2) = inr (ys1 ++ ys2).
Proof.
  rewrite !mapE_Forall2. apply Forall2_app.
Qed.

(** The givens of three groups of nodes, looked up group by group. *)
Lemma od_get_zip3 (n1 n2 n3 x1 x2 x3 : list node) :
  NoDup (n1 ++ n2 ++ n3) ->
  length x1 = length n1 -> length x2 = length n2 ->
  let G := zip (n1 ++ n2 ++ n3) (x1 ++ x2 ++ x3) in
  (forall j v x, n1 !! j = Some v -> x1 !! j = Some x ->
                 od_get v G = Some x) /\
  (forall j v x, n2 !! j = Some v -> x2 !! j = Some x ->
                 od_get v G = Some x) /\
  (forall j v x, n3 !! j = Some v -> x3 !! j = Some x ->
                 od_get v G = Some x).
Proof.
  intros Hnd Hl1 Hl2 G. split_and!; intros j v x Hv Hx.
  - apply (od_get_zip _ _ j); [done| |]; by apply lookup_app_l_Some.
  - apply (od_get_zip _ _ (length n1 + j)); [done| |].
    + rewrite lookup_app_r by lia.
      replace (length n1 + j - length n1) with j by lia.
      by apply lookup_app_l_Some.
    + rewrite lookup_app_r by lia.
      replace (length n1 + j - length x1) with j by lia.
      by apply lookup_app_l_Some.
  - apply (od_get_zip _ _ (length n1 + length n2 + j)); [done| |].
    + rewrite lookup_app_r by lia. rewrite lookup_app_r by lia.
      by replace (length n1 + length n2 + j - length n1 - length n2)
        with j by lia.
    + rewrite lookup_app_r by lia. rewrite lookup_app_r by lia.
      by replace (length n1 + length n2 + j - length x1 - length x2)
        with j by lia.
Qed.

(** One [Param] of [inputs]. *)
Local Abbreviation mk_param defaults :=
  (fun nx : string * node => Param nx.2 (od_get nx.1 defaults) nx.1).

Local Abbreviation param_of givens defaults :=
  (fun na : string * sarg =>
     match na.2 with
     | SVar v =>
         match od_get v givens with
         | Some v' => inr (Param v' (od_get na.1 defaults) na.1)
         | None => inl (KeyError "{0}" [FNat v])
         end
     | SNodes _ => inl (KeyError "{0}" [FStr na.1])
     end).

Lemma params_exact (G : odict node node) defaults
    (names : list string) (ns xs : list node) :
  length ns = length names -> length xs = length ns ->
  (forall j v x, ns !! j = Some v -> xs !! j = Some x ->
                 od_get v G = Some x) ->
  mapE (param_of G defaults) (zip names (SVar <$> ns))
  = inr (mk_param defaults <$> zip names xs).
Proof.
  intros Hl1 Hl2 HG. apply mapE_Forall2.
  apply Forall2_same_length_lookup_2.
  { rewrite length_fmap, !length_zip, length_fmap. lia. }
  intros j [n a] y Hx Hy.
  apply lookup_zip_with_Some in Hx as (n0 & a0 & [= -> ->] & Hn & Ha).
  apply list_lookup_fmap_Some in Ha as (v & -> & Hv).
  apply list_lookup_fmap_Some in Hy as ([n1 x] & -> & Hy).
  apply lookup_zip_with_Some in Hy as (n2 & x2 & [= -> ->] & Hn2 & Hx).
  rewrite Hn in Hn2. injection Hn2 as <-.
  cbn [fst snd]. by rewrite (HG _ _ _ Hv Hx).
Qed.

Lemma collect_inputs_exact f defaults (names keys : list string)
    (nD nX nB xD xX xB : list node) (s : symbolic) :
  NoDup (nD ++ nX ++ nB) ->
  NoDup (names ++ option_list (func_varargs f) ++ keys) ->
  length nD = length names -> length nB = length keys ->
  length xD = length nD -> length xX = length nX -> length xB = length nB ->
  (func_varargs f = None -> nX = []) ->
  collect_inputs f (zip (nD ++ nX ++ nB) (xD ++ xX ++ xB)) defaults
    (zip names (SVar <$> nD)
     ++ match func_varargs f with
        | Some va => [(va, SNodes nX)]
        | None => []
        end
     ++ zip keys (SVar <$> nB)) s
  = (inr ((mk_param defaults <$> zip (names ++ keys) (xD ++ xB))
          ++ (In_ <$> xX)), s).
Proof.
  intros Hnd Hkeys HlD HlB HxD HxX HxB HX.
  destruct (od_get_zip3 nD nX nB xD xX xB Hnd HxD HxX) as (HG1 & HG2 & HG3).
  set (G := zip (nD ++ nX ++ nB) (xD ++ xX ++ xB)) in *.
  apply NoDup_app in Hkeys as (Hn1 & Hdis1 & Hkeys).
  apply NoDup_app in Hkeys as (Hn2 & Hdis2 & Hn3).
  assert (Hnames : Forall (fun n => Some n <> func_varargs f) names).
  { apply Forall_forall. intros n Hn Heq. apply (Hdis1 n Hn).
    rewrite <- Heq. apply elem_of_app. left. apply list_elem_of_here. }
  assert (Hks : Forall (fun n => Some n <> func_varargs f) keys).
  { apply Forall_forall. intros n Hn Heq. apply (Hdis2 n); [|done].
    rewrite <- Heq. apply list_elem_of_here. }
  unfold collect_inputs.
  match goal with
  | |- context [filter ?P ?l] =>
      replace (filter P l)
        with (zip names (SVar <$> nD) ++ zip keys (SVar <$> nB))
  end.
  2:{ symmetry. rewrite !filter_app. f_equal; [|].
    - apply filter_Forall_id. apply Forall_forall. intros [n a] Hin.
      apply elem_of_zip_l in Hin. cbn [fst].
      rewrite Forall_forall in Hnames. by apply Hnames.
    - rewrite (filter_Forall_nil _ (match func_varargs f with
                                     | Some va => [(va, SNodes nX)]
                                     | None => []
                                     end)).
      + simpl. apply filter_Forall_id. apply Forall_forall. intros [n a] Hin.
        apply elem_of_zip_l in Hin. cbn [fst].
        rewrite Forall_forall in Hks. by apply Hks.
      + destruct (func_varargs f); [|done].
        constructor; [|done]. cbn [fst]. by intros Hne. }
  unfold bind at 1.
  rewrite (mapM_pure _ (param_of G defaults)); first last.
  { intros [n [v|vs]] s1; cbn [fst snd]; [|done].
    unfold bind, lookup_given. by destruct (od_get v G). }
  rewrite mapE_app_inr with
    (ys1 := mk_param defaults <$> zip names xD)
    (ys2 := mk_param defaults <$> zip keys xB);
    [| apply params_exact; (done || lia || eauto)
     | apply params_exact; (done || lia || eauto) ].
  unfold bind at 1.
  rewrite zip_app_eq by lia. rewrite fmap_app.
  destruct (func_varargs f) as [va|] eqn:Hva.
  - rewrite od_get_app_r; first last.
    { unfold od_keys. change (map fst ?l) with (l.*1).
      rewrite fst_zip by (rewrite length_fmap; lia).
      intros Hin. apply (Hdis1 va Hin). apply elem_of_app. left.
      apply list_elem_of_here. }
    cbn [app od_get]. rewrite decide_True by done.
    rewrite (mapM_pure _ (fun a => match od_get a G with
                                   | Some v' => inr (In_ v')
                                   | None => inl (KeyError "{0}" [FNat a])
                                   end)); first last.
    { intros a s1. unfold bind, lookup_given. by destruct (od_get a G). }
    assert (mapE (fun a => match od_get a G with
                           | Some v' => inr (In_ v')
                           | None => inl (KeyError "{0}" [FNat a])
                           end) nX = inr (In_ <$> xX)) as ->; [|done].
    apply mapE_Forall2. apply Forall2_same_length_lookup_2.
    { rewrite length_fmap. lia. }
    intros j v y Hv Hy.
    apply list_lookup_fmap_Some in Hy as (x & -> & Hx).
    by rewrite (HG2 _ _ _ Hv Hx).
  - rewrite (HX eq_refl) in HxX. destruct xX; [done|done].
Qed.
End inputs_exact.

(** ** What [_compile_function] hands to the engine *)

Section sargs_shape.

Lemma filter_fst_elem {A B} (Q : A * B -> Prop) `{!forall x, Decision (Q x)}
    (l : list (A * B)) k :
  k ∈ (filter Q l).*1 -> exists v, Q (k, v) /\ k ∈ l.*1.
Proof.
  intros ([k' v] & -> & [HQ Hin]%list_elem_of_filter)%list_elem_of_fmap.
  exists v. split; [done|]. apply list_elem_of_fmap. by exists (k', v).
Qed.

Lemma filter_fst_NoDup {A B} (Q : A * B -> Prop) `{!forall x, Decision (Q x)}
    (l : list (A * B)) :
  NoDup l.*1 -> NoDup (filter Q l).*1.
Proof.
  induction l as [|[k v] l IH]; [done|].
  rewrite fmap_cons. intros [Hk Hnd]%NoDup_cons. rewrite filter_cons.
  destruct (decide (Q (k, v))); [|by apply IH].
  rewrite fmap_cons. apply NoDup_cons. split; [|by apply IH].
  intros (v' & _ & Hin)%filter_fst_elem. done.
Qed.

Lemma bag_keys_NoDup f (k : odict string obj) :
  wf_signature f ->
  NoDup (od_keys k) ->
  func_varargs f ∉ Some <$> od_keys k ->
  NoDup (func_args f ++ option_list (func_varargs f)
         ++ (filter (fun kv : string * obj => kv.1 ∉ func_args f) k).*1).
Proof.
  intros Hwf Hnd Hva. unfold wf_signature, declared_parameters in Hwf.
  apply NoDup_app in Hwf as (Hn1 & Hdis & Hwf2).
  apply NoDup_app. split; [done|]. split.
  - intros x Hx [Hin|Hin]%elem_of_app.
    + apply (Hdis x Hx). apply elem_of_app. by left.
    + apply filter_fst_elem in Hin as (v & Hnin & _). done.
  - apply NoDup_app. split; [|split].
    + destruct (func_varargs f); [apply NoDup_singleton | apply NoDup_nil_2].
    + intros x Hx Hin. apply filter_fst_elem in Hin as (v & _ & Hin).
      destruct (func_varargs f) as [va|]; [|by apply elem_of_nil in Hx].
      apply list_elem_of_singleton in Hx as ->.
      apply Hva. apply list_elem_of_fmap. by exists va.
    + by apply filter_fst_NoDup.
Qed.

Lemma zip_fst_snd_fmap {A B C} (g : B -> C) (l : list (A * B)) :
  (fun kv : A * B => (kv.1, g kv.2)) <$> l = zip l.*1 (g <$> l.*2).
Proof.
  induction l as [|[k v] l IH]; [done|].
  rewrite !fmap_cons. cbn [zip_with fst snd]. by rewrite IH.
Qed.

Lemma sargs_nodes f (names keys : list string) (nD nX nB : list node) :
  length nD = length names -> length nB = length keys ->
  (func_varargs f = None -> nX = []) ->
  concat (sarg_nodes <$> (zip names (SVar <$> nD)
                          ++ match func_varargs f with
                             | Some va => [(va, SNodes nX)]
                             | None => []
                             end
                          ++ zip keys (SVar <$> nB)).*2)
  = nD ++ nX ++ nB.
Proof.
  intros HlD HlB HX. rewrite !fmap_app, !concat_app.
  assert (Hz : forall (ks : list string) (ns : list node),
            length ns = length ks ->
            concat (sarg_nodes <$> (zip ks (SVar <$> ns)).*2) = ns).
  { intros ks ns. revert ks. induction ns as [|v ns IH]; intros [|k ks] Hl;
      try done. simpl. f_equal. apply IH. by injection Hl. }
  rewrite !Hz by done. f_equal. f_equal.
  destruct (func_varargs f); simpl; [by rewrite app_nil_r | by rewrite HX].
Qed.

Lemma sargs_shaped f (names keys : list string) (nD nX nB : list node) :
  NoDup (names ++ option_list (func_varargs f) ++ keys) ->
  Forall (fun na : string * sarg =>
            match na.2 with
            | SVar _ => Some na.1 <> func_varargs f
            | SNodes _ => Some na.1 = func_varargs f
            end)
         (zip names (SVar <$> nD)
          ++ match func_varargs f with
             | Some va => [(va, SNodes nX)]
             | None => []
             end
          ++ zip keys (SVar <$> nB)).
Proof.
  intros Hkeys.
  apply NoDup_app in Hkeys as (Hn1 & Hdis1 & Hkeys).
  apply NoDup_app in Hkeys as (Hn2 & Hdis2 & Hn3).
  apply Forall_app. split; [|apply Forall_app; split].
  - apply Forall_forall. intros [n a] Hin.
    pose proof (elem_of_zip_l _ _ _ _ Hin) as Hn.
    apply elem_of_zip_r, list_elem_of_fmap in Hin as (v & -> & _).
    cbn [fst snd]. intros Heq. apply (Hdis1 n Hn).
    rewrite <- Heq. apply elem_of_app. left. apply list_elem_of_here.
  - destruct (func_varargs f); [|done]. by constructor.
  - apply Forall_forall. intros [n a] Hin.
    pose proof (elem_of_zip_l _ _ _ _ Hin) as Hn.
    apply elem_of_zip_r, list_elem_of_fmap in Hin as (v & -> & _).
    cbn [fst snd]. intros Heq. apply (Hdis2 n); [|done].
    rewrite <- Heq. apply list_elem_of_here.
Qed.
End sargs_shape.

Section compile_function_exact.
Context `{Engine}.
Variable gen : estate -> nat.
Hypothesis new_input_fresh : forall v n e,
  gen e <= (new_input v n e).1 < gen (new_input v n e).2.

Local Abbreviation traced vars a := (is_Some (od_get (oid a) vars)).
Local Abbreviation bindings vars items :=
  (omap (fun r : obj => pair (oid r) <$> od_get (oid r) vars) items).
Local Abbreviation mk_param defaults :=
  (fun nx : string * node => Param nx.2 (od_get nx.1 defaults) nx.1).
Local Abbreviation vpart f X :=
  (match func_varargs f with
   | Some va => [(va, BTuple X)]
   | None => []
   end).
Local Abbreviation kpart f B :=
  (match func_keywords f with
   | Some kw => [(kw, BBag B)]
   | None => []
   end).

(** The inputs, the outputs and the givens that a successful
    [_compile_function] compiles: a new variable for each bound value, a
    [Param] for each declared parameter and each keyword of the bag, then
    the variables of the variadic values. *)
Lemma compile_function_exact args kwargs (s s_c : symbolic) fn a' k' s1
    res svars e1 (ds X : list obj) (B : list (string * obj)) :
  wf_signature (pyfn s) ->
  NoDup (func_args (pyfn s) ++ option_list (func_varargs (pyfn s)) ++ B.*1) ->
  check_args (pyfn s) args kwargs s = (inr (a', k'), s1) ->
  ctx_call (pyfn s) a' k' (eng (sym_world s)) = (inr (res, svars), e1) ->
  length ds = length (func_args (pyfn s)) ->
  (func_varargs (pyfn s) = None -> X = []) ->
  (func_keywords (pyfn s) = None -> B = []) ->
  orderedcallargs (pyfn s) a' k'
  = inr (zip (func_args (pyfn s)) (BVal <$> ds)
         ++ vpart (pyfn s) X ++ kpart (pyfn s) B) ->
  NoDup (traced_node (od_of_list svars) <$> (ds ++ X ++ B.*2)) ->
  _compile_function args kwargs s = (inr fn, s_c) ->
  exists xD xX xB e e',
    length xD = length ds /\ length xX = length X /\ length xB = length B /\
    NoDup (xD ++ xX ++ xB) /\
    Forall (fun a => traced (od_of_list svars) a) (ds ++ X ++ B.*2) /\
    Forall (fun r => traced (od_of_list svars) r) (result_items res) /\
    theano_function
      ((mk_param (collect_defaults (pyfn s))
          <$> zip (func_args (pyfn s) ++ B.*1) (xD ++ xB))
       ++ (In_ <$> xX))
      (collect_outputs
         (od_of_list (bindings (od_of_list svars) (result_items res))))
      (zip (traced_node (od_of_list svars) <$> (ds ++ X ++ B.*2))
           (xD ++ xX ++ xB))
      e
    = (inr fn, e').
Proof using new_input_fresh.
  intros Hwf Hkeys Hch Hctx Hl HX HB Hca Hnodes.
  set (f := pyfn s) in *. set (vars := od_of_list svars) in *.
  set (N := traced_node vars) in *.
  unfold _compile_function.
  intros (f0 & s0 & [= <- <-] & Hrest)%bind_inv_inr.
  apply bind_inv_inr in Hrest as (ca & s0 & Hca0 & Hrest).
  unfold liftE in Hca0. injection Hca0 as _ <-.
  apply bind_inv_inr in Hrest as ([] & s_t & Htr & Hrest).
  fold f in Hrest.
  destruct (trace_exact _ _ _ _ _ _ _ _ _ _ _ Hwf Htr Hch Hctx Hca)
    as (Hall & Hres & Hv & Ha & Hr & Hp & Hc & He).
  rewrite bound_values_groups in Hall by done.
  rewrite entry_sargs_groups in Ha by done.
  fold f vars N in Ha.
  set (nD := N <$> ds) in *. set (nX := N <$> X) in *.
  set (nB := N <$> B.*2) in *.
  replace (zip (func_args f) (SVar ∘ N <$> ds))
    with (zip (func_args f) (SVar <$> nD)) in Ha
    by (subst nD; by rewrite <- list_fmap_compose).
  replace ((fun kv : string * obj => (kv.1, SVar (N kv.2))) <$> B)
    with (zip B.*1 (SVar <$> nB)) in Ha
    by (subst nB; rewrite <- list_fmap_compose;
        symmetry; exact (zip_fst_snd_fmap (SVar ∘ N) B)).
  assert (HlD : length nD = length (func_args f))
    by (subst nD; by rewrite length_fmap).
  assert (HlB : length nB = length B.*1)
    by (subst nB; by rewrite !length_fmap).
  assert (HnX : func_varargs f = None -> nX = []).
  { intros Hva. subst nX. by rewrite (HX Hva). }
  rewrite od_of_list_NoDup in Ha; first last.
  { rewrite !fmap_app.
    rewrite (fst_zip (func_args f)) by (rewrite length_fmap; lia).
    rewrite (fst_zip B.*1) by (rewrite (length_fmap SVar); lia).
    by destruct (func_varargs f). }
  apply bind_inv_inr in Hrest as (sargs & s0 & [= <- <-] & Hrest).
  apply bind_inv_inr in Hrest as (givens & s_g & Hg & Hrest).
  rewrite Ha in Hg.
  destruct (collect_givens_run gen new_input_fresh f _ [] s_t
              (sargs_shaped f _ _ nD nX nB Hkeys))
    as (xs & s_g' & Hg' & Hlx & (_ & Hndx & _) & Hst).
  rewrite Hg in Hg'. injection Hg' as -> <-.
  rewrite sargs_nodes in Hlx, Hrest by done.
  destruct Hst as (_ & Ha' & Hr' & _ & Hp' & _).
  rewrite !fmap_app in Hnodes. fold nD nX nB in Hnodes.
  rewrite !length_app in Hlx.
  set (xD := take (length nD) xs).
  set (xX := take (length nX) (drop (length nD) xs)).
  set (xB := drop (length nX) (drop (length nD) xs)).
  assert (Hxs : xs = xD ++ xX ++ xB).
  { subst xD xX xB. by rewrite !take_drop. }
  assert (HxD : length xD = length nD)
    by (subst xD; rewrite length_take; lia).
  assert (HxX : length xX = length nX)
    by (subst xX; rewrite length_take, length_drop; lia).
  assert (HxB : length xB = length nB)
    by (subst xB; rewrite !length_drop; lia).
  clearbody xD xX xB. subst xs.
  change (od_update [] ?l) with (od_of_list l) in Hrest.
  rewrite od_of_list_NoDup in Hrest; first last.
  { rewrite fst_zip by (rewrite !length_app; lia). done. }
  apply bind_inv_inr in Hrest as (sargs2 & s0 & [= <- <-] & Hrest).
  apply bind_inv_inr in Hrest as (inputs & s_i & Hi & Hrest).
  rewrite Ha', Ha in Hi.
  rewrite (collect_inputs_exact f _ (func_args f) B.*1 nD nX nB xD xX xB)
    in Hi by done.
  injection Hi as <- <-.
  apply bind_inv_inr in Hrest as (outputs & s0 & [= <- <-] & Hrest).
  apply bind_inv_inr in Hrest as (fn0 & s4 & Hfn & Hrest).
  unfold call_ext in Hfn. cbn [world_of symbolic_store] in Hfn.
  destruct (theano_function _ _ _ _) as [r e'] eqn:Hth.
  injection Hfn as -> <-.
  apply bind_inv_inr in Hrest as (key & s5 & Hkey & Hrest).
  match type of Hkey with
  | varargs_count _ _ ?st = _ =>
      destruct (varargs_count_pure f ca st s) as [Hs5 Hk5]
  end.
  rewrite Hkey in Hs5, Hk5. cbn [fst snd] in Hs5, Hk5. subst s5.
  apply bind_inv_inr in Hrest as ([] & s6 & [= <-] & [= <- <-]).
  exists xD, xX, xB. eexists _, e'.
  split; [subst nD; by rewrite length_fmap in HxD|].
  split; [subst nX; by rewrite length_fmap in HxX|].
  split; [subst nB; by rewrite !length_fmap in HxB|].
  split; [done|]. split; [done|]. split; [done|].
  rewrite Hr', Hr in Hth. rewrite !fmap_app. exact Hth.
Qed.
End compile_function_exact.

(** ** What [call] hands to the artifact *)

Section call_exact.
Context `{Engine}.

Local Abbreviation vpart f X :=
  (match func_varargs f with
   | Some va => [(va, BTuple X)]
   | None => []
   end).
Local Abbreviation kpart f B :=
  (match func_keywords f with
   | Some kw => [(kw, BBag B)]
   | None => []
   end).

(** [call] invokes the artifact that [_compile_function] has just compiled,
    on the values of the declared parameters and the variadic values as
    positional arguments and on the keyword bag as keyword arguments. *)
Lemma call_exact args kwargs (s s_c : symbolic) fn
    (ds X : list obj) (B : list (string * obj)) :
  wf_signature (pyfn s) ->
  length ds = length (func_args (pyfn s)) ->
  (func_varargs (pyfn s) = None -> X = []) ->
  (func_keywords (pyfn s) = None -> B = []) ->
  orderedcallargs (pyfn s) args kwargs
  = inr (zip (func_args (pyfn s)) (BVal <$> ds)
         ++ vpart (pyfn s) X ++ kpart (pyfn s) B) ->
  _compile_function args kwargs s = (inr fn, s_c) ->
  call args kwargs s
  = call_ext (EvInvoke (ds ++ X) B) (fn_call fn (ds ++ X) B) s_c.
Proof.
  intros Hwf Hl HX HB Hca Hcomp.
  destruct (compile_function_inr _ _ _ _ _ Hcomp)
    as (_ & _ & _ & _ & ca & key & _ & Hca' & Hkey & Hcache & Hp).
  rewrite Hca in Hca'. injection Hca' as <-.
  set (f := pyfn s) in *.
  set (ca := zip (func_args f) (BVal <$> ds) ++ vpart f X ++ kpart f B) in *.
  unfold call.
  unfold bind at 1, gets at 1. fold f.
  unfold bind at 1, liftE at 1. rewrite Hca.
  destruct (varargs_count_pure f ca s s) as [Hs1 _].
  destruct (varargs_count f ca s) as [[e|key0] s0] eqn:Hk; [done|].
  cbn [fst snd] in Hs1, Hkey. subst s0. injection Hkey as ->.
  unfold bind at 1. rewrite Hk.
  unfold bind at 1. rewrite Hcomp.
  unfold bind at 1, gets at 1. rewrite Hcache. cbn [default].
  unfold wf_signature, declared_parameters in Hwf.
  apply NoDup_app in Hwf as (Hn1 & Hdis & Hwf2).
  assert (Hkeys : od_keys (zip (func_args f) (BVal <$> ds)) = func_args f).
  { unfold od_keys. change (map fst ?l) with (l.*1).
    apply fst_zip. rewrite length_fmap. lia. }
  unfold bind at 1.
  rewrite (mapM_pure _ (fun arg : string =>
                          match od_get arg ca with
                          | Some (BVal a) => inr a
                          | Some _ => inl (TypeError "not a value" [])
                          | None => inl (KeyError "{0}" [FStr arg])
                          end)); first last.
  { intros x s1. by destruct (od_get x ca) as [[?|?|?]|]. }
  assert (Hpos : mapE (fun arg : string =>
                         match od_get arg ca with
                         | Some (BVal a) => inr a
                         | Some _ => inl (TypeError "not a value" [])
                         | None => inl (KeyError "{0}" [FStr arg])
                         end) (func_args f) = inr ds).
  { apply mapE_Forall2. apply Forall2_same_length_lookup_2; [done|].
    intros j n d Hn Hd. subst ca.
    rewrite (od_get_app_l _ _ n (BVal d)); [done|].
    apply (od_get_zip _ _ j); [done | done |].
    by rewrite list_lookup_fmap, Hd. }
  rewrite Hpos.
  assert (Hextra : match func_varargs f with
                   | Some va => match od_get va ca with
                                | Some (BTuple items) => items
                                | _ => []
                                end
                   | None => []
                   end = X).
  { destruct (func_varargs f) as [va|] eqn:Hva; [|by rewrite HX].
    subst ca. rewrite od_get_app_r; first last.
    { rewrite Hkeys. intros Hin. apply (Hdis va Hin).
      apply elem_of_app. left. apply list_elem_of_here. }
    cbn [app od_get]. by rewrite decide_True. }
  assert (Hbag : match func_keywords f with
                 | Some kw => match od_get kw ca with
                              | Some (BBag items) => items
                              | _ => []
                              end
                 | None => []
                 end = B).
  { destruct (func_keywords f) as [kw|] eqn:Hkw; [|by rewrite HB].
    subst ca. rewrite od_get_app_r; first last.
    { rewrite Hkeys. intros Hin. apply (Hdis kw Hin).
      apply elem_of_app. right. apply list_elem_of_here. }
    destruct (func_varargs f) as [va|] eqn:Hva.
    - cbn [app od_get]. rewrite decide_False; [by rewrite decide_True|].
      intros ->. simpl in Hwf2. apply NoDup_cons in Hwf2 as [Hnin _].
      apply Hnin, list_elem_of_here.
    - cbn [app od_get]. by rewrite decide_True. }
  rewrite Hextra, Hbag. done.
Qed.
End call_exact.

(** ** The values bound to the inputs of the artifact *)

Section bind_inputs_exact.
Variable var_name : node -> option string.

Local Abbreviation mk_param defaults :=
  (fun nx : string * node => Param nx.2 (od_get nx.1 defaults) nx.1).

Lemma enumerate_from_app {A} i (l1 l2 : list A) :
  enumerate_from i (l1 ++ l2)
  = enumerate_from i l1 ++ enumerate_from (i + length l1) l2.
Proof.
  revert i. induction l1 as [|x l1 IH]; intros i; simpl.
  - by rewrite Nat.add_0_r.
  - rewrite IH. do 3 f_equal. lia.
Qed.

Lemma od_get_NoDup_values {K V} `{EqDecision K} (d : odict K V) :
  NoDup d.*1 -> Forall2 (fun k v => od_get k d = Some v) d.*1 d.*2.
Proof.
  induction d as [|[k v] d IH]; [constructor|].
  rewrite !fmap_cons. cbn [fst snd]. intros [Hk Hnd]%NoDup_cons.
  constructor.
  - simpl. by rewrite decide_True.
  - eapply Forall2_impl; [by apply IH|].
    intros k' v' Hget. simpl. rewrite decide_False; [done|].
    intros ->. apply Hk. by eapply od_get_Some_keys.
Qed.

(** Inputs that take their value from the positional arguments. *)
Lemma bind_positional defaults pos kw i (names : list string)
    (xs : list node) (vals : list obj) :
  length names = length xs -> length xs = length vals ->
  (forall j v, vals !! j = Some v -> pos !! (i + j) = Some v) ->
  Forall (fun n => od_get n kw = None) names ->
  mapE (bind_input var_name pos kw)
       (enumerate_from i (mk_param defaults <$> zip names xs))
  = inr (zip xs vals).
Proof.
  revert i xs vals. induction names as [|n names IH];
    intros i [|x xs] [|v vals] Hl1 Hl2 Hpos Hkw; try done.
  apply Forall_cons in Hkw as [Hn Hkw].
  cbn [zip_with fmap list_fmap enumerate_from mapE bind_input input_node
       input_name fst snd mbind option_bind].
  rewrite <- (Nat.add_0_r i) at 1. rewrite (Hpos 0 v eq_refl), Hn.
  rewrite (IH (S i) xs vals); [done | by injection Hl1 | by injection Hl2 | |done].
  intros j w Hw. replace (S i + j) with (i + S j) by lia.
  by apply (Hpos (S j)).
Qed.

(** Inputs that take their value from the keyword arguments. *)
Lemma bind_keywords defaults pos kw i (names : list string)
    (xs : list node) (vals : list obj) :
  length names = length xs -> length pos <= i ->
  Forall2 (fun n v => od_get n kw = Some v) names vals ->
  mapE (bind_input var_name pos kw)
       (enumerate_from i (mk_param defaults <$> zip names xs))
  = inr (zip xs vals).
Proof.
  intros Hl Hi Hkw. revert i xs Hl Hi.
  induction Hkw as [|n v names vals Hn _ IH]; intros i [|x xs] Hl Hi;
    try done.
  cbn [zip_with fmap list_fmap enumerate_from mapE bind_input input_node
       input_name fst snd mbind option_bind].
  rewrite (lookup_ge_None_2 pos i Hi), Hn.
  rewrite (IH (S i) xs); [done | by injection Hl | lia].
Qed.

(** The variables of the variadic values, when there is no keyword. *)
Lemma bind_variadic pos i (xs : list node) (vals : list obj) :
  length xs = length vals ->
  (forall j v, vals !! j = Some v -> pos !! (i + j) = Some v) ->
  mapE (bind_input var_name pos []) (enumerate_from i (In_ <$> xs))
  = inr (zip xs vals).
Proof.
  revert i vals. induction xs as [|x xs IH]; intros i [|v vals] Hl Hpos;
    try done.
  cbn [zip_with fmap list_fmap enumerate_from mapE bind_input input_node
       input_name].
  rewrite <- (Nat.add_0_r i) at 1. rewrite (Hpos 0 v eq_refl).
  assert ((n ← var_name x; od_get n (@nil (string * obj))) = None) as ->.
  { by destruct (var_name x). }
  rewrite (IH (S i) vals); [done | by injection Hl |].
  intros j w Hw. replace (S i + j) with (i + S j) by lia.
  by apply (Hpos (S j)).
Qed.

(** The binding of the inputs of [_compile_function] to the arguments of
    [call], when the call has no variadic value or no keyword of the
    bag. *)
Lemma bind_inputs_exact defaults (names : list string)
    (xD xX xB : list node) (ds X : list obj) (B : list (string * obj)) :
  length names = length ds -> length xD = length ds ->
  length xX = length X -> length xB = length B ->
  NoDup B.*1 -> (forall k, k ∈ names -> k ∉ B.*1) ->
  X = [] \/ B = [] ->
  bind_inputs var_name
    ((mk_param defaults <$> zip (names ++ B.*1) (xD ++ xB)) ++ (In_ <$> xX))
    (ds ++ X) B
  = inr (zip (xD ++ xX ++ xB) (ds ++ X ++ B.*2)).
Proof.
  intros Hln HlD HlX HlB Hnd Hdis HR. unfold bind_inputs.
  rewrite decide_False; first last.
  { rewrite !length_app, !length_fmap, length_zip, !length_app, length_fmap.
    lia. }
  rewrite decide_True; first last.
  { apply Forall_forall. intros k Hk. rewrite fmap_app.
    apply elem_of_app. left. rewrite <- list_fmap_compose.
    apply list_elem_of_fmap.
    apply list_elem_of_lookup_1 in Hk as [j Hj].
    destruct (lookup_lt_is_Some_2 xB j) as [x Hx].
    { unfold od_keys in Hj. apply lookup_lt_Some in Hj.
      rewrite length_map in Hj. lia. }
    exists (k, x). split; [done|].
    apply (list_elem_of_lookup_2 _ (length names + j)).
    apply lookup_zip_with_Some. exists k, x. split; [done|]. split.
    - rewrite lookup_app_r by lia.
      by replace (length names + j - length names) with j by lia.
    - rewrite lookup_app_r by lia.
      by replace (length names + j - length xD) with j by lia. }
  rewrite zip_app_eq by lia. rewrite fmap_app.
  unfold enumerate. rewrite !enumerate_from_app. rewrite !length_fmap.
  destruct HR as [-> | ->].
  - destruct xX; [|done]. rewrite !app_nil_r. cbn [app].
    rewrite (zip_app_eq xD xB ds B.*2) by done.
    apply mapE_app_inr.
    + apply bind_positional; [lia | done | by intros j v Hv |].
      apply Forall_forall. intros n Hn. apply od_get_None_keys.
      by apply Hdis.
    + apply bind_keywords; [by rewrite length_fmap; lia | |].
      * rewrite Nat.add_0_l, length_zip. lia.
      * by apply od_get_NoDup_values.
  - destruct xB; [|done]. rewrite !app_nil_r. cbn [fmap list_fmap zip_with].
    cbn [app]. rewrite (zip_app_eq xD xX ds X) by done.
    apply mapE_app_inr.
    + apply bind_positional; [lia | done | | ].
      * intros j v Hv. by apply lookup_app_l_Some.
      * apply Forall_forall. by intros n Hn.
    + apply bind_variadic; [done|].
      intros j v Hv. rewrite length_fmap, length_zip.
      rewrite lookup_app_r by lia.
      by replace (0 + length names `min` length xD + j - length ds)
        with j by lia.
Qed.
End bind_inputs_exact.

(** ** The outputs of the artifact *)

Section outputs_exact.

Local Abbreviation traced vars a := (is_Some (od_get (oid a) vars)).
Local Abbreviation bindings vars items :=
  (omap (fun r : obj => pair (oid r) <$> od_get (oid r) vars) items).

(** The value that the artifact has for a traced node: the value bound to
    the input that [givens] puts in its place. *)
Lemma givens_value (nodes xs : list node) (vals : list obj) j v a :
  NoDup nodes -> NoDup xs ->
  length xs = length nodes -> length vals = length xs ->
  nodes !! j = Some v -> vals !! j = Some a ->
  (x ← od_get v (zip nodes xs); oval <$> od_get x (zip xs vals))
  = Some (oval a).
Proof.
  intros Hn Hx Hl1 Hl2 Hv Ha.
  destruct (lookup_lt_is_Some_2 xs j) as [x Hxj].
  { apply lookup_lt_Some in Hv. lia. }
  rewrite (od_get_zip nodes xs j v x) by done. simpl.
  by rewrite (od_get_zip xs vals j x a).
Qed.

Lemma bindings_fmap (vars : odict nat node) items :
  Forall (fun r => traced vars r) items ->
  bindings vars items = (fun r => (oid r, traced_node vars r)) <$> items.
Proof.
  induction 1 as [|r items [v Hv] _ IH]; [done|].
  simpl. unfold traced_node. rewrite Hv. simpl. f_equal. exact IH.
Qed.

Lemma od_set_by_key {A V} (g : nat -> V) (k : nat) (r : A)
    (d : odict nat A) :
  od_set k (g k) ((fun i => (i, g i)) <$> od_keys d)
  = (fun i => (i, g i)) <$> od_keys (od_set k r d).
Proof.
  induction d as [|[k0 r0] d IH]; [done|]. simpl.
  destruct (decide (k = k0)) as [->|Hne]; [done|].
  simpl. f_equal. exact IH.
Qed.

Lemma od_update_by_key {A V} (key : A -> nat) (g : nat -> V) (l : list A)
    (d : odict nat A) :
  od_update ((fun i => (i, g i)) <$> od_keys d)
            ((fun r => (key r, g (key r))) <$> l)
  = (fun i => (i, g i))
      <$> od_keys (od_update d ((fun r => (key r, r)) <$> l)).
Proof.
  revert d. induction l as [|r l IH]; intros d; [done|].
  rewrite !fmap_cons, !od_update_cons. cbn [fst snd].
  rewrite (od_set_by_key g (key r) r d). apply IH.
Qed.

(** [s_results] has the node of each distinct identity. *)
Lemma results_nodes (vars : odict nat node) items :
  Forall (fun r => traced vars r) items ->
  od_values (od_of_list (bindings vars items))
  = (fun i => default 0 (od_get i vars)) <$> distinct_ids items.
Proof.
  intros Hall. rewrite bindings_fmap by done.
  pose proof (od_update_by_key oid (fun i => default 0 (od_get i vars))
                items []) as Hk.
  change (od_of_list ((fun r => (oid r, traced_node vars r)) <$> items)
          = (fun i => (i, default 0 (od_get i vars)))
              <$> distinct_ids items) in Hk.
  rewrite Hk. unfold od_values. change (map snd ?l) with (l.*2).
  by rewrite <- list_fmap_compose.
Qed.

Lemma distinct_ids_elem items i :
  i ∈ distinct_ids items <-> exists r, r ∈ items /\ oid r = i.
Proof.
  unfold distinct_ids. rewrite od_keys_of_list_elem.
  rewrite <- list_fmap_compose, list_elem_of_fmap.
  split; [intros (r & -> & Hr); by exists r | intros (r & Hr & <-); by exists r].
Qed.

Lemma eval_all_Forall2 (ev : node -> option pyval) (g : nat -> node)
    (P : nat -> pyval -> Prop) ids :
  Forall (fun i => exists w, ev (g i) = Some w /\ P i w) ids ->
  exists ws, eval_all ev (g <$> ids) = Some ws /\ Forall2 P ids ws.
Proof.
  induction 1 as [|i ids (w & Hw & HP) _ (ws & Hws & Hall)].
  - by exists [].
  - exists (w :: ws). rewrite fmap_cons. cbn [eval_all].
    rewrite Hw, Hws. split; [done|].
    by constructor.
Qed.

(** The artifact returns the values of the distinct results: a single
    value when there is one, a list otherwise. *)
Lemma outputs_exact (ev : node -> option pyval) (vars : odict nat node)
    items :
  Forall (fun r => traced vars r) items ->
  Forall (fun r => exists w, ev (traced_node vars r) = Some w /\
                             val_eq w (oval r)) items ->
  exists out,
    match collect_outputs (od_of_list (bindings vars items)) with
    | OSingle v =>
        match ev v with
        | Some r => inr (FSingle r)
        | None => inl (PyExc "MissingInputError" "" [])
        end
    | OMany vs =>
        match eval_all ev vs with
        | Some rs => inr (FList rs)
        | None => inl (PyExc "MissingInputError" "" [])
        end
    end = inr out /\
    returns_values items out.
Proof.
  intros Htr Hev. unfold collect_outputs. rewrite results_nodes by done.
  set (g := fun i => default 0 (od_get i vars)).
  assert (Hids : Forall (fun i => exists w,
                   ev (g i) = Some w /\
                   Forall (fun r => oid r = i -> val_eq w (oval r)) items)
                 (distinct_ids items)).
  { apply Forall_forall. intros i (r & Hr & <-)%distinct_ids_elem.
    rewrite Forall_forall in Hev.
    destruct (Hev r Hr) as (w & Hw & Hval). exists w. split; [done|].
    apply Forall_forall. intros r' Hr' Hid.
    destruct (Hev r' Hr') as (w' & Hw' & Hval').
    unfold traced_node in Hw, Hw'. rewrite Hid in Hw'.
    fold (g (oid r)) in Hw, Hw'. congruence. }
  destruct (eval_all_Forall2 ev g _ _ Hids) as (ws & Hws & Hall).
  destruct (distinct_ids items) as [|i [|i' ids]] eqn:Hd.
  - exists (FList []). split; [done|].
    unfold returns_values. rewrite Hd. split; [done|constructor].
  - apply Forall_cons in Hids as [(w & Hw & Hval) _].
    exists (FSingle w). simpl. rewrite Hw. split; [done|].
    unfold returns_values. rewrite Hd. split; [done|].
    apply Forall_forall. intros r Hr.
    rewrite Forall_forall in Hval. apply (Hval r Hr).
    assert (Hin : oid r ∈ distinct_ids items).
    { apply distinct_ids_elem. by exists r. }
    rewrite Hd in Hin. by apply list_elem_of_singleton in Hin.
  - exists (FList ws). rewrite !fmap_cons in Hws |- *.
    cbn [eval_all] in Hws |- *.
    split; [by rewrite Hws|]. unfold returns_values. rewrite Hd. split; [done|]. done.
Qed.
End outputs_exact.

(** ** What the bindings of a trace hold *)

Section bindings_exact.
Context `{Engine}.

Local Abbreviation traced vars a := (is_Some (od_get (oid a) vars)).
Local Abbreviation vpart f X :=
  (match func_varargs f with
   | Some va => [(va, BTuple X)]
   | None => []
   end).
Local Abbreviation kpart f B :=
  (match func_keywords f with
   | Some kw => [(kw, BBag B)]
   | None => []
   end).

(** A later assignment to a key hides the earlier ones. *)
Lemma od_get_update {K V} `{EqDecision K} (d : odict K V) kvs k :
  od_get k (od_update d kvs)
  = match od_get k (od_of_list kvs) with
    | Some v => Some v
    | None => od_get k d
    end.
Proof.
  induction kvs as [|[k1 v1] kvs IH] using rev_ind; [done|].
  unfold od_of_list. rewrite !od_update_snoc. cbn [fst snd].
  destruct (decide (k1 = k)) as [->|Hne].
  - by rewrite !od_get_set_eq.
  - by rewrite !od_get_set_ne.
Qed.

Lemma od_get_NoDup_elem {K V} `{EqDecision K} (d : odict K V) k v :
  NoDup d.*1 -> (k, v) ∈ d -> od_get k d = Some v.
Proof.
  induction d as [|[k1 v1] d IH]; intros Hnd Hin.
  - by apply elem_of_nil in Hin.
  - rewrite fmap_cons in Hnd. apply NoDup_cons in Hnd as [Hk1 Hnd].
    apply elem_of_cons in Hin as [[= -> ->]|Hin]; simpl.
    + by rewrite decide_True.
    + rewrite decide_False; [by apply IH|]. intros ->.
      apply Hk1. apply list_elem_of_fmap. by exists (k1, v).
Qed.

Lemma od_get_by_key {V} (g : nat -> V) (ks : list nat) k :
  k ∈ ks -> od_get k ((fun i => (i, g i)) <$> ks) = Some (g k).
Proof.
  induction ks as [|k1 ks IH]; intros Hin.
  - by apply elem_of_nil in Hin.
  - rewrite fmap_cons. simpl. destruct (decide (k = k1)) as [->|Hne]; [done|].
    apply IH. by apply elem_of_cons in Hin as [?|?].
Qed.

(** C5, as the code has it.  After a trace that returns, [s_args] has
    exactly one entry under each name among the declared positional
    parameters, the variadic parameter if the function has one, and the
    keywords of the call; the keyword bag gets no entry of its own, its
    keywords get one each.  The entry of a declared parameter is the node of
    the value bound to it, the entry of a keyword of the bag is the node of
    its value, and the entry of the variadic parameter is the tuple of the
    nodes of the further positional values, unless a keyword of the call has
    that name: the two then share the one entry, which holds the node of the
    keyword.  [s_results] has exactly one entry for each identity among the
    returned values, in the order of first occurrence, so that a value
    returned twice has one entry; a result that is not a tuple counts as a
    tuple of one.  Every node is one that the run shadowed. *)
Theorem trace_bindings args kwargs (s s' : symbolic) :
  wf_signature (pyfn s) ->
  trace args kwargs s = (inr tt, s') ->
  exists a' k' res svars e' ds,
    let f := pyfn s in
    let vars := od_of_list svars in
    let X := drop (length (func_args f)) a' in
    let B := filter (fun kv : string * obj => kv.1 ∉ func_args f) k' in
    calls (sym_world s') = calls (sym_world s) ++ [EvTrace a' k'] /\
    ctx_call f a' k' (eng (sym_world s)) = (inr (res, svars), e') /\
    orderedcallargs f a' k'
    = inr (zip (func_args f) (BVal <$> ds) ++ vpart f X ++ kpart f B) /\
    length ds = length (func_args f) /\
    Forall (fun a => traced vars a) (ds ++ X ++ B.*2) /\
    Forall (fun r => traced vars r) (result_items res) /\
    NoDup (od_keys (s_args s')) /\
    (forall n, n ∈ od_keys (s_args s') <->
               n ∈ func_args f \/ func_varargs f = Some n \/
               n ∈ od_keys kwargs) /\
    (forall i n d, func_args f !! i = Some n -> ds !! i = Some d ->
       od_get n (s_args s') = Some (SVar (traced_node vars d))) /\
    (forall n a, (n, a) ∈ B ->
       od_get n (s_args s') = Some (SVar (traced_node vars a))) /\
    (forall va, func_varargs f = Some va -> va ∉ od_keys kwargs ->
       od_get va (s_args s') = Some (SNodes (traced_node vars <$> X))) /\
    (func_varargs f ∉ Some <$> od_keys kwargs ->
     s_args s'
     = zip (func_args f) (SVar ∘ traced_node vars <$> ds)
       ++ match func_varargs f with
          | Some va => [(va, SNodes (traced_node vars <$> X))]
          | None => []
          end
       ++ ((fun kv : string * obj => (kv.1, SVar (traced_node vars kv.2)))
             <$> B)) /\
    s_results s'
    = (fun i => (i, default 0 (od_get i vars)))
        <$> distinct_ids (result_items res) /\
    NoDup (od_keys (s_results s')) /\
    (forall i, i ∈ od_keys (s_results s') <->
               exists r, r ∈ result_items res /\ oid r = i) /\
    (forall r, r ∈ result_items res ->
       od_get (oid r) (s_results s') = Some (traced_node vars r)).
Proof.
  intros Hwf Htr.
  destruct (trace_inr _ _ _ _ Hwf Htr)
    as (a' & k' & s1 & res & svars & e' & ca & s3 & Hch & Hctx & Hca & _).
  destruct (trace_exact _ _ _ _ _ _ _ _ _ _ _ Hwf Htr Hch Hctx Hca)
    as (Hall & Hres & _ & Hsa & Hsr & _).
  destruct (orderedcallargs_groups _ _ _ _ Hwf Hca)
    as (ds & Hl & _ & Heq & HX & HB).
  exists a', k', res, svars, e', ds. cbn zeta.
  set (f := pyfn s) in *. set (vars := od_of_list svars) in *.
  set (X := drop (length (func_args f)) a') in *.
  set (B := filter (fun kv : string * obj => kv.1 ∉ func_args f) k') in *.
  set (L1 := zip (func_args f) (SVar ∘ traced_node vars <$> ds)).
  set (Lv := match func_varargs f with
             | Some va => [(va, SNodes (traced_node vars <$> X))]
             | None => []
             end).
  set (LB := (fun kv : string * obj => (kv.1, SVar (traced_node vars kv.2)))
               <$> B).
  assert (Hsa' : s_args s' = od_of_list (L1 ++ Lv ++ LB)).
  { rewrite Hsa, Heq. f_equal. by apply entry_sargs_groups. }
  assert (Hbv : (bound_values f ca).*2 = ds ++ X ++ B.*2).
  { rewrite Heq. by apply bound_values_groups. }
  rewrite Hbv in Hall.
  (* the keys of the three groups *)
  assert (HkL1 : L1.*1 = func_args f).
  { unfold L1. apply fst_zip. rewrite length_fmap. lia. }
  assert (HkLv : Lv.*1 = option_list (func_varargs f)).
  { unfold Lv. by destruct (func_varargs f). }
  assert (HkLB : LB.*1 = B.*1).
  { unfold LB. rewrite <- list_fmap_compose. by apply list_fmap_ext. }
  pose proof Hwf as Hwf'. unfold wf_signature, declared_parameters in Hwf'.
  apply NoDup_app in Hwf' as (Hnd1 & Hdis & _).
  assert (Hndk : NoDup (od_keys k')).
  { apply check_args_ok in Hch as (_ & _ & _ & ->).
    apply od_keys_of_list_NoDup. }
  assert (HndB : NoDup B.*1) by (by apply filter_fst_NoDup).
  assert (HBk : forall n, n ∈ B.*1 <-> n ∈ od_keys kwargs /\ n ∉ func_args f).
  { intros n. rewrite <- (check_args_keys _ _ _ _ _ _ _ n Hch).
    rewrite !list_elem_of_fmap. split.
    - intros ([m v] & -> & [Hnin Hin]%list_elem_of_filter).
      split; [by exists (m, v) | done].
    - intros [([m v] & -> & Hin) Hnin]. exists (m, v). split; [done|].
      by apply list_elem_of_filter. }
  assert (HvaF : forall va, func_varargs f = Some va -> va ∉ func_args f).
  { intros va Hva Hin. apply (Hdis va Hin). rewrite Hva.
    apply elem_of_app. left. apply list_elem_of_here. }
  assert (HLBget : forall n a, (n, a) ∈ B ->
            od_get n (od_of_list LB) = Some (SVar (traced_node vars a))).
  { intros n a Hin. rewrite od_of_list_NoDup by (by rewrite HkLB).
    apply od_get_NoDup_elem; [by rewrite HkLB|].
    unfold LB. apply list_elem_of_fmap. by exists (n, a). }
  assert (HLBnone : forall n, n ∉ B.*1 -> od_get n (od_of_list LB) = None).
  { intros n Hn. apply od_get_None_keys.
    by rewrite od_keys_of_list_elem, HkLB. }
  split; [|split; [|split; [|split; [|split; [|split]]]]].
  - pose proof (trace_calls _ _ _ _ _ _ Hch) as Hc. by rewrite Htr in Hc.
  - done.
  - by rewrite <- Heq.
  - done.
  - done.
  - done.
  - split; [|split; [|split; [|split; [|split; [|split]]]]].
    + rewrite Hsa'. apply od_keys_of_list_NoDup.
    + intros n. rewrite Hsa', od_keys_of_list_elem.
      rewrite !fmap_app, !elem_of_app, HkL1, HkLv, HkLB, HBk.
      assert (Hopt : n ∈ option_list (func_varargs f)
                     <-> func_varargs f = Some n).
      { destruct (func_varargs f) as [va|]; simpl.
        - rewrite list_elem_of_singleton.
          split; [by intros -> | by intros [= ->]].
        - rewrite elem_of_nil. split; [done | by intros ?]. }
      rewrite Hopt. destruct (decide (n ∈ func_args f)); tauto.
    + intros i n d Hn Hd. rewrite Hsa'.
      unfold od_of_list. rewrite od_update_app, od_get_update.
      assert (Hnin : n ∈ func_args f) by (by eapply list_elem_of_lookup_2).
      assert (Hnone : od_get n (od_of_list (Lv ++ LB)) = None).
      { apply od_get_None_keys. rewrite od_keys_of_list_elem.
        rewrite fmap_app, HkLv, HkLB, not_elem_of_app. split.
        - intros Hin. apply (Hdis n Hnin). apply elem_of_app. by left.
        - rewrite HBk. tauto. }
      rewrite Hnone. fold (od_of_list L1).
      rewrite od_of_list_NoDup by (by rewrite HkL1).
      unfold L1. apply (od_get_zip _ _ i); [done | done |].
      by rewrite list_lookup_fmap, Hd.
    + intros n a Hin. rewrite Hsa', app_assoc.
      unfold od_of_list. rewrite od_update_app, od_get_update.
      by rewrite (HLBget n a Hin).
    + intros va Hva Hnk. rewrite Hsa', app_assoc.
      unfold od_of_list. rewrite od_update_app, od_get_update.
      rewrite HLBnone by (rewrite HBk; tauto).
      rewrite od_update_app, od_get_update.
      unfold Lv. rewrite Hva. cbn. by rewrite decide_True.
    + intros Hva. rewrite Hsa'. apply od_of_list_NoDup.
      rewrite !fmap_app, HkL1, HkLv, HkLB.
      apply bag_keys_NoDup; [done | done |].
      intros (n & Hn & Hin)%list_elem_of_fmap. apply Hva.
      apply list_elem_of_fmap. exists n. split; [done|].
      by apply (check_args_keys _ _ _ _ _ _ _ n Hch).
    + assert (Hsr' : s_results s'
                     = (fun i => (i, default 0 (od_get i vars)))
                         <$> distinct_ids (result_items res)).
      { rewrite Hsr, bindings_fmap by done. unfold od_of_list.
        exact (od_update_by_key oid (fun i => default 0 (od_get i vars))
                 (result_items res) []). }
      assert (Hkeys : od_keys (s_results s')
                      = distinct_ids (result_items res)).
      { rewrite Hsr'. unfold od_keys. change (map fst ?l) with (l.*1).
        rewrite <- list_fmap_compose. apply list_fmap_id. }
      split; [done|]. split; [|split].
      * rewrite Hkeys. apply od_keys_of_list_NoDup.
      * intros i. rewrite Hkeys. apply distinct_ids_elem.
      * intros r Hr. rewrite Hsr'.
        apply (od_get_by_key (fun i => default 0 (od_get i vars))).
        apply distinct_ids_elem. by exists r.
Qed.
End bindings_exact.

Section bindings_exact_examples.
#[local] Existing Instance twice_engine.

Lemma trace_bindings_witness :
  let args := [float_a] in
  let kwargs := [("a", float_b); ("b", float_c)] in
  let s := sym_twice in
  let s' := (trace args kwargs s).2 in
  wf_signature (pyfn s) /\
  trace args kwargs s = (inr tt, s') /\
  exists a' k' res svars e' ds,
    let f := pyfn s in
    let vars := od_of_list svars in
    let X := drop (length (func_args f)) a' in
    let B := filter (fun kv : string * obj => kv.1 ∉ func_args f) k' in
    calls (sym_world s') = calls (sym_world s) ++ [EvTrace a' k'] /\
    ctx_call f a' k' (eng (sym_world s)) = (inr (res, svars), e') /\
    orderedcallargs f a' k'
    = inr (zip (func_args f) (BVal <$> ds)
           ++ match func_varargs f with
              | Some va => [(va, BTuple X)]
              | None => []
              end
           ++ match func_keywords f with
              | Some kw => [(kw, BBag B)]
              | None => []
              end) /\
    length ds = length (func_args f) /\
    Forall (fun a => is_Some (od_get (oid a) vars)) (ds ++ X ++ B.*2) /\
    Forall (fun r => is_Some (od_get (oid r) vars)) (result_items res) /\
    NoDup (od_keys (s_args s')) /\
    (forall n, n ∈ od_keys (s_args s') <->
               n ∈ func_args f \/ func_varargs f = Some n \/
               n ∈ od_keys kwargs) /\
    (forall i n d, func_args f !! i = Some n -> ds !! i = Some d ->
       od_get n (s_args s') = Some (SVar (traced_node vars d))) /\
    (forall n a, (n, a) ∈ B ->
       od_get n (s_args s') = Some (SVar (traced_node vars a))) /\
    (forall va, func_varargs f = Some va -> va ∉ od_keys kwargs ->
       od_get va (s_args s') = Some (SNodes (traced_node vars <$> X))) /\
    (func_varargs f ∉ Some <$> od_keys kwargs ->
     s_args s'
     = zip (func_args f) (SVar ∘ traced_node vars <$> ds)
       ++ match func_varargs f with
          | Some va => [(va, SNodes (traced_node vars <$> X))]
          | None => []
          end
       ++ ((fun kv : string * obj => (kv.1, SVar (traced_node vars kv.2)))
             <$> B)) /\
    s_results s'
    = (fun i => (i, default 0 (od_get i vars)))
        <$> distinct_ids (result_items res) /\
    NoDup (od_keys (s_results s')) /\
    (forall i, i ∈ od_keys (s_results s') <->
               exists r, r ∈ result_items res /\ oid r = i) /\
    (forall r, r ∈ result_items res ->
       od_get (oid r) (s_results s') = Some (traced_node vars r)).
Proof.
  intros args kwargs s s'.
  assert (H1 : wf_signature (pyfn s))
    by (unfold wf_signature; vm_compute; solve_NoDup).
  assert (H2 : trace args kwargs s = (inr tt, s'))
    by (vm_compute; reflexivity).
  split; [exact H1|]. split; [exact H2|].
  exact (trace_bindings args kwargs s s' H1 H2).
Defined.

(** The trace of the witness, run: [x] and the two keywords have one entry
    each, the bag [kw] has none, and the value returned twice has one. *)
Example trace_bindings_run :
  let s' := (trace [float_a] [("a", float_b); ("b", float_c)] sym_twice).2 in
  s_args s' = [("x", SVar 101); ("a", SVar 102); ("b", SVar 103)] /\
  s_results s' = [(1, 101)].
Proof. split; vm_compute; reflexivity. Qed.
End bindings_exact_examples.

Section bindings_variadic_examples.
#[local] Existing Instance echo_graph_engine.

(** A variadic parameter: the entry of [rest] is the tuple of the nodes of
    the further positional values. *)
Example trace_variadic_run :
  let s' := (trace [float_a; float_b; float_c] [] fun_echo).2 in
  (trace [float_a; float_b; float_c] [] fun_echo).1 = inr tt /\
  s_args s' = [("x", SVar 101); ("y", SVar 102); ("rest", SNodes [103])].
Proof. split; vm_compute; reflexivity. Qed.

(** A keyword with the name of the variadic parameter goes to the keyword
    bag, and the loop over the bag assigns its node over the empty tuple
    that the variadic parameter got: [rest] has one entry, a node. *)
Example trace_variadic_keyword_run :
  let s' := (trace [float_a; float_b] [("rest", float_c)] fun_echo).2 in
  (trace [float_a; float_b] [("rest", float_c)] fun_echo).1 = inr tt /\
  orderedcallargs (pyfn fun_echo) [float_a; float_b] [("rest", float_c)]
  = inr [("x", BVal float_a); ("y", BVal float_b); ("rest", BTuple []);
         ("kw", BBag [("rest", float_c)])] /\
  s_args s' = [("x", SVar 101); ("y", SVar 102); ("rest", SVar 103)].
Proof. split_and!; vm_compute; reflexivity. Qed.
End bindings_variadic_examples.

(** ** The compiled function returns what the function returned *)

Section refinement.
Context `{Engine}.

(** The symbolic engine, as far as [Function] relies on it: [node_eval]
    gives the value of a node of the graph from the values of the nodes it
    is computed from, [var_name] the name of a variable, and [gen] counts
    the variables issued so far. *)
Variable node_eval : (node -> option pyval) -> node -> option pyval.
Variable var_name : node -> option string.
Variable gen : estate -> nat.

(** A new variable is one that was not issued before. *)
Hypothesis new_input_fresh : forall v n e,
  gen e <= (new_input v n e).1 < gen (new_input v n e).2.

(** A compiled artifact binds its arguments to its inputs and evaluates its
    outputs in the graph, with the givens replaced by the inputs. *)
Hypothesis compiled_artifact : forall inputs outputs givens e fn e',
  theano_function inputs outputs givens e = (inr fn, e') ->
  forall pos kw e1,
    (fn_call fn pos kw e1).1
    = artifact_result node_eval var_name inputs outputs givens pos kw.

Local Abbreviation alike := (fun a a' : obj => val_eq (oval a) (oval a')).

(** C2, amended.  Take a call of [Function(f)] that does not pass both
    further positional arguments and keywords of the bag, whose keywords
    are distinct and do not name the variadic parameter, and that traces
    and compiles.  If the bound values are shadowed by pairwise distinct
    nodes, and the graph computes the results of [f] from the nodes of its
    arguments (that is what graph-trackable means for this run), then the
    call returns the values that [f] returned in its run on these
    arguments, one for each distinct object among them: a single value when
    there is one such object, a list otherwise. *)
Theorem call_returns_results args kwargs (s s_c : symbolic) fn a' k' s1
    res svars e1 ca' :
  wf_signature (pyfn s) ->
  NoDup (od_keys kwargs) ->
  func_varargs (pyfn s) ∉ Some <$> od_keys kwargs ->
  (length args <= length (func_args (pyfn s)) \/
   Forall (fun k => k ∈ func_args (pyfn s)) (od_keys kwargs)) ->
  check_args (pyfn s) args kwargs s = (inr (a', k'), s1) ->
  ctx_call (pyfn s) a' k' (eng (sym_world s)) = (inr (res, svars), e1) ->
  orderedcallargs (pyfn s) a' k' = inr ca' ->
  NoDup (traced_node (od_of_list svars) <$> (bound_values (pyfn s) ca').*2) ->
  (forall rho,
     Forall (fun a => exists w,
               rho (traced_node (od_of_list svars) a) = Some w /\
               val_eq w (oval a))
            (bound_values (pyfn s) ca').*2 ->
     Forall (fun r => exists w,
               node_eval rho (traced_node (od_of_list svars) r) = Some w /\
               val_eq w (oval r))
            (result_items res)) ->
  _compile_function args kwargs s = (inr fn, s_c) ->
  exists out s',
    call args kwargs s = (inr out, s') /\
    returns_values (result_items res) out.
Proof using new_input_fresh compiled_artifact.
  intros Hwf Hndk Hva HR Hch Hctx Hca' Hnodes Hrun Hcomp.
  set (f := pyfn s) in *. set (vars := od_of_list svars) in *.
  destruct (compile_function_inr _ _ _ _ _ Hcomp)
    as (_ & _ & _ & _ & ca & key & _ & Hca & _).
  fold f in Hca.
  destruct (orderedcallargs_groups f _ _ _ Hwf Hca)
    as (ds & Hl & Hds & -> & HX & HB).
  destruct (orderedcallargs_groups f _ _ _ Hwf Hca')
    as (ds' & Hl' & Hds' & -> & HX' & HB').
  set (X := drop (length (func_args f)) args) in *.
  set (X' := drop (length (func_args f)) a') in *.
  set (B := filter (fun kv : string * obj => kv.1 ∉ func_args f) kwargs) in *.
  set (B' := filter (fun kv : string * obj => kv.1 ∉ func_args f) k') in *.
  destruct (check_args_alike _ _ _ _ _ _ _ Hndk Hch) as [Haa Hkk].
  pose proof (declared_alike _ _ _ _ _ _ _ _ _ Haa Hkk Hds Hds') as Hdd.
  assert (HXX : Forall2 alike X X') by (by apply Forall2_drop).
  assert (HBB : Forall2 (fun kv kv' : string * obj =>
                           kv.1 = kv'.1 /\ val_eq (oval kv.2) (oval kv'.2))
                        B B')
    by exact (filter_alike (fun k => k ∉ func_args f) _ _ Hkk).
  assert (HkB : B'.*1 = B.*1) by exact (kvalike_keys _ _ HBB).
  assert (HvB : Forall2 alike B.*2 B'.*2).
  { clear -HBB. induction HBB as [|?? ?? [_ ?] _ IH]; by constructor. }
  assert (Hkeys' : od_keys k' = od_keys kwargs) by exact (kvalike_keys _ _ Hkk).
  assert (HR0 : X = [] \/ B = []).
  { destruct HR as [HR|HR]; [left | right].
    - by apply drop_ge.
    - apply filter_Forall_nil. apply Forall_forall. intros [k v] Hin Hnin.
      cbn [fst] in Hnin. apply Hnin. rewrite Forall_forall in HR.
      apply HR. apply list_elem_of_fmap. by exists (k, v). }
  assert (Hkeys : NoDup (func_args f ++ option_list (func_varargs f)
                         ++ B'.*1)).
  { apply bag_keys_NoDup; [done | by rewrite Hkeys' | by rewrite Hkeys']. }
  rewrite bound_values_groups in Hnodes, Hrun by done.
  destruct (compile_function_exact gen new_input_fresh _ _ _ _ _ _ _ _ _ _ _
              ds' X' B' Hwf Hkeys Hch Hctx Hl' HX' HB' Hca' Hnodes Hcomp)
    as (xD & xX & xB & e & e' & HxD & HxX & HxB & Hndx & Htr & Hres & Hth).
  rewrite (call_exact _ _ _ _ _ ds X B Hwf Hl HX HB Hca Hcomp).
  pose proof (compiled_artifact _ _ _ _ _ _ Hth (ds ++ X) B
                (eng (log (EvInvoke (ds ++ X) B) (sym_world s_c)))) as Hfn.
  unfold call_ext. cbn [world_of symbolic_store].
  destruct (fn_call fn (ds ++ X) B _) as [r e2]. cbn [fst] in Hfn. subst r.
  unfold artifact_result. fold f vars. rewrite HkB.
  pose proof (Forall2_length _ _ _ Hdd) as Hld.
  pose proof (Forall2_length _ _ _ HXX) as HlX.
  pose proof (Forall2_length _ _ _ HBB) as HlB.
  rewrite bind_inputs_exact; [| lia | lia | lia | lia | | | done]; first last.
  { intros k Hk Hin. rewrite <- HkB in Hin.
    apply NoDup_app in Hkeys as (_ & Hdis & _). apply (Hdis k Hk).
    apply elem_of_app. by right. }
  { rewrite <- HkB. apply NoDup_app in Hkeys as (_ & _ & Hkeys).
    by apply NoDup_app in Hkeys as (_ & _ & Hkeys). }
  set (rho := fun v : node => _).
  assert (Hrho : Forall (fun a => exists w,
                   rho (traced_node vars a) = Some w /\ val_eq w (oval a))
                 (ds' ++ X' ++ B'.*2)).
  { assert (Hall2 : Forall2 alike (ds ++ X ++ B.*2) (ds' ++ X' ++ B'.*2))
      by (by repeat apply Forall2_app).
    apply Forall_lookup. intros j b Hb.
    destruct (Forall2_lookup_r _ _ _ _ _ Hall2 Hb) as (a & Ha & Hab).
    exists (oval a). split; [|done]. subst rho. cbn beta.
    apply (givens_value _ _ _ j); try done.
    - rewrite !length_app, !length_fmap, !length_app, length_fmap. lia.
    - rewrite !length_app, length_fmap. lia.
    - by rewrite list_lookup_fmap, Hb. }
  destruct (outputs_exact (node_eval rho) vars (result_items res) Hres
              (Hrun rho Hrho)) as (out & Hout & Hret).
  exists out. eexists. split; [|exact Hret]. by rewrite Hout.
Qed.
End refinement.

Section refinement_examples.
#[local] Existing Instance echo_graph_engine.

(** The integer 7 as [check] boxes it in the first call of [fun_echo]. *)
Local Abbreviation boxed_7 := (Obj 10 (VNpInt 7)).

Lemma call_returns_results_witness :
  wf_signature (pyfn fun_echo) /\
  NoDup (od_keys [("k", float_c)]) /\
  (func_varargs (pyfn fun_echo) ∉ Some <$> od_keys [("k", float_c)]) /\
  length [float_a; int_7] <= length (func_args (pyfn fun_echo)) /\
  check_args (pyfn fun_echo) [float_a; int_7] [("k", float_c)] fun_echo
  = (inr ([float_a; boxed_7], [("k", float_c)]),
     (check_args (pyfn fun_echo) [float_a; int_7] [("k", float_c)]
        fun_echo).2) /\
  ctx_call (pyfn fun_echo) [float_a; boxed_7] [("k", float_c)]
    (eng (sym_world fun_echo))
  = (inr (RTuple 999 [float_a; boxed_7],
          shadow <$> [float_a; boxed_7; float_c]), 1000) /\
  orderedcallargs (pyfn fun_echo) [float_a; boxed_7] [("k", float_c)]
  = inr [("x", BVal float_a); ("y", BVal boxed_7); ("rest", BTuple []);
         ("kw", BBag [("k", float_c)])] /\
  NoDup (traced_node (od_of_list (shadow <$> [float_a; boxed_7; float_c]))
         <$> [float_a; boxed_7; float_c]) /\
  exists out s',
    call [float_a; int_7] [("k", float_c)] fun_echo = (inr out, s') /\
    returns_values [float_a; boxed_7] out.
Proof.
  assert (Hfresh : forall (v : node) (n : string) (e : estate),
            id e <= (new_input v n e).1 < id (new_input v n e).2)
    by (intros v n e; simpl; lia).
  assert (Hart : forall inputs outputs givens e fn e',
            theano_function inputs outputs givens e = (inr fn, e') ->
            forall pos kw e1,
              (fn_call fn pos kw e1).1
              = artifact_result (fun rho v => rho v) (fun _ => None)
                  inputs outputs givens pos kw).
  { intros inputs outputs givens e fn e' Hth pos kw e1. simpl in Hth.
    injection Hth as <- _. reflexivity. }
  assert (H1 : wf_signature (pyfn fun_echo))
    by (unfold wf_signature; vm_compute; solve_NoDup).
  assert (H2 : NoDup (od_keys [("k", float_c)])) by (vm_compute; solve_NoDup).
  assert (H3 : func_varargs (pyfn fun_echo)
               ∉ Some <$> od_keys [("k", float_c)]).
  { intros (k & Hk & Hin)%list_elem_of_fmap. simpl in Hin.
    apply list_elem_of_singleton in Hin. subst k.
    vm_compute in Hk. discriminate Hk. }
  assert (H4' : length [float_a; int_7] <= length (func_args (pyfn fun_echo)))
    by (vm_compute; lia).
  assert (H4 : length [float_a; int_7] <= length (func_args (pyfn fun_echo)) \/
               Forall (fun k => k ∈ func_args (pyfn fun_echo))
                      (od_keys [("k", float_c)]))
    by (left; exact H4').
  assert (H5 : check_args (pyfn fun_echo) [float_a; int_7] [("k", float_c)]
                 fun_echo
               = (inr ([float_a; boxed_7], [("k", float_c)]),
                  (check_args (pyfn fun_echo) [float_a; int_7]
                     [("k", float_c)] fun_echo).2))
    by (vm_compute; reflexivity).
  assert (H6 : ctx_call (pyfn fun_echo) [float_a; boxed_7] [("k", float_c)]
                 (eng (sym_world fun_echo))
               = (inr (RTuple 999 [float_a; boxed_7],
                       shadow <$> [float_a; boxed_7; float_c]), 1000))
    by (vm_compute; reflexivity).
  assert (H7 : orderedcallargs (pyfn fun_echo) [float_a; boxed_7]
                 [("k", float_c)]
               = inr [("x", BVal float_a); ("y", BVal boxed_7);
                      ("rest", BTuple []); ("kw", BBag [("k", float_c)])])
    by (vm_compute; reflexivity).
  assert (Hbv : (bound_values (pyfn fun_echo)
                   [("x", BVal float_a); ("y", BVal boxed_7);
                    ("rest", BTuple []); ("kw", BBag [("k", float_c)])]).*2
                = [float_a; boxed_7; float_c])
    by (vm_compute; reflexivity).
  assert (H8 : NoDup (traced_node
                        (od_of_list (shadow <$> [float_a; boxed_7; float_c]))
                      <$> (bound_values (pyfn fun_echo)
                             [("x", BVal float_a); ("y", BVal boxed_7);
                              ("rest", BTuple []);
                              ("kw", BBag [("k", float_c)])]).*2))
    by (rewrite Hbv; vm_compute; solve_NoDup).
  assert (H9 : forall rho : node -> option pyval,
            Forall (fun a => exists w,
                      rho (traced_node
                             (od_of_list
                                (shadow <$> [float_a; boxed_7; float_c])) a)
                      = Some w /\ val_eq w (oval a))
                   (bound_values (pyfn fun_echo)
                      [("x", BVal float_a); ("y", BVal boxed_7);
                       ("rest", BTuple []);
                       ("kw", BBag [("k", float_c)])]).*2 ->
            Forall (fun r => exists w,
                      (fun (rho : node -> option pyval) v => rho v) rho
                        (traced_node
                           (od_of_list
                              (shadow <$> [float_a; boxed_7; float_c])) r)
                      = Some w /\ val_eq w (oval r))
                   (result_items (RTuple 999 [float_a; boxed_7]))).
  { intros rho Hall. rewrite Hbv in Hall.
    apply Forall_cons in Hall as [Ha Hall].
    apply Forall_cons in Hall as [Hb _].
    cbn [result_items]. by repeat constructor. }
  assert (H10 : exists fn s_c,
            _compile_function [float_a; int_7] [("k", float_c)] fun_echo
            = (inr fn, s_c))
    by (vm_compute; eexists _, _; reflexivity).
  destruct H10 as (fn & s_c & H10).
  split; [exact H1|]. split; [exact H2|]. split; [exact H3|].
  split; [exact H4'|]. split; [exact H5|]. split; [exact H6|].
  split; [exact H7|]. split; [by rewrite Hbv in H8|].
  exact (call_returns_results (fun rho v => rho v) (fun _ => None) id
           Hfresh Hart
           [float_a; int_7] [("k", float_c)] fun_echo s_c fn _ _ _ _ _ _ _
           H1 H2 H3 H4 H5 H6 H7 H8 H9 H10).
Defined.

Example call_returns_run :
  (call [float_a; int_7] [("k", float_c)] fun_echo).1
  = inr (FList [VFloat 3; VInt 7]) /\
  (call [float_a; int_7; float_c] [] fun_echo).1
  = inr (FList [VFloat 3; VInt 7; VFloat 5]).
Proof. split; vm_compute; reflexivity. Qed.

(** A call with a further positional argument and a keyword of the bag:
    the [Param] of the keyword stands before the variables of the variadic
    values in [inputs], so the artifact is handed the further positional
    value for it, and the keyword again. *)
Example call_extra_and_bag_run :
  (call [float_a; int_7; float_c] [("k", float_c)] fun_echo).1
  = inl (TypeError "Multiple values for input" []).
Proof. vm_compute; reflexivity. Qed.
End refinement_examples.

Section shape_examples.
#[local] Existing Instance twice_graph_engine.

(** C2, as stated, fails on [def f(x): return x, x] called on a float.  The
    function returns a tuple of two values; [s_results] has one entry, for
    the one object returned, so [_compile_function] compiles a single
    output, and in an engine that evaluates the outputs in the graph the
    compiled function returns a single value. *)
Lemma call_shape_counterexample :
  calls (sym_world (call [float_a] [] fun_twice).2)
  = [EvTrace [float_a] []; EvCompile [Param 1000 None "x"] (OSingle 101);
     EvInvoke [float_a] []] /\
  (forall inputs outputs givens e fn e',
     theano_function inputs outputs givens e = (inr fn, e') ->
     forall pos kw e1,
       (fn_call fn pos kw e1).1
       = artifact_result (fun rho v => rho v) (fun _ => None)
           inputs outputs givens pos kw) /\
  ctx_call (pyfn fun_twice) [float_a] [] (eng (sym_world fun_twice))
  = (inr (RTuple 999 [float_a; float_a], [shadow float_a]), 1000) /\
  (call [float_a] [] fun_twice).1 = inr (FSingle (VFloat 3)) /\
  ~ same_shape (RTuple 999 [float_a; float_a]) (FSingle (VFloat 3)).
Proof.
  split; [vm_compute; reflexivity|]. split.
  { intros inputs outputs givens e fn e' Hth pos kw e1. simpl in Hth.
    injection Hth as <- _. reflexivity. }
  split; [vm_compute; reflexivity|]. split; [vm_compute; reflexivity|].
  intros [].
Qed.
End shape_examples.

(** * Further properties of the code *)

(** ** [Symbolic.__init__] *)

Section init_facts.
Context `{Engine}.

Local Abbreviation is_small a := (is_Some (small_int (oval a))).
Local Abbreviation smalls l := (length (filter (fun a => is_small a) l)).

Lemma smalls_cons (d : obj) (l : list obj) :
  smalls (d :: l) = (if decide (is_small d) then 1 else 0) + smalls l.
Proof.
  case_decide.
  - by rewrite filter_cons_True.
  - by rewrite filter_cons_False.
Qed.

(** The defaults after the loop of [__init__], and the allocator. *)
Lemma box_defaults_run ds (w : world) :
  box_defaults ds w
  = (imap (fun i d => checked (next_id w) (smalls (take i ds)) d) ds,
     World (next_id w + smalls ds) (names w) (eng w) (calls w)).
Proof.
  revert w. induction ds as [|d ds IH]; intros w.
  - simpl. rewrite Nat.add_0_r. by destruct w.
  - cbn [box_defaults]. unfold box_default, checked at 1.
    rewrite smalls_cons. cbn [imap take].
    destruct (small_int (oval d)) as [z|] eqn:Hz.
    + rewrite decide_True by done. cbn [alloc_np_int].
      rewrite IH. cbn [next_id names eng calls]. f_equal.
      * rewrite filter_nil. cbn [length]. rewrite Nat.add_0_r. f_equal.
        apply imap_ext. intros i x Hx. cbn [compose take].
        rewrite smalls_cons, decide_True by (by rewrite Hz).
        unfold checked. destruct (small_int (oval x)); [|done].
        f_equal. lia.
      * f_equal. lia.
    + rewrite decide_False by (by intros [? ?]).
      rewrite IH. f_equal.
      apply (f_equal (cons d)). apply imap_ext. intros i x Hx.
      cbn [compose take].
      rewrite smalls_cons, decide_False by (rewrite Hz; by intros [? ?]).
      done.
Qed.

(** X1.  [Symbolic(f)] starts with empty dictionaries and an empty cache,
    and keeps the parameters of [f].  A default that is a plain integer
    from -5 to 256 is replaced by a boxed integer of the same value at a
    new identity; the new identities are distinct; any other default is
    kept as it is, in its place. *)
Theorem init_boxes_defaults f (w : world) :
  let s := Symbolic_init f w in
  (s_vars s = [] /\ s_args s = [] /\ s_results s = [] /\ cache s = ∅) /\
  (func_args (pyfn s) = func_args f /\
   func_varargs (pyfn s) = func_varargs f /\
   func_keywords (pyfn s) = func_keywords f /\
   length (func_defaults (pyfn s)) = length (func_defaults f)) /\
  (calls (sym_world s) = calls w /\ eng (sym_world s) = eng w /\
   next_id w <= next_id (sym_world s)) /\
  (forall i d, func_defaults f !! i = Some d ->
     small_int (oval d) = None -> func_defaults (pyfn s) !! i = Some d) /\
  (forall i d z, func_defaults f !! i = Some d ->
     small_int (oval d) = Some z ->
     exists d', func_defaults (pyfn s) !! i = Some d' /\
                oval d' = VNpInt z /\
                next_id w <= oid d' < next_id (sym_world s)) /\
  (forall i j d d' e',
     i <> j -> func_defaults f !! i = Some d -> is_small d ->
     is_small e' ->
     func_defaults f !! j = Some e' ->
     func_defaults (pyfn s) !! i = Some d' ->
     forall e'', func_defaults (pyfn s) !! j = Some e'' ->
                 oid d' <> oid e'').
Proof.
  unfold Symbolic_init. rewrite box_defaults_run. cbn zeta.
  cbn [s_vars s_args s_results cache pyfn sym_world func_args func_varargs
       func_keywords func_defaults calls eng next_id].
  split; [done|]. split; [by rewrite length_imap|].
  split; [split_and!; [done | done | lia]|].
  split; [|split].
  - intros i d Hd Hz. rewrite list_lookup_imap, Hd.
    cbn [fmap option_fmap option_map]. by rewrite checked_other.
  - intros i d z Hd Hz. eexists.
    rewrite list_lookup_imap, Hd. cbn [fmap option_fmap option_map].
    rewrite (checked_small _ _ _ _ Hz). split; [done|]. split; [done|].
    cbn [oid]. pose proof (smalls_take_S _ i d Hd) as HS.
    rewrite decide_True in HS by (by rewrite Hz).
    pose proof (smalls_take_mono (func_defaults f) (S i)
                  (length (func_defaults f))) as Hm.
    rewrite firstn_all in Hm.
    apply lookup_lt_Some in Hd. lia.
  - intros i j d d' e' Hij Hd Hsd Hse He Hd' e'' He''.
    rewrite list_lookup_imap, Hd in Hd'. injection Hd' as <-.
    rewrite list_lookup_imap, He in He''. injection He'' as <-.
    apply (checked_distinct _ _ i j); try done.
    intros Hn. destruct Hse as [? Hse]. congruence.
Qed.
End init_facts.

(** ** The defaults of the inputs *)

Section defaults_facts.

Lemma od_get_zip_None {K V} `{EqDecision K} (ks : list K) (vs : list V) k :
  k ∉ ks -> od_get k (zip ks vs) = None.
Proof.
  intros Hk. apply od_get_None_keys. intros Hin. apply Hk.
  unfold od_keys in Hin. change (map fst ?l) with (l.*1) in Hin.
  apply list_elem_of_fmap in Hin as ([k' v] & -> & Hin).
  by apply elem_of_zip_l in Hin.
Qed.

Lemma fst_zip_take {A B} (l : list A) (k : list B) :
  (zip l k).*1 = take (length k) l.
Proof.
  revert k. induction l as [|x l IH]; intros [|y k]; simpl; try done.
  by rewrite IH.
Qed.

(** The dictionary [defaults] as a list of pairs, when the parameters have
    distinct names. *)
Lemma collect_defaults_zip f :
  NoDup (func_args f) ->
  collect_defaults f
  = zip (default_slice (func_args f) (length (func_defaults f))
           (bool_decide (is_Some (func_varargs f))))
        (func_defaults f).
Proof.
  intros Hnd. unfold collect_defaults.
  destruct (func_defaults f) as [|d ds] eqn:Hds.
  - by rewrite zip_with_nil_r.
  - apply od_of_list_NoDup. rewrite fst_zip_take.
    unfold default_slice. apply (sublist_NoDup _ (func_args f)); [done|].
    etrans; [apply sublist_take|]. etrans; [apply sublist_take|].
    apply sublist_drop.
Qed.

(** X2.  The default that [_compile_function] gives to the [Param] of the
    declared parameter at position [i]: the default of that position when
    the position has one, and, for a function with a variadic parameter,
    is not the last. *)
Theorem collect_defaults_lookup f i name :
  NoDup (func_args f) ->
  length (func_defaults f) <= length (func_args f) ->
  func_args f !! i = Some name ->
  let n := length (func_args f) in
  let start := n - length (func_defaults f) in
  let stop := if bool_decide (is_Some (func_varargs f)) then n - 1 else n in
  od_get name (collect_defaults f)
  = if decide (start <= i < stop) then func_defaults f !! (i - start)
    else None.
Proof.
  intros Hnd Hlen Hi n start stop. rewrite collect_defaults_zip by done.
  unfold default_slice. fold n start stop.
  pose proof (lookup_lt_Some _ _ _ Hi) as Hin. fold n in Hin.
  case_decide as Hr.
  - destruct (func_defaults f !! (i - start)) as [d|] eqn:Hd.
    + apply (od_get_zip _ _ (i - start)); [| |done].
      * apply (sublist_NoDup _ (func_args f)); [done|].
        etrans; [apply sublist_take | apply sublist_drop].
      * rewrite lookup_take_lt by lia. rewrite lookup_drop.
        by replace (start + (i - start)) with i by lia.
    + apply lookup_ge_None in Hd. subst start. lia.
  - apply od_get_zip_None. intros Hin'.
    apply list_elem_of_lookup_1 in Hin' as [j Hj].
    pose proof (lookup_lt_Some _ _ _ Hj) as Hjl.
    rewrite length_take, length_drop in Hjl.
    rewrite lookup_take_lt in Hj by lia. rewrite lookup_drop in Hj.
    pose proof (NoDup_lookup _ _ _ _ Hnd Hi Hj). lia.
Qed.

(** X3.  For a function with a variadic parameter, the last declared
    parameter has no default among the inputs, whatever its default. *)
Theorem collect_defaults_drops_last f va name :
  NoDup (func_args f) ->
  func_varargs f = Some va ->
  last (func_args f) = Some name ->
  od_get name (collect_defaults f) = None.
Proof.
  intros Hnd Hva Hlast. rewrite collect_defaults_zip by done.
  rewrite Hva. rewrite bool_decide_eq_true_2 by done.
  apply od_get_zip_None. unfold default_slice. intros Hin.
  apply list_elem_of_lookup_1 in Hin as [j Hj].
  pose proof (lookup_lt_Some _ _ _ Hj) as Hjl.
  rewrite length_take, length_drop in Hjl.
  rewrite lookup_take_lt in Hj by lia. rewrite lookup_drop in Hj.
  rewrite last_lookup in Hlast.
  pose proof (NoDup_lookup _ _ _ _ Hnd Hlast Hj).
  destruct (func_args f); simpl in *; [done|lia].
Qed.
End defaults_facts.

(** ** The cache of [Function] *)

Section cache_facts.
Context `{Engine}.

Local Abbreviation bump n s :=
  (with_world (World (next_id (sym_world s) + n) (names (sym_world s))
                 (eng (sym_world s)) (calls (sym_world s))) s).

(** [s'] has the cache, the function and the dictionaries of [s]. *)
Local Abbreviation settled s s' :=
  (cache s' = cache s /\ pyfn s' = pyfn s /\ s_vars s' = s_vars s /\
   s_args s' = s_args s /\ s_results s' = s_results s).

Lemma trace_frame args kwargs (s : symbolic) r s' :
  trace args kwargs s = (r, s') ->
  cache s' = cache s /\ pyfn s' = pyfn s /\
  next_id (sym_world s) <= next_id (sym_world s').
Proof.
  rewrite trace_run.
  destruct (check_args (pyfn s) args kwargs s) as [[e|[a' k']] s1] eqn:Hch;
    destruct (check_args_frame _ _ _ _ _ _ Hch) as [n ->].
  { intros [= <- <-]. simpl. split_and!; [done | done | lia]. }
  cbn zeta.
  destruct (ctx_call _ _ _ _) as [[e|[res svars]] e'].
  { intros [= <- <-]. simpl. split_and!; [done | done | lia]. }
  destruct (orderedcallargs _ _ _) as [e|ca].
  { intros [= <- <-]. simpl. split_and!; [done | done | lia]. }
  destruct (forM_ (collect_arg _) _ _) as [[e|[]] s3] eqn:Ha;
    apply (forM_keeps _ (collect_arg_keeps _)) in Ha
      as (_ & Hc & Hp & _ & _ & Hn); simpl in Hc, Hp, Hn.
  { intros [= <- <-]. split_and!; [done | done | lia]. }
  intros Hr. apply collect_results_keeps in Hr
    as ((_ & Hc' & Hp' & _ & _ & Hn') & _).
  split_and!; [congruence | congruence | lia].
Qed.

Lemma fresh_input_settled v n (s : symbolic) :
  settled s (fresh_input v n s).2.
Proof.
  unfold fresh_input, bind, call_eng, setattr_name, liftW, ret.
  cbn [world_of symbolic_store]. by destruct (new_input v n _).
Qed.

Lemma foldM_settled {A B} (f : B -> A -> M symbolic B) :
  (forall b x s, settled s (f b x s).2) ->
  forall l b s, settled s (foldM f b l s).2.
Proof.
  intros Hf l. induction l as [|x l IH]; intros b s; [done|].
  cbn [foldM]. unfold bind. specialize (Hf b x s).
  destruct (f b x s) as [[e|b'] s1]; [done|].
  cbn [snd] in Hf.
  destruct Hf as (?&?&?&?&?), (IH b' s1) as (?&?&?&?&?).
  split; [|split; [|split; [|split]]]; congruence.
Qed.

Lemma collect_given_settled f givens na (s : symbolic) :
  settled s (collect_given f givens na s).2.
Proof.
  destruct na as [name arg]. unfold collect_given.
  case_decide.
  - destruct arg as [v|vs]; [|done].
    unfold getattr_name, bind, get, ret.
    pose proof (fresh_input_settled v
      (default "None" (names (sym_world s) !! v)) s) as Hc.
    by destruct (fresh_input _ _ s) as [[e|v'] s1].
  - destruct arg as [v|vs]; [done|].
    apply foldM_settled. intros g [i v] s0. unfold bind, ret.
    pose proof (fresh_input_settled v (item_name name i) s0) as Hc.
    by destruct (fresh_input _ _ s0) as [[e|v'] s1].
Qed.

(** What [_compile_function] does to the cache, whatever its outcome. *)
Lemma compile_function_cache args kwargs (s : symbolic) r s' :
  _compile_function args kwargs s = (r, s') ->
  pyfn s' = pyfn s /\
  match r with
  | inl _ => cache s' = cache s
  | inr fn =>
      exists ca key,
        orderedcallargs (pyfn s) args kwargs = inr ca /\
        (varargs_count (pyfn s) ca s).1 = inr key /\
        cache s' = <[key := fn]> (cache s)
  end.
Proof.
  unfold _compile_function.
  unfold bind at 1, gets at 1. unfold bind at 1, liftE at 1.
  destruct (orderedcallargs (pyfn s) args kwargs) as [e|ca] eqn:Hca.
  { by intros [= <- <-]. }
  unfold bind at 1.
  destruct (trace args kwargs s) as [[e|[]] s1] eqn:Htr;
    apply trace_frame in Htr as (Hc1 & Hp1 & _).
  { by intros [= <- <-]. }
  unfold bind at 1, gets at 1. unfold bind at 1.
  pose proof (foldM_settled _ (collect_given_settled (pyfn s))
                (s_args s1) [] s1) as Hg.
  destruct (foldM _ _ _ s1) as [[e|givens] s2]; cbn [snd] in Hg;
    destruct Hg as (Hc2 & Hp2 & _).
  { intros [= <- <-]. split; congruence. }
  unfold bind at 1, gets at 1. unfold bind at 1.
  pose proof (collect_inputs_pure (pyfn s) givens
                (collect_defaults (pyfn s)) (s_args s2) s2) as Hi.
  destruct (collect_inputs _ _ _ _ s2) as [[e|inputs] s3]; cbn [snd] in Hi;
    subst s3.
  { intros [= <- <-]. split; congruence. }
  unfold bind at 1, gets at 1. unfold bind at 1, call_ext at 1.
  cbn [world_of symbolic_store].
  destruct (theano_function _ _ _ _) as [[e|fn] e'].
  { intros [= <- <-]. simpl. split; congruence. }
  unfold bind at 1.
  match goal with
  | |- context [varargs_count _ _ ?st] =>
      destruct (varargs_count_pure (pyfn s) ca st s) as [Hs5 Hk5];
      destruct (varargs_count (pyfn s) ca st) as [[e|key] s5];
      cbn [fst snd] in Hs5, Hk5; subst s5
  end.
  { intros [= <- <-]. simpl. split; congruence. }
  unfold bind, modify, ret. intros [= <- <-]. simpl.
  split; [congruence|]. exists ca, key. rewrite Hc2, Hc1. done.
Qed.

Local Abbreviation vpart f X :=
  (match func_varargs f with
   | Some va => [(va, BTuple X)]
   | None => []
   end).
Local Abbreviation kpart f B :=
  (match func_keywords f with
   | Some kw => [(kw, BBag B)]
   | None => []
   end).

(** The key of the cache: the number of further positional arguments. *)
Lemma varargs_count_extra f args kwargs ca (s : symbolic) :
  wf_signature f ->
  orderedcallargs f args kwargs = inr ca ->
  varargs_count f ca s = (inr (length (drop (length (func_args f)) args)), s).
Proof.
  intros Hwf Hca.
  destruct (orderedcallargs_groups _ _ _ _ Hwf Hca)
    as (ds & Hl & _ & -> & HX & _).
  unfold varargs_count.
  destruct (func_varargs f) as [va|] eqn:Hva; [|by rewrite HX].
  unfold wf_signature, declared_parameters in Hwf.
  apply NoDup_app in Hwf as (_ & Hdis & _).
  rewrite od_get_app_r; first last.
  { unfold od_keys. change (map fst ?l) with (l.*1).
    rewrite fst_zip by (rewrite length_fmap; lia).
    intros Hin. apply (Hdis va Hin). rewrite Hva.
    apply elem_of_app. left. apply list_elem_of_here. }
  cbn [app od_get]. by rewrite decide_True.
Qed.

(** X4.  A successful [_compile_function] stores the artifact in the cache
    under the number of further positional arguments of the call, and
    leaves the other entries of the cache as they were. *)
Theorem compile_stores_artifact args kwargs (s s' : symbolic) fn :
  wf_signature (pyfn s) ->
  _compile_function args kwargs s = (inr fn, s') ->
  cache s'
  = <[length (drop (length (func_args (pyfn s))) args) := fn]> (cache s).
Proof.
  intros Hwf Hcomp.
  destruct (compile_function_cache _ _ _ _ _ Hcomp)
    as (_ & ca & key & Hca & Hkey & ->).
  rewrite (varargs_count_extra _ _ _ _ s Hwf Hca) in Hkey.
  by injection Hkey as <-.
Qed.

(** X5.  When [_compile_function] raises, in the trace or in the
    compilation, the cache is as it was. *)
Theorem compile_error_keeps_cache args kwargs (s s' : symbolic) e :
  _compile_function args kwargs s = (inl e, s') ->
  cache s' = cache s /\ pyfn s' = pyfn s.
Proof.
  intros Hcomp.
  by destruct (compile_function_cache _ _ _ _ _ Hcomp) as (? & ?).
Qed.

(** X6.  Whatever its outcome, [trace] leaves the cache and the function
    as they are, and records at most the one run of the function: none when
    the argument check raises, and [trace] then raises the error of the
    check; exactly one, on the checked arguments, when the check passes. *)
Theorem trace_keeps_cache args kwargs (s : symbolic) :
  let s' := (trace args kwargs s).2 in
  cache s' = cache s /\ pyfn s' = pyfn s /\
  match check_args (pyfn s) args kwargs s with
  | (inl e, _) =>
      (trace args kwargs s).1 = inl e /\
      calls (sym_world s') = calls (sym_world s)
  | (inr (a', k'), _) =>
      calls (sym_world s') = calls (sym_world s) ++ [EvTrace a' k']
  end.
Proof.
  cbn zeta.
  destruct (trace args kwargs s) as [r s'] eqn:Htr. cbn [fst snd].
  destruct (trace_frame _ _ _ _ _ Htr) as (Hc & Hp & _).
  split; [done|]. split; [done|].
  destruct (check_args (pyfn s) args kwargs s) as [[e|[a' k']] s1] eqn:Hch.
  - rewrite trace_run, Hch in Htr. injection Htr as <- <-.
    by destruct (check_args_frame _ _ _ _ _ _ Hch) as [n ->].
  - pose proof (trace_calls _ _ _ _ _ _ Hch) as Hcalls.
    by rewrite Htr in Hcalls.
Qed.

(** X7.  A call of [Function(f)] on a container raises the [TypeError] of
    the check of [trace] for the first container in checking order, the
    arguments before it being none: the function is not run, nothing is
    compiled or invoked, and the cache and the three dictionaries are as
    they were. *)
Theorem call_rejects_containers args kwargs (s : symbolic) ca a :
  wf_signature (pyfn s) ->
  orderedcallargs (pyfn s) args kwargs = inr ca ->
  a ∈ args ++ od_values kwargs -> is_container (oval a) = true ->
  exists pre name b post s',
    named_args (pyfn s) args kwargs = pre ++ (name, b) :: post /\
    Forall (fun x => is_container (oval x.2) = false) pre /\
    is_container (oval b) = true /\
    call args kwargs s
    = (inl (TypeError container_msg [FObj b; fname name]), s') /\
    calls (sym_world s') = calls (sym_world s) /\
    cache s' = cache s /\ s_vars s' = s_vars s /\ s_args s' = s_args s /\
    s_results s' = s_results s.
Proof.
  intros Hwf Hca Hin Hc.
  destruct (check_args_container (pyfn s) args kwargs s a Hin Hc)
    as (e & s1 & Hch).
  destruct (check_args_fail _ _ _ _ _ _ Hch)
    as (pre & name & b & post & Hna & Hpre & Hb & -> & Hs1).
  exists pre, name, b, post, s1.
  split; [exact Hna|]. split; [exact Hpre|]. split; [exact Hb|]. split.
  - unfold call. unfold bind at 1, gets at 1. unfold bind at 1, liftE at 1.
    rewrite Hca. unfold bind at 1.
    rewrite (varargs_count_extra _ _ _ _ s Hwf Hca).
    unfold bind at 1. unfold _compile_function.
    unfold bind at 1, gets at 1. unfold bind at 1, liftE at 1.
    rewrite Hca. unfold bind at 1. by rewrite trace_run, Hch.
  - split_and!; by rewrite Hs1.
Qed.

(** X8.  [call] invokes the artifact that was just compiled on the
    caller's own objects: the values bound to the declared parameters, then
    the further positional arguments, and the further keywords as keyword
    arguments.  What the artifact returns or raises is the outcome of the
    call, and in both cases the artifact stays in the cache. *)
Theorem call_invokes_compiled args kwargs (s s_c : symbolic) fn :
  wf_signature (pyfn s) ->
  _compile_function args kwargs s = (inr fn, s_c) ->
  let n := length (func_args (pyfn s)) in
  let bag := filter (fun kv : string * obj => kv.1 ∉ func_args (pyfn s))
                    kwargs in
  exists ds rest,
    orderedcallargs (pyfn s) args kwargs
    = inr (zip (func_args (pyfn s)) (BVal <$> ds) ++ rest) /\
    length ds = n /\
    forall r e',
      fn_call fn (ds ++ drop n args) bag (eng (sym_world s_c)) = (r, e') ->
      exists s',
        call args kwargs s = (r, s') /\
        calls (sym_world s')
        = calls (sym_world s_c) ++ [EvInvoke (ds ++ drop n args) bag] /\
        cache s' = cache s_c /\
        cache s' !! length (drop n args) = Some fn.
Proof.
  intros Hwf Hcomp n bag.
  destruct (compile_function_inr _ _ _ _ _ Hcomp)
    as (_ & _ & _ & _ & ca & key & _ & Hca & _).
  destruct (orderedcallargs_groups _ _ _ _ Hwf Hca)
    as (ds & Hl & _ & -> & HX & HB).
  exists ds. eexists. split; [exact Hca|]. split; [done|].
  intros r e' Hfn.
  rewrite (call_exact _ _ _ _ _ ds _ _ Hwf Hl HX HB Hca Hcomp).
  unfold call_ext. cbn [world_of symbolic_store].
  change (eng (log _ ?w)) with (eng w). fold n bag. rewrite Hfn.
  eexists. split; [reflexivity|]. simpl. split; [done|]. split; [done|].
  destruct (compile_function_cache _ _ _ _ _ Hcomp)
    as (_ & ca' & key' & Hca' & Hkey' & ->).
  rewrite (varargs_count_extra _ _ _ _ s Hwf Hca') in Hkey'.
  injection Hkey' as <-. apply lookup_insert_eq.
Qed.

(** X14.  When [_compile_function] raises, [call] raises the same error
    and invokes nothing: the two end in the same state. *)
Theorem call_propagates_compile_error args kwargs (s s1 : symbolic) e :
  wf_signature (pyfn s) ->
  _compile_function args kwargs s = (inl e, s1) ->
  call args kwargs s = (inl e, s1).
Proof.
  intros Hwf Hcomp. unfold call.
  unfold bind at 1, gets at 1. unfold bind at 1, liftE at 1.
  destruct (orderedcallargs (pyfn s) args kwargs) as [e0|ca] eqn:Hca.
  - revert Hcomp. unfold _compile_function.
    unfold bind at 1, gets at 1. unfold bind at 1, liftE at 1.
    rewrite Hca. by intros [= <- <-].
  - unfold bind at 1. rewrite (varargs_count_extra _ _ _ _ s Hwf Hca).
    unfold bind at 1. by rewrite Hcomp.
Qed.
End cache_facts.

(** ** Errors of [Gradient] *)

Section gradient_errors.
Context `{Engine}.

Local Abbreviation node_of svars :=
  (fun a : obj =>
     match od_get (oid a) (od_of_list svars) with
     | Some v => inr v
     | None => inl (KeyError "{0}" [FNat (oid a)])
     end).
Local Abbreviation trace_msg :=
  "ERROR: PyAD was unable to trace the requested variable.".

Lemma mapE_fail_first {A B} (p : A -> exn + B) pre x post e :
  Forall (fun y => exists v, p y = inr v) pre -> p x = inl e ->
  mapE p (pre ++ x :: post) = inl e.
Proof.
  intros Hpre Hx. induction Hpre as [|y pre [v Hy] _ IH]; simpl.
  - by rewrite Hx.
  - by rewrite Hy, IH.
Qed.

Lemma mapE_all {A B} (p : A -> exn + B) l :
  Forall (fun y => exists v, p y = inr v) l -> exists vs, mapE p l = inr vs.
Proof.
  induction 1 as [|y l [v Hy] _ [vs IH]]; simpl; [by eexists|].
  rewrite Hy, IH. by eexists.
Qed.

Lemma mapE_app_inv_l {A B} (p : A -> exn + B) l e :
  mapE p l = inl e -> forall l', mapE p (l ++ l') = inl e.
Proof.
  revert e. induction l as [|x l IH]; intros e; [done|]. simpl.
  destruct (p x) as [e0|y]; [done|].
  destruct (mapE p l) as [e0|ys] eqn:Hl; [|done].
  intros [= <-] l'. by rewrite (IH _ eq_refl).
Qed.

Lemma mapE_app_inr_l {A B} (p : A -> exn + B) l l' ys e :
  mapE p l = inr ys -> mapE p l' = inl e -> mapE p (l ++ l') = inl e.
Proof.
  revert ys. induction l as [|x l IH]; intros ys; simpl.
  - by intros _ ->.
  - destruct (p x) as [e0|y]; [done|].
    destruct (mapE p l) as [e0|ys'] eqn:Hl; [done|].
    intros _ Hl'. by rewrite (IH _ eq_refl Hl').
Qed.

(** A builder that raises leaves [_grad_fn] and [_sym_grad] as they
    were. *)
Lemma build_grad_fn_inl args kwargs (g g1 : gradient) e :
  build_grad_fn args kwargs g = (inl e, g1) ->
  _grad_fn g1 = _grad_fn g /\ _sym_grad g1 = _sym_grad g.
Proof.
  unfold build_grad_fn, bind, gets, on_KeyError, call_ext, modify, ret.
  cbn [world_of gradient_store eng log].
  destruct (ctx_call _ _ _ _) as [[e0|[res svars]] e1];
    [by intros [= <- <-]|].
  rewrite (mapM_pure _ (node_of svars))
    by (intros; apply svars_lookup_pure).
  destruct (mapE (node_of svars) args) as [[c t fa]|sa] eqn:Hsa.
  { case_decide; [unfold print, liftW; simpl|]; by intros [= <- <-]. }
  rewrite (mapM_pure _ (node_of svars))
    by (intros; apply svars_lookup_pure).
  destruct (mapE (node_of svars) (od_values kwargs)) as [[c t fa]|sk] eqn:Hsk.
  { case_decide; [unfold print, liftW; simpl|]; by intros [= <- <-]. }
  rewrite svars_lookup_pure.
  destruct (od_get (result_id res) (od_of_list svars)) as [cost|] eqn:Hcost.
  2:{ unfold KeyError, print, liftW. cbn.
      repeat case_decide; by intros [= <- <-]. }
  cbn [world_of gradient_store with_world eng log set_eng grad_world].
  destruct (tt_grad _ _ _) as [[e0|grad] e2] eqn:Hgrad;
    [by intros [= <- <-]|].
  cbn [world_of gradient_store with_world eng log set_eng grad_world].
  destruct (theano_function _ _ _ _) as [[e0|gfn] e3] eqn:Hfn;
    [by intros [= <- <-] | done].
Qed.

(** X9.  A call of [Gradient(f)] that raises, at whatever stage, leaves no
    compiled gradient behind; a call that returns leaves one. *)
Theorem gradient_error_clears args kwargs (g g' : gradient) r :
  Gradient_call args kwargs g = (r, g') ->
  match r with
  | inl _ => _grad_fn g' = None
  | inr _ => is_Some (_grad_fn g')
  end.
Proof.
  rewrite Gradient_call_run, ensure_grad_fn_run.
  destruct (_grad_fn g) as [gfn|] eqn:Hg.
  - rewrite Hg. cbn zeta.
    destruct (fn_call _ _ _ _) as [[e|v] e']; intros [= <- <-]; [done|].
    simpl. by rewrite Hg.
  - destruct (build_grad_fn args kwargs g) as [[e|[]] g1] eqn:Hb.
    + intros [= <- <-]. apply build_grad_fn_inl in Hb as [-> _]. done.
    + destruct (build_grad_fn_inr _ _ _ _ Hb)
        as (?&?&?&?&?&?&?&gfn&?&_&_&_&_&_&->).
      cbn [_grad_fn]. cbn zeta.
      destruct (fn_call _ _ _ _) as [[e|v] e']; intros [= <- <-]; [done|].
      simpl. by eexists.
Qed.

(** X10.  When the first of the positional arguments, the keyword values
    and the result that has no node is [i], the first call of
    [Gradient(f)] prints the error line and raises the [KeyError] of [i]:
    nothing is differentiated or compiled, and no gradient function is
    stored. *)
Theorem gradient_untraceable args kwargs (g : gradient) res svars e1
    pre i post :
  _grad_fn g = None ->
  ctx_call (_fn g) args kwargs (eng (grad_world g)) = (inr (res, svars), e1) ->
  (oid <$> args ++ od_values kwargs) ++ [result_id res] = pre ++ i :: post ->
  Forall (fun j => is_Some (od_get j (od_of_list svars))) pre ->
  od_get i (od_of_list svars) = None ->
  exists g',
    Gradient_call args kwargs g = (inl (KeyError "{0}" [FNat i]), g') /\
    _grad_fn g' = None /\
    calls (grad_world g')
    = calls (grad_world g) ++ [EvTrace args kwargs; EvPrint trace_msg].
Proof.
  intros Hg Hctx Hids Hpre Hi.
  set (q := fun j : nat =>
              match od_get j (od_of_list svars) with
              | Some v => inr v
              | None => inl (KeyError "{0}" [FNat j])
              end).
  assert (Hq : mapE q ((oid <$> args ++ od_values kwargs) ++ [result_id res])
               = inl (KeyError "{0}" [FNat i])).
  { rewrite Hids. apply mapE_fail_first.
    - eapply Forall_impl; [exact Hpre|]. intros j [v Hv]. exists v.
      unfold q. by rewrite Hv.
    - unfold q. by rewrite Hi. }
  assert (Hfmap : forall l, mapE (node_of svars) l = mapE q (oid <$> l)).
  { induction l as [|a l IH]; [done|]. simpl. unfold q at 1.
    destruct (od_get (oid a) (od_of_list svars)); [|done]. by rewrite IH. }
  rewrite fmap_app in Hq.
  rewrite Gradient_call_run, ensure_grad_fn_run, Hg.
  unfold build_grad_fn, bind, gets, on_KeyError, call_ext, modify, ret.
  cbn [world_of gradient_store eng log]. rewrite Hctx.
  rewrite (mapM_pure _ (node_of svars))
    by (intros; apply svars_lookup_pure).
  rewrite (Hfmap args).
  destruct (mapE q (oid <$> args)) as [e|sa] eqn:Hsa.
  { rewrite <- !app_assoc in Hq.
    rewrite (mapE_app_inv_l q _ _ Hsa
               ((oid <$> od_values kwargs) ++ [result_id res])) in Hq.
    injection Hq as ->. cbn. unfold print, liftW. cbn.
    eexists. split; [reflexivity|]. cbn. split; [done|].
    by rewrite <- app_assoc. }
  rewrite (mapM_pure _ (node_of svars))
    by (intros; apply svars_lookup_pure).
  rewrite (Hfmap (od_values kwargs)).
  destruct (mapE q (oid <$> od_values kwargs)) as [e|sk] eqn:Hsk.
  { pose proof (mapE_app_inr_l q _ _ _ _ Hsa Hsk) as Happ.
    rewrite (mapE_app_inv_l q _ _ Happ [result_id res]) in Hq.
    injection Hq as ->. cbn. unfold print, liftW. cbn.
    eexists. split; [reflexivity|]. cbn. split; [done|].
    by rewrite <- app_assoc. }
  rewrite svars_lookup_pure.
  pose proof (mapE_app_inr q _ _ _ _ Hsa Hsk) as Happ.
  destruct (od_get (result_id res) (od_of_list svars)) as [cost|] eqn:Hcost.
  { exfalso.
    assert (Hr : mapE q [result_id res] = inr [cost]).
    { simpl. unfold q. by rewrite Hcost. }
    pose proof (mapE_app_inr q _ _ _ _ Happ Hr) as Hall. congruence. }
  assert (Hr : mapE q [result_id res]
               = inl (KeyError "{0}" [FNat (result_id res)])).
  { simpl. unfold q. by rewrite Hcost. }
  pose proof (mapE_app_inr_l q _ _ _ _ Happ Hr) as Hall.
  rewrite Hq in Hall. injection Hall as ->.
  cbn. unfold print, liftW. cbn.
  eexists. split; [reflexivity|]. cbn. split; [done|].
  by rewrite <- app_assoc.
Qed.
End gradient_errors.

(** ** The names of the argument nodes *)

Section names_facts.
Context `{Engine}.

Lemma collect_named_names n a (s : symbolic) s' :
  collect_named n a s = (inr tt, s') ->
  s_vars s' = s_vars s /\
  names (sym_world s')
  = <[traced_node (s_vars s) a := n]> (names (sym_world s)).
Proof.
  unfold collect_named, bind, get, modify, setattr_name, liftW, raise,
    traced_node.
  destruct (od_get (oid a) (s_vars s)); intros [= <-]; done.
Qed.

Lemma collect_bag_names (items : list (string * obj)) (s : symbolic) s' :
  forM_ (fun na => collect_named na.1 na.2) items s = (inr tt, s') ->
  s_vars s' = s_vars s /\
  names (sym_world s')
  = named_nodes (s_vars s) (names (sym_world s))
      ((fun na : string * obj => (Named na.1, na.2)) <$> items).
Proof.
  revert s. induction items as [|[n a] items IH]; intros s.
  - by intros [= <-].
  - cbn [forM_]. unfold bind at 1. cbn [fst snd].
    destruct (collect_named n a s) as [[e|[]] s1] eqn:H1; [done|].
    apply collect_named_names in H1 as [Hv1 Hn1].
    intros [Hv2 Hn2]%IH. split; [congruence|].
    rewrite Hn2, Hn1, Hv1. done.
Qed.

Lemma collect_vararg_names name i a (s : symbolic) s' :
  collect_vararg name (i, a) s = (inr tt, s') ->
  s_vars s' = s_vars s /\
  names (sym_world s')
  = <[traced_node (s_vars s) a := item_name name i]> (names (sym_world s)).
Proof.
  unfold collect_vararg, bind, get, modify, setattr_name, liftW, raise,
    traced_node.
  destruct (od_get name (s_args s)) as [[?|?]|],
    (od_get (oid a) (s_vars s)); intros [= <-]; done.
Qed.

Lemma collect_varargs_names name items i (s : symbolic) s' :
  forM_ (collect_vararg name) (enumerate_from i items) s = (inr tt, s') ->
  s_vars s' = s_vars s /\
  names (sym_world s')
  = named_nodes (s_vars s) (names (sym_world s))
      (imap (fun j a => (Item name (i + j), a)) items).
Proof.
  revert s i. induction items as [|a items IH]; intros s i.
  - by intros [= <-].
  - cbn [enumerate_from forM_]. unfold bind at 1.
    destruct (collect_vararg name (i, a) s) as [[e|[]] s1] eqn:H1; [done|].
    apply collect_vararg_names in H1 as [Hv1 Hn1].
    intros [Hv2 Hn2]%IH. split; [congruence|].
    rewrite Hn2, Hn1, Hv1. cbn [imap named_nodes foldl fst snd slot_name].
    rewrite Nat.add_0_r. unfold named_nodes. f_equal.
    apply imap_ext. intros j x _. cbn [compose]. do 2 f_equal. lia.
Qed.

Lemma collect_arg_names f na (s : symbolic) s' :
  collect_arg f na s = (inr tt, s') ->
  s_vars s' = s_vars s /\
  names (sym_world s')
  = named_nodes (s_vars s) (names (sym_world s)) (entry_values f na).
Proof.
  destruct na as [name arg]. unfold collect_arg, entry_values.
  case_decide; [|case_decide].
  - unfold bind at 1, modify at 1.
    destruct arg as [a|items|bag]; try done.
    intros [Hv Hn]%collect_varargs_names. split; [done|].
    rewrite Hn. cbn [s_vars sym_world set_s_args names]. done.
  - destruct arg as [a|items|bag]; try done. apply collect_bag_names.
  - destruct arg as [a|items|bag]; try done. apply collect_named_names.
Qed.

Lemma named_nodes_app vars nm l1 l2 :
  named_nodes vars nm (l1 ++ l2)
  = named_nodes vars (named_nodes vars nm l1) l2.
Proof. unfold named_nodes. by rewrite foldl_app. Qed.

Lemma collect_args_names f ca (s : symbolic) s' :
  forM_ (collect_arg f) ca s = (inr tt, s') ->
  s_vars s' = s_vars s /\
  names (sym_world s')
  = named_nodes (s_vars s) (names (sym_world s)) (bound_values f ca).
Proof.
  revert s. induction ca as [|na ca IH]; intros s.
  - by intros [= <-].
  - cbn [forM_]. unfold bind at 1.
    destruct (collect_arg f na s) as [[e|[]] s1] eqn:H1; [done|].
    apply collect_arg_names in H1 as [Hv1 Hn1].
    intros [Hv2 Hn2]%IH. split; [congruence|].
    rewrite bound_values_cons, named_nodes_app, Hn2, Hn1, Hv1. done.
Qed.

Lemma collect_results_names l (s : symbolic) r s' :
  forM_ collect_result l s = (r, s') ->
  names (sym_world s') = names (sym_world s).
Proof.
  revert s. induction l as [|[i x] l IH]; intros s.
  - by intros [= <- <-].
  - cbn [forM_]. unfold bind at 1.
    unfold collect_result at 1, bind, get, modify, raise.
    destruct (od_get (oid x) (s_vars s)); [|by intros [= <- <-]].
    intros Hl%IH. by rewrite Hl.
Qed.

Lemma named_nodes_cons vars nm sa slots :
  named_nodes vars nm (sa :: slots)
  = named_nodes vars (<[traced_node vars sa.2 := slot_name sa.1]> nm) slots.
Proof. done. Qed.

Lemma named_nodes_notin vars nm slots v :
  v ∉ traced_node vars <$> slots.*2 ->
  named_nodes vars nm slots !! v = nm !! v.
Proof.
  revert nm. induction slots as [|[sl a] slots IH]; intros nm Hv; [done|].
  rewrite !fmap_cons, not_elem_of_cons in Hv. destruct Hv as [Hne Hv].
  rewrite named_nodes_cons, IH by done. by rewrite lookup_insert_ne.
Qed.

Lemma named_nodes_lookup vars nm slots sl a :
  NoDup (traced_node vars <$> slots.*2) ->
  (sl, a) ∈ slots ->
  named_nodes vars nm slots !! traced_node vars a = Some (slot_name sl).
Proof.
  revert nm. induction slots as [|[sl0 a0] slots IH]; intros nm Hnd Hin.
  - by apply elem_of_nil in Hin.
  - rewrite !fmap_cons in Hnd. apply NoDup_cons in Hnd as [Hnin Hnd].
    rewrite named_nodes_cons.
    apply elem_of_cons in Hin as [[= -> ->]|Hin].
    + rewrite named_nodes_notin by done. apply lookup_insert_eq.
    + by apply IH.
Qed.

(** X11.  After a successful trace the node of each bound value carries a
    name: the name of its parameter or keyword, and [name_i] for the [i]-th
    value of the variadic parameter [name].  The names are given in the
    order of the binder's mapping, so a node that shadows two values keeps
    the last name; nodes that shadow one value each have each their own. *)
Theorem trace_names_arguments args kwargs (s s' : symbolic) a' k' s1
    res svars e' ca :
  trace args kwargs s = (inr tt, s') ->
  check_args (pyfn s) args kwargs s = (inr (a', k'), s1) ->
  ctx_call (pyfn s) a' k' (eng (sym_world s)) = (inr (res, svars), e') ->
  orderedcallargs (pyfn s) a' k' = inr ca ->
  names (sym_world s')
  = named_nodes (od_of_list svars) (names (sym_world s))
      (bound_values (pyfn s) ca) /\
  (NoDup (traced_node (od_of_list svars) <$> (bound_values (pyfn s) ca).*2) ->
   forall sl a, (sl, a) ∈ bound_values (pyfn s) ca ->
     names (sym_world s') !! traced_node (od_of_list svars) a
     = Some (slot_name sl)).
Proof.
  intros Htr Hch Hctx Hca.
  assert (Hn : names (sym_world s')
               = named_nodes (od_of_list svars) (names (sym_world s))
                   (bound_values (pyfn s) ca)).
  { rewrite trace_run, Hch in Htr. cbn zeta in Htr.
    destruct (check_args_frame _ _ _ _ _ _ Hch) as [n Hs1].
    rewrite Hs1 in Htr.
    change (eng (log _ _)) with (eng (sym_world s)) in Htr.
    rewrite Hctx, Hca in Htr.
    destruct (forM_ (collect_arg _) _ _) as [[e|[]] s3] eqn:Ha; [done|].
    apply collect_args_names in Ha as [_ Ha].
    apply collect_results_names in Htr. rewrite Htr, Ha. done. }
  split; [done|]. intros Hnd sl a Hin. rewrite Hn.
  by apply named_nodes_lookup.
Qed.
End names_facts.

(** ** The dictionaries of a trace and the wiring of the artifact *)

Section wiring_facts.
Context `{Engine}.
Variable gen : estate -> nat.
Hypothesis new_input_fresh : forall v n e,
  gen e <= (new_input v n e).1 < gen (new_input v n e).2.

Local Abbreviation traced vars a := (is_Some (od_get (oid a) vars)).
Local Abbreviation mk_param defaults :=
  (fun nx : string * node => Param nx.2 (od_get nx.1 defaults) nx.1).
Local Abbreviation vpart f X :=
  (match func_varargs f with
   | Some va => [(va, BTuple X)]
   | None => []
   end).
Local Abbreviation kpart f B :=
  (match func_keywords f with
   | Some kw => [(kw, BBag B)]
   | None => []
   end).

(** X12.  After a successful trace every bound value and every result has
    a node in the identity map, [s_vars] is the identity map of the run,
    [s_args] holds in the order of the binder's mapping the node of each
    declared parameter, the tuple of the nodes of the variadic values and
    the node of each keyword of the bag, and [s_results] the node of each
    result under its identity. *)
Theorem trace_dictionaries args kwargs (s s' : symbolic) a' k' s1
    res svars e' ca :
  wf_signature (pyfn s) ->
  trace args kwargs s = (inr tt, s') ->
  check_args (pyfn s) args kwargs s = (inr (a', k'), s1) ->
  ctx_call (pyfn s) a' k' (eng (sym_world s)) = (inr (res, svars), e') ->
  orderedcallargs (pyfn s) a' k' = inr ca ->
  Forall (fun a => traced (od_of_list svars) a)
         (bound_values (pyfn s) ca).*2 /\
  Forall (fun r => traced (od_of_list svars) r) (result_items res) /\
  s_vars s' = od_of_list svars /\
  s_args s' = od_of_list (concat (entry_sargs (od_of_list svars) <$> ca)) /\
  s_results s'
  = od_of_list ((fun r => (oid r, traced_node (od_of_list svars) r))
                  <$> result_items res).
Proof.
  intros Hwf Htr Hch Hctx Hca.
  destruct (trace_exact _ _ _ _ _ _ _ _ _ _ _ Hwf Htr Hch Hctx Hca)
    as (Hall & Hres & Hv & Ha & Hr & _).
  split_and!; try done. by rewrite Hr, bindings_fmap.
Qed.

(** X13.  What a successful [_compile_function] compiles.  Each bound
    value gets a new input variable; [givens] maps the node of the value to
    it, in the order declared parameters, variadic values, keywords of the
    bag; [inputs] lists a [Param] for each declared parameter, then a
    [Param] for each keyword of the bag, then the variables of the variadic
    values; [outputs] are the nodes of [s_results]. *)
Theorem compile_wiring args kwargs (s s_c : symbolic) fn a' k' s1
    res svars e1 ca' :
  wf_signature (pyfn s) ->
  NoDup (od_keys kwargs) ->
  func_varargs (pyfn s) ∉ Some <$> od_keys kwargs ->
  check_args (pyfn s) args kwargs s = (inr (a', k'), s1) ->
  ctx_call (pyfn s) a' k' (eng (sym_world s)) = (inr (res, svars), e1) ->
  orderedcallargs (pyfn s) a' k' = inr ca' ->
  NoDup (traced_node (od_of_list svars) <$> (bound_values (pyfn s) ca').*2) ->
  _compile_function args kwargs s = (inr fn, s_c) ->
  let X := drop (length (func_args (pyfn s))) a' in
  let B := filter (fun kv : string * obj => kv.1 ∉ func_args (pyfn s)) k' in
  exists ds xD xX xB e e',
    ca' = zip (func_args (pyfn s)) (BVal <$> ds)
          ++ vpart (pyfn s) X ++ kpart (pyfn s) B /\
    (bound_values (pyfn s) ca').*2 = ds ++ X ++ B.*2 /\
    length xD = length ds /\ length xX = length X /\ length xB = length B /\
    NoDup (xD ++ xX ++ xB) /\
    theano_function
      ((mk_param (collect_defaults (pyfn s))
          <$> zip (func_args (pyfn s) ++ B.*1) (xD ++ xB))
       ++ (In_ <$> xX))
      (collect_outputs (s_results s_c))
      (zip (traced_node (od_of_list svars) <$> (ds ++ X ++ B.*2))
           (xD ++ xX ++ xB))
      e
    = (inr fn, e').
Proof using new_input_fresh.
  intros Hwf Hndk Hva Hch Hctx Hca' Hnodes Hcomp X B.
  destruct (orderedcallargs_groups _ _ _ _ Hwf Hca')
    as (ds & Hl & _ & Heq & HX & HB).
  fold X B in Heq, HX, HB.
  destruct (check_args_alike _ _ _ _ _ _ _ Hndk Hch) as [_ Hkk].
  pose proof (kvalike_keys _ _ Hkk) as Hkeys'.
  assert (Hkeys : NoDup (func_args (pyfn s)
                         ++ option_list (func_varargs (pyfn s)) ++ B.*1)).
  { apply bag_keys_NoDup; [done | by rewrite Hkeys' | by rewrite Hkeys']. }
  assert (Hbv : (bound_values (pyfn s) ca').*2 = ds ++ X ++ B.*2).
  { rewrite Heq. by apply bound_values_groups. }
  rewrite Hbv in Hnodes. rewrite Heq in Hca'.
  assert (Hres : s_results s_c
                 = od_of_list
                     (omap (fun r : obj =>
                              pair (oid r)
                                <$> od_get (oid r) (od_of_list svars))
                           (result_items res))).
  { revert Hcomp. unfold _compile_function.
    intros (f0 & s0 & [= <- <-] & Hrest)%bind_inv_inr.
    apply bind_inv_inr in Hrest as (ca & s0 & Hca0 & Hrest).
    unfold liftE in Hca0. injection Hca0 as _ <-.
    apply bind_inv_inr in Hrest as ([] & s_t & Htr & Hrest).
    destruct (trace_exact _ _ _ _ _ _ _ _ _ _ _ Hwf Htr Hch Hctx Hca')
      as (_ & _ & _ & _ & Hr & _).
    rewrite <- Hr.
    apply bind_inv_inr in Hrest as (sargs & s0 & [= <- <-] & Hrest).
    apply bind_inv_inr in Hrest as (givens & s_g & Hg & Hrest).
    pose proof (foldM_settled _ (collect_given_settled (pyfn s))
                  (s_args s_t) [] s_t) as Hst.
    rewrite Hg in Hst. cbn [snd] in Hst. destruct Hst as (_&_&_&_&Hrg).
    apply bind_inv_inr in Hrest as (sargs2 & s0 & [= <- <-] & Hrest).
    apply bind_inv_inr in Hrest as (inputs & s_i & Hi & Hrest).
    pose proof (collect_inputs_pure (pyfn s) givens
                  (collect_defaults (pyfn s)) (s_args s_g) s_g) as Hs3.
    rewrite Hi in Hs3. cbn [snd] in Hs3. subst s_i.
    apply bind_inv_inr in Hrest as (outputs & s0 & [= <- <-] & Hrest).
    apply bind_inv_inr in Hrest as (fn0 & s4 & Hfn & Hrest).
    unfold call_ext in Hfn. cbn [world_of symbolic_store] in Hfn.
    destruct (theano_function _ _ _ _) as [r0 e0].
    injection Hfn as -> <-.
    apply bind_inv_inr in Hrest as (key & s5 & Hkey & Hrest).
    match type of Hkey with
    | varargs_count _ _ ?st = _ =>
        destruct (varargs_count_pure (pyfn s) ca st s) as [Hs5 _]
    end.
    rewrite Hkey in Hs5. cbn [snd] in Hs5. subst s5.
    apply bind_inv_inr in Hrest as ([] & s6 & [= <-] & [= <- <-]).
    simpl. done. }
  destruct (compile_function_exact gen new_input_fresh _ _ _ _ _ _ _ _ _ _ _
              ds X B Hwf Hkeys Hch Hctx Hl HX HB Hca' Hnodes Hcomp)
    as (xD & xX & xB & e & e' & HxD & HxX & HxB & Hndx & _ & _ & Hth).
  exists ds, xD, xX, xB, e, e'. split_and!; try done.
  by rewrite Hres.
Qed.
End wiring_facts.

(** ** The further properties on concrete calls *)

Section defaults_examples.

Lemma collect_defaults_lookup_witness :
  NoDup (func_args sig_defaults) /\
  length (func_defaults sig_defaults) <= length (func_args sig_defaults) /\
  func_args sig_defaults !! 1 = Some "y" /\
  od_get "y" (collect_defaults sig_defaults) = Some int_7.
Proof.
  assert (H1 : NoDup (func_args sig_defaults)) by (vm_compute; solve_NoDup).
  assert (H2 : length (func_defaults sig_defaults)
               <= length (func_args sig_defaults)) by (vm_compute; lia).
  assert (H3 : func_args sig_defaults !! 1 = Some "y") by reflexivity.
  split; [exact H1|]. split; [exact H2|]. split; [exact H3|].
  exact (collect_defaults_lookup sig_defaults 1 "y" H1 H2 H3).
Defined.

Lemma collect_defaults_drops_last_witness :
  NoDup (func_args sig_defaults) /\
  func_varargs sig_defaults = Some "rest" /\
  last (func_args sig_defaults) = Some "z" /\
  func_defaults sig_defaults !! 1 = Some float_c /\
  od_get "z" (collect_defaults sig_defaults) = None.
Proof.
  assert (H1 : NoDup (func_args sig_defaults)) by (vm_compute; solve_NoDup).
  assert (H2 : func_varargs sig_defaults = Some "rest") by reflexivity.
  assert (H3 : last (func_args sig_defaults) = Some "z") by reflexivity.
  split; [exact H1|]. split; [exact H2|]. split; [exact H3|].
  split; [reflexivity|].
  exact (collect_defaults_drops_last sig_defaults "rest" "z" H1 H2 H3).
Defined.
End defaults_examples.

Section cache_examples.
#[local] Existing Instance echo_graph_engine.

Lemma compile_stores_artifact_witness :
  wf_signature (pyfn fun_echo) /\
  exists fn s',
    _compile_function [float_a; int_7; float_b] [] fun_echo = (inr fn, s') /\
    cache s' = <[1 := fn]> (cache fun_echo).
Proof.
  assert (H1 : wf_signature (pyfn fun_echo))
    by (unfold wf_signature; vm_compute; solve_NoDup).
  assert (H2 : exists fn s',
            _compile_function [float_a; int_7; float_b] [] fun_echo
            = (inr fn, s'))
    by (vm_compute; eexists _, _; reflexivity).
  destruct H2 as (fn & s' & H2).
  split; [exact H1|]. exists fn, s'. split; [exact H2|].
  exact (compile_stores_artifact [float_a; int_7; float_b] [] fun_echo s' fn
           H1 H2).
Defined.

Lemma call_invokes_compiled_witness :
  wf_signature (pyfn fun_echo) /\
  exists fn s_c,
    _compile_function [float_a; int_7] [("k", float_c)] fun_echo
    = (inr fn, s_c) /\
    exists ds rest,
      orderedcallargs (pyfn fun_echo) [float_a; int_7] [("k", float_c)]
      = inr (zip (func_args (pyfn fun_echo)) (BVal <$> ds) ++ rest) /\
      length ds = 2 /\
      forall r e',
        fn_call fn (ds ++ []) [("k", float_c)] (eng (sym_world s_c))
        = (r, e') ->
        exists s',
          call [float_a; int_7] [("k", float_c)] fun_echo = (r, s') /\
          calls (sym_world s')
          = calls (sym_world s_c) ++ [EvInvoke (ds ++ []) [("k", float_c)]] /\
          cache s' = cache s_c /\
          cache s' !! 0 = Some fn.
Proof.
  assert (H1 : wf_signature (pyfn fun_echo))
    by (unfold wf_signature; vm_compute; solve_NoDup).
  assert (H2 : exists fn s_c,
            _compile_function [float_a; int_7] [("k", float_c)] fun_echo
            = (inr fn, s_c))
    by (vm_compute; eexists _, _; reflexivity).
  destruct H2 as (fn & s_c & H2).
  split; [exact H1|]. exists fn, s_c. split; [exact H2|].
  exact (call_invokes_compiled [float_a; int_7] [("k", float_c)] fun_echo
           s_c fn H1 H2).
Defined.
Lemma call_rejects_containers_witness :
  wf_signature (pyfn fun_echo) /\
  orderedcallargs (pyfn fun_echo) [float_a; list_123] [("k", float_c)]
  = inr [("x", BVal float_a); ("y", BVal list_123); ("rest", BTuple []);
         ("kw", BBag [("k", float_c)])] /\
  list_123 ∈ [float_a; list_123] ++ od_values [("k", float_c)] /\
  is_container (oval list_123) = true /\
  exists pre name b post s',
    named_args (pyfn fun_echo) [float_a; list_123] [("k", float_c)]
    = pre ++ (name, b) :: post /\
    Forall (fun x => is_container (oval x.2) = false) pre /\
    is_container (oval b) = true /\
    call [float_a; list_123] [("k", float_c)] fun_echo
    = (inl (TypeError container_msg [FObj b; fname name]), s') /\
    calls (sym_world s') = calls (sym_world fun_echo) /\
    cache s' = cache fun_echo /\ s_vars s' = s_vars fun_echo /\
    s_args s' = s_args fun_echo /\ s_results s' = s_results fun_echo.
Proof.
  assert (H1 : wf_signature (pyfn fun_echo))
    by (unfold wf_signature; vm_compute; solve_NoDup).
  assert (H2 : orderedcallargs (pyfn fun_echo) [float_a; list_123]
                 [("k", float_c)]
               = inr [("x", BVal float_a); ("y", BVal list_123);
                      ("rest", BTuple []); ("kw", BBag [("k", float_c)])])
    by (vm_compute; reflexivity).
  assert (H3 : list_123 ∈ [float_a; list_123] ++ od_values [("k", float_c)])
    by (apply list_elem_of_further, list_elem_of_here).
  assert (H4 : is_container (oval list_123) = true) by reflexivity.
  split; [exact H1|]. split; [exact H2|]. split; [exact H3|].
  split; [exact H4|].
  exact (call_rejects_containers [float_a; list_123] [("k", float_c)] fun_echo
           _ list_123 H1 H2 H3 H4).
Defined.

(** The call of the witness, run: the error names [y], the first container,
    and nothing was called. *)
Example call_rejects_run :
  (call [float_a; list_123] [("k", float_c)] fun_echo).1
  = inl (TypeError container_msg [FObj list_123; FStr "y"]) /\
  calls (sym_world (call [float_a; list_123] [("k", float_c)] fun_echo).2)
  = [].
Proof. split; vm_compute; reflexivity. Qed.
End cache_examples.

Section rejection_examples.
#[local] Existing Instance first_engine.

Lemma compile_error_keeps_cache_witness :
  _compile_function [list_123] [] sym_first
  = (inl (TypeError container_msg [FObj list_123; FStr "x"]),
     (_compile_function [list_123] [] sym_first).2) /\
  cache (_compile_function [list_123] [] sym_first).2 = cache sym_first /\
  pyfn (_compile_function [list_123] [] sym_first).2 = pyfn sym_first.
Proof.
  assert (H1 : _compile_function [list_123] [] sym_first
               = (inl (TypeError container_msg [FObj list_123; FStr "x"]),
                  (_compile_function [list_123] [] sym_first).2))
    by (vm_compute; reflexivity).
  split; [exact H1|].
  exact (compile_error_keeps_cache [list_123] [] sym_first _ _ H1).
Defined.

Lemma call_propagates_compile_error_witness :
  wf_signature (pyfn sym_first) /\
  _compile_function [list_123] [] sym_first
  = (inl (TypeError container_msg [FObj list_123; FStr "x"]),
     (_compile_function [list_123] [] sym_first).2) /\
  call [list_123] [] sym_first
  = (inl (TypeError container_msg [FObj list_123; FStr "x"]),
     (_compile_function [list_123] [] sym_first).2).
Proof.
  assert (H0 : wf_signature (pyfn sym_first))
    by (unfold wf_signature; vm_compute; solve_NoDup).
  assert (H1 : _compile_function [list_123] [] sym_first
               = (inl (TypeError container_msg [FObj list_123; FStr "x"]),
                  (_compile_function [list_123] [] sym_first).2))
    by (vm_compute; reflexivity).
  split; [exact H0|]. split; [exact H1|].
  exact (call_propagates_compile_error [list_123] [] sym_first _ _ H0 H1).
Defined.

End rejection_examples.

Section gradient_error_examples.
#[local] Existing Instance failing_engine.

Lemma gradient_error_clears_witness :
  Gradient_call [float_a] [] grad_failing
  = (inl (PyExc "ValueError" "bad input" []),
     (Gradient_call [float_a] [] grad_failing).2) /\
  _grad_fn (Gradient_call [float_a] [] grad_failing).2 = None.
Proof.
  assert (H1 : Gradient_call [float_a] [] grad_failing
               = (inl (PyExc "ValueError" "bad input" []),
                  (Gradient_call [float_a] [] grad_failing).2))
    by (vm_compute; reflexivity).
  split; [exact H1|].
  exact (gradient_error_clears [float_a] [] grad_failing _ _ H1).
Defined.
End gradient_error_examples.

Section gradient_untraceable_examples.
#[local] Existing Instance blind_engine.

Lemma gradient_untraceable_witness :
  let g := Gradient_init sig_x (world0 blind_engine 1000) in
  _grad_fn g = None /\
  ctx_call (_fn g) [float_a] [] (eng (grad_world g))
  = (inr (RTuple 999 [float_a], []), 1000) /\
  (oid <$> [float_a] ++ od_values (@nil (string * obj)))
    ++ [result_id (RTuple 999 [float_a])] = [] ++ 1 :: [999] /\
  Forall (fun j => is_Some (od_get j (od_of_list (@nil (nat * node)))))
         (@nil nat) /\
  od_get 1 (od_of_list (@nil (nat * node))) = None /\
  exists g',
    Gradient_call [float_a] [] g = (inl (KeyError "{0}" [FNat 1]), g') /\
    _grad_fn g' = None /\
    calls (grad_world g')
    = calls (grad_world g)
      ++ [EvTrace [float_a] [];
          EvPrint "ERROR: PyAD was unable to trace the requested variable."].
Proof.
  cbn zeta.
  assert (H1 : _grad_fn (Gradient_init sig_x (world0 blind_engine 1000))
               = None) by reflexivity.
  assert (H2 : ctx_call (_fn (Gradient_init sig_x (world0 blind_engine 1000)))
                 [float_a] []
                 (eng (grad_world
                         (Gradient_init sig_x (world0 blind_engine 1000))))
               = (inr (RTuple 999 [float_a], []), 1000))
    by (vm_compute; reflexivity).
  assert (H3 : (oid <$> [float_a] ++ od_values (@nil (string * obj)))
                 ++ [result_id (RTuple 999 [float_a])] = [] ++ 1 :: [999])
    by reflexivity.
  assert (H4 : Forall (fun j => is_Some (od_get j
                                   (od_of_list (@nil (nat * node)))))
                      (@nil nat)) by constructor.
  assert (H5 : od_get 1 (od_of_list (@nil (nat * node))) = None)
    by reflexivity.
  split; [exact H1|]. split; [exact H2|]. split; [exact H3|].
  split; [exact H4|]. split; [exact H5|].
  exact (gradient_untraceable [float_a] []
           (Gradient_init sig_x (world0 blind_engine 1000))
           _ _ _ _ _ _ H1 H2 H3 H4 H5).
Defined.
End gradient_untraceable_examples.

Section wiring_examples.
#[local] Existing Instance echo_graph_engine.

Local Abbreviation boxed_7 := (Obj 10 (VNpInt 7)).
Local Abbreviation echo_args := [float_a; int_7].
Local Abbreviation echo_kwargs := [("k", float_c)].
Local Abbreviation echo_bound :=
  [("x", BVal float_a); ("y", BVal boxed_7); ("rest", BTuple []);
   ("kw", BBag [("k", float_c)])].
Local Abbreviation echo_svars := (shadow <$> [float_a; boxed_7; float_c]).

Lemma trace_names_arguments_witness :
  trace echo_args echo_kwargs fun_echo
  = (inr tt, (trace echo_args echo_kwargs fun_echo).2) /\
  check_args (pyfn fun_echo) echo_args echo_kwargs fun_echo
  = (inr ([float_a; boxed_7], echo_kwargs),
     (check_args (pyfn fun_echo) echo_args echo_kwargs fun_echo).2) /\
  ctx_call (pyfn fun_echo) [float_a; boxed_7] echo_kwargs
    (eng (sym_world fun_echo))
  = (inr (RTuple 999 [float_a; boxed_7], echo_svars), 1000) /\
  orderedcallargs (pyfn fun_echo) [float_a; boxed_7] echo_kwargs
  = inr echo_bound /\
  names (sym_world (trace echo_args echo_kwargs fun_echo).2)
  = named_nodes (od_of_list echo_svars) (names (sym_world fun_echo))
      (bound_values (pyfn fun_echo) echo_bound) /\
  (NoDup (traced_node (od_of_list echo_svars)
          <$> (bound_values (pyfn fun_echo) echo_bound).*2) ->
   forall sl a, (sl, a) ∈ bound_values (pyfn fun_echo) echo_bound ->
     names (sym_world (trace echo_args echo_kwargs fun_echo).2)
       !! traced_node (od_of_list echo_svars) a
     = Some (slot_name sl)).
Proof.
  assert (H1 : trace echo_args echo_kwargs fun_echo
               = (inr tt, (trace echo_args echo_kwargs fun_echo).2))
    by (vm_compute; reflexivity).
  assert (H2 : check_args (pyfn fun_echo) echo_args echo_kwargs fun_echo
               = (inr ([float_a; boxed_7], echo_kwargs),
                  (check_args (pyfn fun_echo) echo_args echo_kwargs
                     fun_echo).2))
    by (vm_compute; reflexivity).
  assert (H3 : ctx_call (pyfn fun_echo) [float_a; boxed_7] echo_kwargs
                 (eng (sym_world fun_echo))
               = (inr (RTuple 999 [float_a; boxed_7], echo_svars), 1000))
    by (vm_compute; reflexivity).
  assert (H4 : orderedcallargs (pyfn fun_echo) [float_a; boxed_7] echo_kwargs
               = inr echo_bound) by (vm_compute; reflexivity).
  split; [exact H1|]. split; [exact H2|]. split; [exact H3|].
  split; [exact H4|].
  exact (trace_names_arguments echo_args echo_kwargs fun_echo _ _ _ _ _ _ _ _
           H1 H2 H3 H4).
Defined.

Lemma trace_dictionaries_witness :
  wf_signature (pyfn fun_echo) /\
  trace echo_args echo_kwargs fun_echo
  = (inr tt, (trace echo_args echo_kwargs fun_echo).2) /\
  check_args (pyfn fun_echo) echo_args echo_kwargs fun_echo
  = (inr ([float_a; boxed_7], echo_kwargs),
     (check_args (pyfn fun_echo) echo_args echo_kwargs fun_echo).2) /\
  ctx_call (pyfn fun_echo) [float_a; boxed_7] echo_kwargs
    (eng (sym_world fun_echo))
  = (inr (RTuple 999 [float_a; boxed_7], echo_svars), 1000) /\
  orderedcallargs (pyfn fun_echo) [float_a; boxed_7] echo_kwargs
  = inr echo_bound /\
  Forall (fun a => is_Some (od_get (oid a) (od_of_list echo_svars)))
         (bound_values (pyfn fun_echo) echo_bound).*2 /\
  Forall (fun r => is_Some (od_get (oid r) (od_of_list echo_svars)))
         (result_items (RTuple 999 [float_a; boxed_7])) /\
  s_vars (trace echo_args echo_kwargs fun_echo).2 = od_of_list echo_svars /\
  s_args (trace echo_args echo_kwargs fun_echo).2
  = od_of_list (concat (entry_sargs (od_of_list echo_svars) <$> echo_bound)) /\
  s_results (trace echo_args echo_kwargs fun_echo).2
  = od_of_list ((fun r => (oid r, traced_node (od_of_list echo_svars) r))
                  <$> result_items (RTuple 999 [float_a; boxed_7])).
Proof.
  assert (H0 : wf_signature (pyfn fun_echo))
    by (unfold wf_signature; vm_compute; solve_NoDup).
  assert (H1 : trace echo_args echo_kwargs fun_echo
               = (inr tt, (trace echo_args echo_kwargs fun_echo).2))
    by (vm_compute; reflexivity).
  assert (H2 : check_args (pyfn fun_echo) echo_args echo_kwargs fun_echo
               = (inr ([float_a; boxed_7], echo_kwargs),
                  (check_args (pyfn fun_echo) echo_args echo_kwargs
                     fun_echo).2))
    by (vm_compute; reflexivity).
  assert (H3 : ctx_call (pyfn fun_echo) [float_a; boxed_7] echo_kwargs
                 (eng (sym_world fun_echo))
               = (inr (RTuple 999 [float_a; boxed_7], echo_svars), 1000))
    by (vm_compute; reflexivity).
  assert (H4 : orderedcallargs (pyfn fun_echo) [float_a; boxed_7] echo_kwargs
               = inr echo_bound) by (vm_compute; reflexivity).
  split; [exact H0|]. split; [exact H1|]. split; [exact H2|].
  split; [exact H3|]. split; [exact H4|].
  exact (trace_dictionaries echo_args echo_kwargs fun_echo _ _ _ _ _ _ _ _
           H0 H1 H2 H3 H4).
Defined.

Lemma compile_wiring_witness :
  wf_signature (pyfn fun_echo) /\
  NoDup (od_keys echo_kwargs) /\
  (func_varargs (pyfn fun_echo) ∉ Some <$> od_keys echo_kwargs) /\
  check_args (pyfn fun_echo) echo_args echo_kwargs fun_echo
  = (inr ([float_a; boxed_7], echo_kwargs),
     (check_args (pyfn fun_echo) echo_args echo_kwargs fun_echo).2) /\
  ctx_call (pyfn fun_echo) [float_a; boxed_7] echo_kwargs
    (eng (sym_world fun_echo))
  = (inr (RTuple 999 [float_a; boxed_7], echo_svars), 1000) /\
  orderedcallargs (pyfn fun_echo) [float_a; boxed_7] echo_kwargs
  = inr echo_bound /\
  NoDup (traced_node (od_of_list echo_svars)
         <$> (bound_values (pyfn fun_echo) echo_bound).*2) /\
  exists fn s_c,
    _compile_function echo_args echo_kwargs fun_echo = (inr fn, s_c) /\
    exists ds xD xX xB e e',
      echo_bound
      = zip (func_args (pyfn fun_echo)) (BVal <$> ds)
        ++ [("rest", BTuple [])] ++ [("kw", BBag echo_kwargs)] /\
      (bound_values (pyfn fun_echo) echo_bound).*2
      = ds ++ [] ++ echo_kwargs.*2 /\
      length xD = length ds /\ length xX = 0 /\ length xB = 1 /\
      NoDup (xD ++ xX ++ xB) /\
      theano_function
        (((fun nx : string * node =>
             Param nx.2 (od_get nx.1 (collect_defaults (pyfn fun_echo))) nx.1)
            <$> zip (func_args (pyfn fun_echo) ++ echo_kwargs.*1) (xD ++ xB))
         ++ (In_ <$> xX))
        (collect_outputs (s_results s_c))
        (zip (traced_node (od_of_list echo_svars)
                <$> (ds ++ [] ++ echo_kwargs.*2))
             (xD ++ xX ++ xB))
        e
      = (inr fn, e').
Proof.
  assert (Hfresh : forall (v : node) (n : string) (e : estate),
            id e <= (new_input v n e).1 < id (new_input v n e).2)
    by (intros v n e; simpl; lia).
  assert (H1 : wf_signature (pyfn fun_echo))
    by (unfold wf_signature; vm_compute; solve_NoDup).
  assert (H2 : NoDup (od_keys echo_kwargs)) by (vm_compute; solve_NoDup).
  assert (H3 : func_varargs (pyfn fun_echo) ∉ Some <$> od_keys echo_kwargs).
  { intros (k & Hk & Hin)%list_elem_of_fmap. simpl in Hin.
    apply list_elem_of_singleton in Hin. subst k.
    vm_compute in Hk. discriminate Hk. }
  assert (H5 : check_args (pyfn fun_echo) echo_args echo_kwargs fun_echo
               = (inr ([float_a; boxed_7], echo_kwargs),
                  (check_args (pyfn fun_echo) echo_args echo_kwargs
                     fun_echo).2))
    by (vm_compute; reflexivity).
  assert (H6 : ctx_call (pyfn fun_echo) [float_a; boxed_7] echo_kwargs
                 (eng (sym_world fun_echo))
               = (inr (RTuple 999 [float_a; boxed_7], echo_svars), 1000))
    by (vm_compute; reflexivity).
  assert (H7 : orderedcallargs (pyfn fun_echo) [float_a; boxed_7] echo_kwargs
               = inr echo_bound) by (vm_compute; reflexivity).
  assert (H8 : NoDup (traced_node (od_of_list echo_svars)
                      <$> (bound_values (pyfn fun_echo) echo_bound).*2))
    by (vm_compute; solve_NoDup).
  assert (H10 : exists fn s_c,
            _compile_function echo_args echo_kwargs fun_echo = (inr fn, s_c))
    by (vm_compute; eexists _, _; reflexivity).
  destruct H10 as (fn & s_c & H10).
  split; [exact H1|]. split; [exact H2|]. split; [exact H3|].
  split; [exact H5|]. split; [exact H6|]. split; [exact H7|].
  split; [exact H8|].
  exists fn, s_c. split; [exact H10|].
  exact (compile_wiring id Hfresh echo_args echo_kwargs fun_echo s_c fn
           _ _ _ _ _ _ _ H1 H2 H3 H5 H6 H7 H8 H10).
Defined.
End wiring_examples.
